(** * CPU-target dispatch core of [src/processor.cpp]

    A shallow embedding of the feature-bitset helpers, the dependency
    closures, the target-data (de)serialiser, the [-C target] option
    parser and the sysimg dispatch loader, with the properties the
    specification states about them.

    Conventions of the embedding.
    - [uint32_t] and [int] values are [Z]; every conversion and every
      wrap-around of the source is written out ([to_u32], [to_int]).
    - An array is a [list]; an access outside its bounds, which is
      undefined behaviour in C++, stops the computation with
      [OutOfBounds].  A failed [assert] stops with [AssertFailed], a call
      of [jl_error] with [Fatal msg].
    - A pointer has 64 bits (LP64).  The data section of the image is a
      map from byte offsets to bytes, and the store of a pointer writes
      its eight bytes, low byte first. *)

From Stdlib Require Import ZArith List Lia Bool Ascii String Sorted.
From stdpp Require Import base list sorting.
From coqutil Require Import Byte LittleEndianList.
From coqutil Require Import Z.bitblast.

Local Open Scope Z_scope.

(** ** Outcomes of a run *)

Inductive error :=
| OutOfBounds                 (* read or write outside an array *)
| AssertFailed                (* a failed [assert] *)
| Fatal (msg : string)        (* [jl_error(msg)] *)
| PassLimit.                  (* pass counter of a [while] loop used up *)

Inductive result (A : Type) :=
| Ok (a : A)
| Err (e : error).
Arguments Ok {A} a.
Arguments Err {A} e.

Definition bind {A B} (m : result A) (k : A -> result B) : result B :=
  match m with
  | Ok a => k a
  | Err e => Err e
  end.

Notation "'do' x <- m ; k" := (bind m (fun x => k))
  (at level 10, x name, m at level 100, k at level 200).
Notation "'do' ' p <- m ; k" := (bind m (fun x => let 'p := x in k))
  (at level 10, p pattern, m at level 100, k at level 200).

(** ** Machine integers *)

Definition to_u32 (z : Z) : Z := z mod 2 ^ 32.

(** Conversion to [int] (32 bits, two's complement). *)
Definition to_int (z : Z) : Z := (z + 2 ^ 31) mod 2 ^ 32 - 2 ^ 31.

(** [~x] on a [uint32_t]. *)
Definition not32 (w : Z) : Z := to_u32 (Z.lnot w).

Definition is_u32 (z : Z) : Prop := 0 <= z < 2 ^ 32.

(** [arr[i]] for reading. *)
Definition load {A} (arr : list A) (i : Z) : result A :=
  if i <? 0 then Err OutOfBounds
  else match arr !! Z.to_nat i with
       | Some x => Ok x
       | None => Err OutOfBounds
       end.

(** [arr[i] = x]. *)
Definition store {A} (arr : list A) (i : Z) (x : A) : result (list A) :=
  if i <? 0 then Err OutOfBounds
  else if (Z.to_nat i <? length arr)%nat then Ok (<[Z.to_nat i := x]> arr)
  else Err OutOfBounds.

(** ** Feature bitsets *)

Module Features.

(** [FeatureList<n>]: the [n] words of [eles]. *)
Abbreviation FeatureList := (list Z) (only parsing).

Definition wf_features (n : nat) (l : FeatureList) : Prop :=
  length l = n /\ Forall is_u32 l.

(** [1 << bit], an [int], seen as a [uint32_t]. *)
Definition bit_mask (bit : Z) : Z := to_u32 (Z.shiftl 1 bit).

Definition test_nbit (bits : FeatureList) (_bitidx : Z) : result bool :=
  let bitidx := to_u32 _bitidx in
  let u32idx := bitidx / 32 in
  let bit := bitidx mod 32 in
  do w <- load bits u32idx;
  Ok (negb (Z.land w (bit_mask bit) =? 0)).

(** The variadic [unset_bits(bits, idx...)], the indices as a list. *)
Fixpoint unset_bits (bits : FeatureList) (idxs : list Z) : result FeatureList :=
  match idxs with
  | [] => Ok bits
  | _bitidx :: rest =>
      let bitidx := to_u32 _bitidx in
      let u32idx := bitidx / 32 in
      let bit := bitidx mod 32 in
      do w <- load bits u32idx;
      do bits' <- store bits u32idx (Z.land w (not32 (bit_mask bit)));
      unset_bits bits' rest
  end.

Definition set_bit (bits : FeatureList) (_bitidx : Z) (val : bool)
  : result FeatureList :=
  let bitidx := to_u32 _bitidx in
  let u32idx := bitidx / 32 in
  let bit := bitidx mod 32 in
  do w <- load bits u32idx;
  if val then store bits u32idx (Z.lor w (bit_mask bit))
  else store bits u32idx (Z.land w (not32 (bit_mask bit))).

(** [FeatureList::empty]. *)
Fixpoint empty (eles : FeatureList) : bool :=
  match eles with
  | [] => true
  | w :: rest => if negb (w =? 0) then false else empty rest
  end.

(** The loop of [features_le] over the words of [a] and [b]. *)
Fixpoint features_le (a b : FeatureList) : bool :=
  match a, b with
  | x :: a', y :: b' =>
      if negb (Z.land x (not32 y) =? 0) then false else features_le a' b'
  | _, _ => true
  end.

(** [add_feature_mask_u32] over the argument pack [bits]; [int(bit)] is
    the conversion of each argument to [int]. *)
Fixpoint add_feature_mask_u32 (mask u32idx : Z) (bits : list Z) : Z :=
  match bits with
  | [] => mask
  | bit :: args =>
      add_feature_mask_u32
        (Z.lor mask
           (if (0 <=? to_int bit) && (Z.quot (to_int bit) 32 =? to_int u32idx)
            then to_u32 (Z.shiftl 1 (Z.rem (to_int bit) 32)) else 0))
        u32idx args
  end.

Definition get_feature_mask_u32 (u32idx : Z) (bits : list Z) : Z :=
  add_feature_mask_u32 0 u32idx bits.

Definition get_feature_masks (n : nat) (bits : list Z) : FeatureList :=
  map (fun I => get_feature_mask_u32 (Z.of_nat I) bits) (seq 0 n).

(** [operator|], [operator&], [operator~]: word by word. *)
Definition feature_mask_or (a b : FeatureList) : FeatureList :=
  zip_with Z.lor a b.
Definition feature_mask_and (a b : FeatureList) : FeatureList :=
  zip_with Z.land a b.
Definition feature_mask_not (a : FeatureList) : FeatureList :=
  map not32 a.

Record FeatureDep := { feature : Z; dep : Z }.

(** One sweep of the [for] loop of [enable_depends]; [deps] is given in
    the order the loop visits it (last edge first). *)
Fixpoint enable_sweep (features : FeatureList) (deps : list FeatureDep)
    (changed : bool) : result (FeatureList * bool) :=
  match deps with
  | [] => Ok (features, changed)
  | d :: rest =>
      do has_f <- test_nbit features d.(feature);
      if negb has_f then enable_sweep features rest changed
      else
        do has_d <- test_nbit features d.(dep);
        if has_d then enable_sweep features rest changed
        else
          do features' <- set_bit features d.(dep) true;
          enable_sweep features' rest true
  end.

(** The [while (changed)] loop, with a counter of the sweeps left. *)
Fixpoint enable_loop (sweeps : nat) (features : FeatureList)
    (deps : list FeatureDep) : result FeatureList :=
  match sweeps with
  | O => Err PassLimit
  | S sweeps' =>
      do '(features', changed) <- enable_sweep features (rev deps) false;
      if changed then enable_loop sweeps' features' deps else Ok features'
  end.

(** Every sweep but the last sets a bit that was clear, so
    [32 * n + 1] sweeps are never used up ([enable_depends_total]). *)
Definition enable_depends (features : FeatureList) (deps : list FeatureDep)
  : result FeatureList :=
  enable_loop (S (32 * length features)) features deps.

Fixpoint disable_sweep (features : FeatureList) (deps : list FeatureDep)
    (changed : bool) : result (FeatureList * bool) :=
  match deps with
  | [] => Ok (features, changed)
  | d :: rest =>
      do has_f <- test_nbit features d.(feature);
      if negb has_f then disable_sweep features rest changed
      else
        do has_d <- test_nbit features d.(dep);
        if has_d then disable_sweep features rest changed
        else
          do features' <- unset_bits features [d.(feature)];
          disable_sweep features' rest true
  end.

Fixpoint disable_loop (sweeps : nat) (features : FeatureList)
    (deps : list FeatureDep) : result FeatureList :=
  match sweeps with
  | O => Err PassLimit
  | S sweeps' =>
      do '(features', changed) <- disable_sweep features (rev deps) false;
      if changed then disable_loop sweeps' features' deps else Ok features'
  end.

Definition disable_depends (features : FeatureList) (deps : list FeatureDep)
  : result FeatureList :=
  disable_loop (S (32 * length features)) features deps.

(** *** Vocabulary of the statements *)

(** Bit [i] of the set, [false] outside it. *)
Definition bit_at (bits : FeatureList) (i : Z) : bool :=
  match bits !! Z.to_nat (i / 32) with
  | Some w => Z.testbit w (i mod 32)
  | None => false
  end.

(** A bit index that [n] words hold. *)
Definition bit_ok (n : nat) (i : Z) : Prop :=
  is_u32 i /\ i / 32 < Z.of_nat n.

Definition edge_ok (n : nat) (d : FeatureDep) : Prop :=
  bit_ok n d.(feature) /\ bit_ok n d.(dep).

Definition bit_indices (n : nat) : list Z :=
  map Z.of_nat (seq 0 (32 * n)).

(** The number of bits of value [v]. *)
Definition count_bits (v : bool) (bits : FeatureList) : nat :=
  length (List.filter (fun i => Bool.eqb (bit_at bits i) v)
            (bit_indices (length bits))).

(** What a sweep towards [v] does to the set [s] and the flag [c]:
    [v = true] adds bits, [v = false] removes them. *)
Definition sweep_post (v : bool) (s : FeatureList) (c : bool)
    (s' : FeatureList) (c' : bool) : Prop :=
  length s' = length s /\
  (Forall is_u32 s -> Forall is_u32 s') /\
  (forall k, 0 <= k -> bit_at s k = v -> bit_at s' k = v) /\
  ((c' = c /\ s' = s) \/
   (c' = true /\
    exists k, bit_ok (length s) k /\ bit_at s k = negb v /\ bit_at s' k = v)).

(** [(uint32_t)-1], what [find_feature_bit] returns for an unknown
    name. *)
Definition sentinel : Z := 0xFFFFFFFF.

End Features.

(** ** Target data and its serialised form *)

Module Target.
Import Features.

(** A [char] or [uint8_t] is a [byte]; a [std::string] is the list of its
    bytes. *)
Abbreviation bytes := (list byte).
Notation "'cstr' s" := (list_byte_of_string s) (at level 10, only parsing).

(** [TargetData<n>]; [en_features] and [en_flags] are [en.features] and
    [en.flags], likewise for [dis]. *)
Record TargetData := {
  name : bytes;
  ext_features : bytes;
  en_features : FeatureList;
  en_flags : Z;
  dis_features : FeatureList;
  dis_flags : Z;
  base : Z
}.

(** The four bytes of a [uint32_t] in memory (little-endian hosts). *)
Definition u32_bytes (w : Z) : bytes := le_split 4 w.

(** The bytes of a [uint32_t] array. *)
Definition words_bytes (ws : list Z) : bytes := flat_map u32_bytes ws.

(** [s.c_str()]: the bytes of [s] and the terminator. *)
Definition c_str (s : bytes) : bytes := s ++ [Byte.x00].





(** The lambda [load_data]: [sz] bytes read at [data], which advances. *)
Definition load_data (data : bytes) (sz : Z) : result (bytes * bytes) :=
  if (Z.to_nat sz <=? length data)%nat
  then Ok (take (Z.to_nat sz) data, drop (Z.to_nat sz) data)
  else Err OutOfBounds.

Definition load_u32 (data : bytes) : result (Z * bytes) :=
  do '(b, data) <- load_data data 4;
  Ok (le_combine b, data).

(** [count] words read at [data]. *)
Fixpoint load_words (count : nat) (data : bytes) : result (list Z * bytes) :=
  match count with
  | O => Ok ([], data)
  | S count' =>
      do '(w, data) <- load_u32 data;
      do '(ws, data) <- load_words count' data;
      Ok (w :: ws, data)
  end.

(** The lambda [load_string]. *)
Definition load_string (data : bytes) : result (bytes * bytes) :=
  do '(len, data) <- load_u32 data;
  load_data data len.

(** The [for] loop of [deserialize_target_data] with [count] targets
    left. *)
Fixpoint deserialize_targets (n count : nat) (data : bytes)
  : result (list TargetData) :=
  match count with
  | O => Ok []
  | S count' =>
      do '(flags, data) <- load_u32 data;
      do '(nfeature, data) <- load_u32 data;
      if negb (nfeature =? Z.of_nat n) then Err AssertFailed
      else
        do '(en, data) <- load_words n data;
        do '(dis, data) <- load_words n data;
        do '(nm, data) <- load_string data;
        do '(ext, data) <- load_string data;
        do rest <- deserialize_targets n count' data;
        Ok ({| name := nm; ext_features := ext;
               en_features := en; en_flags := flags;
               dis_features := dis; dis_flags := 0;
               base := 0 |} :: rest)
  end.

Definition deserialize_target_data (n : nat) (data : bytes)
  : result (list TargetData) :=
  do '(ntarget, data) <- load_u32 data;
  deserialize_targets n (Z.to_nat ntarget) data.

(** *** Vocabulary of the statements *)

Definition no_nul (s : bytes) : Prop := Forall (fun c => c <> Byte.x00) s.


(** [T] after the restoration of the flag fields: [dis.flags] and [base]
    are 0. *)
Definition restored (T : TargetData) : TargetData :=
  {| name := T.(name); ext_features := T.(ext_features);
     en_features := T.(en_features); en_flags := T.(en_flags);
     dis_features := T.(dis_features); dis_flags := 0; base := 0 |}.

(** The record of [T] in a [jl_dispatch_target_ids] blob, after its flags
    word. *)
Definition serialized (n : nat) (T : TargetData) : bytes :=
  u32_bytes (Z.of_nat n) ++ words_bytes T.(en_features) ++
  words_bytes T.(dis_features) ++
  u32_bytes (Z.of_nat (length T.(name))) ++ T.(name) ++
  u32_bytes (Z.of_nat (length T.(ext_features))) ++ T.(ext_features).

Definition sample_target : TargetData :=
  {| name := cstr "haswell"; ext_features := cstr "+foo,-bar";
     en_features := [5; 0xFFFFFFFF]; en_flags := 1;
     dis_features := [0; 7]; dis_flags := 1; base := 3 |}.

End Target.

(** ** The [-C target] option parser *)

Module Cmdline.
Import Features Target.

(** [c == 'x'], the character given as a one-letter string. *)
Definition is_char (c : byte) (s : string) : bool :=
  match cstr s with
  | [c'] => Byte.eqb c c'
  | _ => false
  end.

(** Same length and same bytes ([memcmp(...) == 0]). *)
Fixpoint bytes_eqb (a b : bytes) : bool :=
  match a, b with
  | [], [] => true
  | x :: a', y :: b' => Byte.eqb x y && bytes_eqb a' b'
  | _, _ => false
  end.

(** [*start > '9' || *start < '0'], negated.  The byte is read unsigned:
    a [char] above 127 is outside ['0'..'9'] whether [char] is signed or
    not. *)
Definition is_digit (c : byte) : bool :=
  (48 <=? byte.unsigned c) && (byte.unsigned c <=? 57).

Definition digit_value (c : byte) : Z := byte.unsigned c - 48.

(** [long] has 64 bits (LP64). *)
Definition LONG_MAX : Z := 2 ^ 63 - 1.

(** The digits [strtol] consumes: their value and the rest of the
    input. *)
Fixpoint strtol_digits (acc : Z) (s : bytes) : Z * bytes :=
  match s with
  | c :: rest =>
      if is_digit c then strtol_digits (acc * 10 + digit_value c) rest
      else (acc, s)
  | [] => (acc, [])
  end.

(** [strtol(start, &digit_end, 10)] on an input that starts with a digit:
    the value, [LONG_MAX] when it is out of range, and [digit_end]. *)
Definition strtol (s : bytes) : Z * bytes :=
  let '(v, digit_end) := strtol_digits 0 s in
  (Z.min v LONG_MAX, digit_end).

(** [get_clone_base(start, end)], on the bytes of [[start, end)].  The only
    caller passes an [end] that points at [','], [';'] or the terminator,
    so [strtol] stops at [end] at the latest; when it stops there,
    [digit_end + 1 != end] holds.  The sum [(int)idx + 1] wraps. *)
Definition get_clone_base (tok : bytes) : Z :=
  let prefix := cstr "base(" in
  let prefix_len := Z.of_nat (length prefix) in
  if Z.of_nat (length tok) <=? prefix_len then 0
  else if negb (bytes_eqb (take (Z.to_nat prefix_len) tok) prefix) then 0
  else
    let start := drop (Z.to_nat prefix_len) tok in
    match start with
    | [] => 0
    | c :: _ =>
        if negb (is_digit c) then 0
        else
          let '(idx, digit_end) := strtol start in
          if idx <? 0 then 0
          else
            match digit_end with
            | [c'] => if is_char c' ")" then to_int (to_int idx + 1) else 0
            | _ => 0
            end
    end.

Section Parser.

(** The template parameter [n], the flag bit of [processor.h] and the
    callback [feature_cb(fname, len, list)], which returns its verdict and
    the list as it leaves it. *)
Variable n : nat.
Variable JL_TARGET_CLONE_ALL : Z.
Variable feature_cb : bytes -> FeatureList -> bool * FeatureList.

(** [TargetData<n> arg{}]. *)
Definition arg_init : TargetData :=
  {| name := []; ext_features := [];
     en_features := replicate n 0; en_flags := 0;
     dis_features := replicate n 0; dis_flags := 0;
     base := 0 |}.

(** The lambda [reset_arg]; [arg.base] is left as it is. *)
Definition reset_arg (res : list TargetData) (arg : TargetData)
  : list TargetData * TargetData :=
  (res ++ [arg],
   {| name := []; ext_features := [];
      en_features := replicate n 0; en_flags := 0;
      dis_features := replicate n 0; dis_flags := 0;
      base := arg.(base) |}).

(** The last branch of a token: [fname] goes to [feature_cb], and to
    [ext_features] with its sign when the callback does not know it. *)
Definition feature_token (disable : bool) (fname : bytes) (arg : TargetData)
  : TargetData :=
  let list := if disable then arg.(dis_features) else arg.(en_features) in
  let '(known, list') := feature_cb fname list in
  let ext :=
    if negb known then
      (if negb (bytes_eqb arg.(ext_features) [])
       then arg.(ext_features) ++ cstr "," else arg.(ext_features))
      ++ (if disable then cstr "-" else cstr "+") ++ fname
    else arg.(ext_features) in
  {| name := arg.(name); ext_features := ext;
     en_features := if disable then arg.(en_features) else list';
     en_flags := arg.(en_flags);
     dis_features := if disable then list' else arg.(dis_features);
     dis_flags := arg.(dis_flags);
     base := arg.(base) |}.

(** The token between [fname] and [p], after the CPU name: the branches
    for [clone_all], [base(k)] and features. *)
Definition on_feature (disable : bool) (fname : bytes)
    (res : list TargetData) (arg : TargetData) : result TargetData :=
  if bytes_eqb fname (cstr "clone_all") then
    if negb disable then
      Ok {| name := arg.(name); ext_features := arg.(ext_features);
            en_features := arg.(en_features);
            en_flags := Z.lor arg.(en_flags) JL_TARGET_CLONE_ALL;
            dis_features := arg.(dis_features);
            dis_flags := Z.land arg.(dis_flags) (not32 JL_TARGET_CLONE_ALL);
            base := arg.(base) |}
    else
      Ok {| name := arg.(name); ext_features := arg.(ext_features);
            en_features := arg.(en_features);
            en_flags := Z.land arg.(en_flags) (not32 JL_TARGET_CLONE_ALL);
            dis_features := arg.(dis_features);
            dis_flags := Z.lor arg.(dis_flags) JL_TARGET_CLONE_ALL;
            base := arg.(base) |}
  else
    let base0 := get_clone_base fname in
    if negb (base0 =? 0) then
      if disable then
        Err (Fatal "Invalid target option: disabled base index.")
      else
        let base1 := to_int (base0 - 1) in
        if base1 >=? to_int (Z.of_nat (length res)) then
          Err (Fatal "Invalid target option: base index must refer to a previous target.")
        else
          do t <- load res base1;
          if negb (Z.land t.(dis_flags) JL_TARGET_CLONE_ALL =? 0)
             || (Z.land t.(en_flags) JL_TARGET_CLONE_ALL =? 0)
          then Err (Fatal "Invalid target option: base target must be clone_all.")
          else
            Ok {| name := arg.(name); ext_features := arg.(ext_features);
                  en_features := arg.(en_features);
                  en_flags := arg.(en_flags);
                  dis_features := arg.(dis_features);
                  dis_flags := arg.(dis_flags);
                  base := base1 |}
    else Ok (feature_token disable fname arg).

(** The [case] for [','], [';'] and the terminator: [c] is [*p] and [seg]
    the bytes of [[start, p)], so that [*full] is the first byte of [seg],
    or [c] when [seg] is empty.  The result carries [done]. *)
Definition on_delimiter (c : byte) (seg : bytes)
    (res : list TargetData) (arg : TargetData)
  : result (list TargetData * TargetData * bool) :=
  let done := Byte.eqb c Byte.x00 in
  let next_target := is_char c ";" || done in
  if bytes_eqb arg.(name) [] then
    if bytes_eqb seg [] then
      Err (Fatal "Invalid target option: empty CPU name")
    else
      let arg := {| name := arg.(name) ++ seg;
                    ext_features := arg.(ext_features);
                    en_features := arg.(en_features);
                    en_flags := arg.(en_flags);
                    dis_features := arg.(dis_features);
                    dis_flags := arg.(dis_flags);
                    base := arg.(base) |} in
      let '(res, arg) := if next_target then reset_arg res arg
                         else (res, arg) in
      Ok (res, arg, done)
  else
    let full0 := hd c seg in
    let disable := is_char full0 "-" in
    let fname := if is_char full0 "-" || is_char full0 "+"
                 then tl seg else seg in
    do arg <- on_feature disable fname res arg;
    let '(res, arg) := if next_target then reset_arg res arg
                       else (res, arg) in
    Ok (res, arg, done).

(** The [for] loop over [p]: [s] is the string from [p] on (its terminator
    not included), [seg] the bytes of [[start, p)]. *)
Fixpoint parse_loop (s : bytes) (seg : bytes)
    (res : list TargetData) (arg : TargetData) : result (list TargetData) :=
  match s with
  | [] =>
      do '(res, _, _) <- on_delimiter Byte.x00 seg res arg;
      Ok res
  | c :: rest =>
      if is_char c "," || is_char c ";" || Byte.eqb c Byte.x00 then
        do '(res, arg, done) <- on_delimiter c seg res arg;
        if done then Ok res else parse_loop rest [] res arg
      else parse_loop rest (seg ++ [c]) res arg
  end.

(** [parse_cmdline<n>(option, feature_cb)]; [None] is the null pointer. *)
Definition parse_cmdline (option : option bytes) : result (list TargetData) :=
  match option with
  | None => Ok []
  | Some s => parse_loop s [] [] arg_init
  end.

End Parser.

(** *** Vocabulary of the statements *)

(** The digits [ds] read after the value [acc]. *)
Definition decimal_from (acc : Z) (ds : bytes) : Z :=
  fold_left (fun acc c => acc * 10 + digit_value c) ds acc.

(** The number that the decimal digits [ds] write. *)
Definition decimal (ds : bytes) : Z := decimal_from 0 ds.

(** [s] begins with [p]. *)
Definition starts_with (p s : bytes) : bool :=
  bytes_eqb (take (length p) s) p.

(** The text between the prefix [base(] and a final [)]. *)
Definition base_arg (fname : bytes) : option bytes :=
  if starts_with (cstr "base(") fname then
    match rev (drop 5 fname) with
    | c :: r => if is_char c ")" then Some (rev r) else None
    | [] => None
    end
  else None.

(** [fname] is [base(k)] for one decimal digit or more. *)
Definition base_form (fname : bytes) : bool :=
  match base_arg fname with
  | Some ds => negb (bytes_eqb ds []) && forallb is_digit ds
  | None => false
  end.

(** [ext_features] after an unknown token went to it. *)
Definition ext_appended (disable : bool) (fname ext : bytes) : bytes :=
  (if bytes_eqb ext [] then [] else ext ++ cstr ",")
  ++ (if disable then cstr "-" else cstr "+") ++ fname.

(** The bytes at which the loop of [parse_cmdline] ends a token. *)
Definition is_delimiter (c : byte) : bool :=
  is_char c "," || is_char c ";" || Byte.eqb c Byte.x00.

(** A callback that knows no feature. *)
Definition unknown_cb (fname : bytes) (l : FeatureList)
  : bool * FeatureList := (false, l).

End Cmdline.

(** ** The sysimg dispatch loader *)

Module Sysimg.

(** The symbols of the image, each array as the list of its 32-bit words
    from the address of the symbol on.  A word is stored as the value the
    loader reads there: function indices, counts and tags as [uint32_t],
    code and data offsets as [int32_t]. *)
Record image := {
  jl_sysimg_fvars_base : Z;              (* address of the text anchor *)
  jl_sysimg_fvars_offsets : list Z;      (* count, then the offsets *)
  jl_dispatch_reloc_slots : list Z;      (* count, then (index, slot) pairs *)
  jl_dispatch_fvars_idxs : list Z;
  jl_dispatch_fvars_offsets : list Z
}.

(** A [const int32_t *]: null, or a position in one of the two offset
    arrays. *)
Inductive offsets_ptr :=
| Null
| InFvars (pos : Z)
| InClones (pos : Z).

(** [jl_sysimg_fptrs_t], which is declared outside this file: the six
    members of the initialiser in [parse_sysimg], the second of which
    (here [noffsets]) the function leaves at 0.  [clone_idxs] is a
    position in [jl_dispatch_fvars_idxs], [None] the null pointer. *)
Record jl_sysimg_fptrs_t := {
  base : Z;
  noffsets : Z;
  offsets : offsets_ptr;
  nclones : Z;
  clone_offsets : offsets_ptr;
  clone_idxs : option Z
}.

(** The data section: the byte at each offset from
    [jl_sysimg_gvars_base]. *)
Definition data_section := Z -> byte.

(** The size of a pointer: 64 bits (LP64). *)
Definition ptr_size : nat := 8.

(** [*slot = v] for the [const void **slot] at the offset [off]: the
    store of a pointer fills [ptr_size] bytes from [off] on, in host order
    (little-endian). *)
Definition write_slot (data : data_section) (off : Z) (v : Z) : data_section :=
  fun o =>
    if (off <=? o) && (o <? off + Z.of_nat ptr_size)
    then nth (Z.to_nat (o - off)) (le_split ptr_size v) Byte.x00
    else data o.

Definition tag_mask : Z := 0x80000000.
Definition val_mask : Z := not32 tag_mask.

Section Loader.

Variable img : image.

(** [ptr[i]] through a [const int32_t *]. *)
Definition load_offset (ptr : offsets_ptr) (i : Z) : result Z :=
  match ptr with
  | Null => Err OutOfBounds
  | InFvars pos => load img.(jl_sysimg_fvars_offsets) (pos + i)
  | InClones pos => load img.(jl_dispatch_fvars_offsets) (pos + i)
  end.

(** The state of the walk: the two cursors, the current tag word and
    [base_offsets]. *)
Record cursor := {
  cur_idxs : Z;                   (* [clone_idxs] *)
  cur_offsets : Z;                (* [clone_offsets] *)
  cur_tag_len : Z;                (* [tag_len] *)
  cur_bases : list offsets_ptr    (* [base_offsets] *)
}.

(** The loop under [// Find target], at target [i] with [count] targets
    left to skip. *)
Fixpoint find_target (nfunc : Z) (count : nat) (i : Z) (st : cursor)
  : result cursor :=
  match count with
  | O => Ok st
  | S count' =>
      let tag_len := st.(cur_tag_len) in
      let len := Z.land val_mask tag_len in
      let '(clone_offsets, clone_idxs) :=
        if negb (Z.land tag_mask tag_len =? 0) then
          ((if negb (i =? 0) then st.(cur_offsets) + nfunc
            else st.(cur_offsets)),
           st.(cur_idxs) + to_u32 (len + 1))
        else
          (st.(cur_offsets) + len, st.(cur_idxs) + to_u32 (len + 2)) in
      do tag_len <- load img.(jl_dispatch_fvars_idxs) (clone_idxs - 1);
      find_target nfunc count' (i + 1)
        {| cur_idxs := clone_idxs;
           cur_offsets := clone_offsets;
           cur_tag_len := tag_len;
           cur_bases :=
             st.(cur_bases) ++
               [if negb (Z.land tag_len tag_mask =? 0)
                then InClones clone_offsets else Null] |}
  end.

(** The inner [for] over [reloc_i], with [count] entries left; it returns
    [reloc_i], [found] and the data section. *)
Fixpoint scan_slots (count : nat) (idx target : Z) (reloc_i : Z)
    (found : bool) (data : data_section)
  : result (Z * bool * data_section) :=
  match count with
  | O => Ok (reloc_i, found, data)
  | S count' =>
      do reloc_idx <-
        load img.(jl_dispatch_reloc_slots) (1 + to_u32 (reloc_i * 2));
      if reloc_idx =? idx then
        do slot <-
          load img.(jl_dispatch_reloc_slots) (1 + to_u32 (reloc_i * 2 + 1));
        scan_slots count' idx target (reloc_i + 1) true
          (write_slot data slot target)
      else if reloc_idx >? idx then Ok (reloc_i, found, data)
      else scan_slots count' idx target (reloc_i + 1) found data
  end.

(** What the relocation loop does with entry [i] of the index list: the
    function index and the code offset it relocates, or [None] when it
    skips the entry. *)
Definition override (clone_all : bool) (res : jl_sysimg_fptrs_t)
    (clone_idxs : Z) (clone_offsets : offsets_ptr) (i : Z)
  : result (option (Z * Z)) :=
  do idx <- load img.(jl_dispatch_fvars_idxs) (clone_idxs + i);
  if clone_all then
    do offset <- load_offset res.(offsets) idx;
    Ok (Some (idx, offset))
  else if negb (Z.land idx tag_mask =? 0) then
    do offset <- load_offset clone_offsets i;
    Ok (Some (Z.land idx val_mask, offset))
  else Ok None.

(** The loop under [// Do relocation], at override [i] with [count]
    overrides left. *)
Fixpoint relocate (nreloc : Z) (clone_all : bool) (res : jl_sysimg_fptrs_t)
    (clone_idxs : Z) (clone_offsets : offsets_ptr)
    (count : nat) (i : Z) (reloc_i : Z) (data : data_section)
  : result data_section :=
  match count with
  | O => Ok data
  | S count' =>
      do picked <- override clone_all res clone_idxs clone_offsets i;
      match picked with
      | None =>
          relocate nreloc clone_all res clone_idxs clone_offsets
            count' (i + 1) reloc_i data
      | Some (idx, offset) =>
          do '(reloc_i, found, data) <-
            scan_slots (Z.to_nat (nreloc - reloc_i)) idx
              (offset + res.(base)) reloc_i false data;
          if negb found then Err AssertFailed
          else
            relocate nreloc clone_all res clone_idxs clone_offsets
              count' (i + 1) reloc_i data
      end
  end.

(** The first part of [parse_sysimg], up to the end of the loop under
    [// Find target]: the cursors at target [target_idx]. *)
Definition walk_to_target (target_idx : Z) : result cursor :=
  do nfunc <- load img.(jl_sysimg_fvars_offsets) 0;
  do tag_len <- load img.(jl_dispatch_fvars_idxs) 0;
  if Z.land tag_len tag_mask =? 0 then Err AssertFailed
  else
    find_target nfunc (Z.to_nat target_idx) 0
      {| cur_idxs := 1; cur_offsets := 0; cur_tag_len := tag_len;
         cur_bases := [InFvars 1] |}.

(** The part under [// Fill in return value]: the result and the
    position of the index list of the target. *)
Definition fill_result (target_idx : Z) (st : cursor)
  : result (jl_sysimg_fptrs_t * Z) :=
  let res_base := img.(jl_sysimg_fvars_base) in
  let tag_len := st.(cur_tag_len) in
  let clone_all := negb (Z.land tag_len tag_mask =? 0) in
  if clone_all then
    Ok ({| base := res_base; noffsets := 0;
           offsets := if negb (target_idx =? 0)
                      then InClones st.(cur_offsets) else InFvars 1;
           nclones := 0; clone_offsets := Null; clone_idxs := None |},
        st.(cur_idxs))
  else
    do base_idx <- load img.(jl_dispatch_fvars_idxs) st.(cur_idxs);
    if negb (base_idx <? target_idx) then Err AssertFailed
    else
      do res_offsets <-
        (if negb (target_idx =? 0) then
           do p <- load st.(cur_bases) base_idx;
           match p with
           | Null => Err AssertFailed
           | _ => Ok p
           end
         else Ok (InFvars 1));
      Ok ({| base := res_base; noffsets := 0;
             offsets := res_offsets;
             nclones := tag_len;
             clone_offsets := InClones st.(cur_offsets);
             clone_idxs := Some (st.(cur_idxs) + 1) |},
          st.(cur_idxs) + 1).

(** [parse_sysimg(hdl, callback)]: [target_idx] is what [callback]
    returns, [data] the data section before the call.  The asserts are
    checked. *)
Definition parse_sysimg (target_idx : Z) (data : data_section)
  : result (jl_sysimg_fptrs_t * data_section) :=
  do nreloc <- load img.(jl_dispatch_reloc_slots) 0;
  do st <- walk_to_target target_idx;
  let tag_len := st.(cur_tag_len) in
  let clone_all := negb (Z.land tag_len tag_mask =? 0) in
  do '(res, clone_idxs) <- fill_result target_idx st;
  let len := Z.land val_mask tag_len in
  do data <- relocate nreloc clone_all res clone_idxs
               (InClones st.(cur_offsets)) (Z.to_nat len) 0 0 data;
  Ok (res, data).

End Loader.

(** *** Vocabulary of the statements *)

(** The reloc-slot table: pairs of a function index and the offset of its
    slot from [jl_sysimg_gvars_base]. *)
Abbreviation reloc_table := (list (Z * Z)) (only parsing).

Definition pair_words (e : Z * Z) : list Z := [e.1; e.2].

(** The words of [jl_dispatch_reloc_slots] for a table. *)
Definition reloc_words (tbl : reloc_table) : list Z :=
  Z.of_nat (length tbl) :: flat_map pair_words tbl.

Definition index_le (e1 e2 : Z * Z) : Prop := e1.1 <= e2.1.

(** Entries with the same slot are entries of one function. *)
Definition slots_distinct (tbl : reloc_table) : Prop :=
  forall e1 e2, In e1 tbl -> In e2 tbl -> e1.2 = e2.2 -> e1.1 = e2.1.

(** The pointer read from the [ptr_size] bytes at the offset [off]. *)
Definition read_slot (data : data_section) (off : Z) : Z :=
  le_combine (map (fun k => data (off + Z.of_nat k)) (seq 0 ptr_size)).

(** An address as a pointer holds it. *)
Definition to_ptr (z : Z) : Z := z mod 2 ^ 64.

(** Two slots that are the same or do not overlap. *)
Definition apart (s1 s2 : Z) : Prop :=
  s1 = s2 \/ Z.of_nat ptr_size <= Z.abs (s1 - s2).

(** The slots of the table do not overlap one another. *)
Definition slots_apart (tbl : reloc_table) : Prop :=
  forall e1 e2, In e1 tbl -> In e2 tbl -> apart e1.2 e2.2.

(** The inner loop of the relocation pass on the entries from [reloc_i]
    on: the entries it leaves, [found] and the data section. *)
Fixpoint scan_table (idx target : Z) (l : reloc_table) (found : bool)
    (data : data_section) : reloc_table * bool * data_section :=
  match l with
  | [] => ([], found, data)
  | e :: l' =>
      if e.1 =? idx then
        scan_table idx target l' true (write_slot data e.2 target)
      else if e.1 >? idx then (l, found, data)
      else scan_table idx target l' found data
  end.

(** Every entry before position [r] has a smaller index than every entry
    from [r] on. *)
Definition separated (tbl : reloc_table) (r : nat) : Prop :=
  forall e1 e2, In e1 (take r tbl) -> In e2 (drop r tbl) -> e1.1 < e2.1.

(** What the image holds for one target, as the walk of [parse_sysimg]
    reads it.  A [clone_all] target has the list of the function indices
    that have a slot, and a table of a code offset for every function; a
    sparse target has the index of its base target, a list of function
    indices, tagged where the target has a clone of its own, and one code
    offset for each entry of the list. *)
Inductive target_list :=
| CloneAll (idxs : list Z) (offsets : list Z)
| Sparse (base_idx : Z) (idxs : list Z) (offsets : list Z).

Definition list_idxs (t : target_list) : list Z :=
  match t with CloneAll idxs _ | Sparse _ idxs _ => idxs end.

Definition list_offsets (t : target_list) : list Z :=
  match t with CloneAll _ offsets | Sparse _ _ offsets => offsets end.

(** The tag word of a target: the length of its list, with the high bit
    for [clone_all]. *)
Definition tag_word (t : target_list) : Z :=
  match t with
  | CloneAll idxs _ => Z.lor tag_mask (Z.of_nat (length idxs))
  | Sparse _ idxs _ => Z.of_nat (length idxs)
  end.

(** The words of a target in [jl_dispatch_fvars_idxs]. *)
Definition idx_words (t : target_list) : list Z :=
  match t with
  | CloneAll idxs _ => tag_word t :: idxs
  | Sparse base_idx idxs _ => tag_word t :: base_idx :: idxs
  end.

(** The position in [jl_dispatch_fvars_idxs] of the word behind the tag
    word of target [k], and the position in [jl_dispatch_fvars_offsets]
    of the offsets of target [k]. *)
Definition idxs_pos (targets : list target_list) (k : nat) : Z :=
  1 + Z.of_nat (length (flat_map idx_words (take k targets))).

Definition offs_pos (targets : list target_list) (k : nat) : Z :=
  Z.of_nat (length (flat_map list_offsets (take k targets))).

(** The table of code offsets of target [k] for all functions: the
    default table for target 0, its own table for another [clone_all]
    target, none for a sparse target. *)
Definition table_of (targets : list target_list) (k : nat) : offsets_ptr :=
  match k with
  | O => InFvars 1
  | S _ =>
      match targets !! k with
      | Some (CloneAll _ _) => InClones (offs_pos targets k)
      | _ => Null
      end
  end.

(** The size of the offsets of target [k]: target 0 has none of its own,
    another [clone_all] target one for each of the [nfunc] functions, a
    sparse target one for each entry of its list. *)
Definition offsets_fit (nfunc : Z) (k : nat) (t : target_list) : Prop :=
  match k, t with
  | O, CloneAll _ offsets => offsets = []
  | O, Sparse _ _ _ => False
  | S _, CloneAll _ offsets => Z.of_nat (length offsets) = nfunc
  | S _, Sparse _ idxs offsets => length offsets = length idxs
  end.

(** The image holds the targets [targets], one after the other, for
    [nfunc] functions. *)
Definition laid_out (img : image) (nfunc : Z) (targets : list target_list)
  : Prop :=
  img.(jl_sysimg_fvars_offsets) !! 0%nat = Some nfunc /\
  is_u32 nfunc /\
  img.(jl_dispatch_fvars_idxs) = flat_map idx_words targets /\
  img.(jl_dispatch_fvars_offsets) = flat_map list_offsets targets /\
  (forall k t, targets !! k = Some t ->
     Z.of_nat (length (list_idxs t)) < 2 ^ 31 /\ offsets_fit nfunc k t).

(** The state of the walk of [parse_sysimg] when it has reached target
    [k]. *)
Definition cursor_at (targets : list target_list) (k : nat) : cursor :=
  {| cur_idxs := idxs_pos targets k;
     cur_offsets := offs_pos targets k;
     cur_tag_len := match targets !! k with
                    | Some t => tag_word t
                    | None => 0
                    end;
     cur_bases := map (table_of targets) (seq 0 (S k)) |}.

(** An image of eight functions with three targets and slots for the
    functions 3, 5 and 7: target 0 is the default; target 1 is
    [clone_all] with a table of its own; target 2 is sparse, based on
    target 1, with clones of its own for the functions 3 and 7 and none
    for function 4. *)
Definition sample_table : reloc_table := [(3, 16); (5, 24); (7, 32)].

Definition sample_lists : list target_list :=
  [ CloneAll [3; 5; 7] [];
    CloneAll [3; 5; 7] [200; 201; 202; 203; 204; 205; 206; 207];
    Sparse 1 [0x80000003; 4; 0x80000007] [303; 304; 307] ].

Definition sample_image : image :=
  {| jl_sysimg_fvars_base := 1000000;
     jl_sysimg_fvars_offsets := [8; 100; 101; 102; 103; 104; 105; 106; 107];
     jl_dispatch_reloc_slots := reloc_words sample_table;
     jl_dispatch_fvars_idxs :=
       [0x80000003; 3; 5; 7; 0x80000003; 3; 5; 7;
        3; 1; 0x80000003; 4; 0x80000007];
     jl_dispatch_fvars_offsets :=
       [200; 201; 202; 203; 204; 205; 206; 207; 303; 304; 307] |}.

Definition sample_data : data_section := fun _ => Byte.x00.

Definition sample_result : jl_sysimg_fptrs_t :=
  {| base := 1000000; noffsets := 0; offsets := InClones 0; nclones := 3;
     clone_offsets := InClones 8; clone_idxs := Some 10 |}.

Definition sample_relocated : data_section :=
  write_slot (write_slot sample_data 16 1000303) 32 1000307.

(** What [parse_sysimg] returns and leaves in the data section for
    target 1 of the sample image. *)
Definition sample_result_all : jl_sysimg_fptrs_t :=
  {| base := 1000000; noffsets := 0; offsets := InClones 0; nclones := 0;
     clone_offsets := Null; clone_idxs := None |}.

Definition sample_relocated_all : data_section :=
  write_slot (write_slot (write_slot sample_data 16 1000203) 24 1000205)
    32 1000207.

(** The sample image with the slot of function 5 four bytes behind the
    slot of function 3: the two pointers overlap. *)
Definition overlapping_table : reloc_table := [(3, 16); (5, 20); (7, 32)].

Definition overlapping_image : image :=
  {| jl_sysimg_fvars_base := sample_image.(jl_sysimg_fvars_base);
     jl_sysimg_fvars_offsets := sample_image.(jl_sysimg_fvars_offsets);
     jl_dispatch_reloc_slots := reloc_words overlapping_table;
     jl_dispatch_fvars_idxs := sample_image.(jl_dispatch_fvars_idxs);
     jl_dispatch_fvars_offsets := sample_image.(jl_dispatch_fvars_offsets) |}.

End Sysimg.

(** ** Further functions of the file *)

(** The rest of the bitset helpers: the count of set bits and the
    intersection in place. *)
Module Bitsets.
Import Features.

(** [__builtin_popcount]: the number of bits set in a [uint32_t]. *)
Definition builtin_popcount (v : Z) : Z :=
  Z.of_nat (length (List.filter (Z.testbit v) (map Z.of_nat (seq 0 32)))).

(** The branch of [nbits] for compilers without the builtin: the three
    lines that reduce [v], in [uint32_t] arithmetic. *)
Definition swar_popcount (v : Z) : Z :=
  let v := to_u32 (v - Z.land (Z.shiftr v 1) 0x55555555) in
  let v := to_u32 (Z.land v 0x33333333 + Z.land (Z.shiftr v 2) 0x33333333) in
  Z.shiftr (to_u32 (Z.land (to_u32 (v + Z.shiftr v 4)) 0xF0F0F0F * 0x1010101)) 24.

(** [FeatureList::nbits], the loop with the [int] counter [cnt];
    [popcount] is the count of one word, by either branch. *)
Fixpoint nbits_loop (popcount : Z -> Z) (eles : FeatureList) (cnt : Z) : Z :=
  match eles with
  | [] => cnt
  | w :: rest => nbits_loop popcount rest (to_int (cnt + popcount w))
  end.

Definition nbits (popcount : Z -> Z) (eles : FeatureList) : Z :=
  nbits_loop popcount eles 0.

(** [mask_features(masks, features)]: [features] is a pointer to the
    words it changes, [masks] a [FeatureList<n>]. *)
Fixpoint mask_features_loop (masks : FeatureList) (i : Z)
    (features : list Z) : result (list Z) :=
  match masks with
  | [] => Ok features
  | m :: rest =>
      do w <- load features i;
      do features' <- store features i (Z.land w m);
      mask_features_loop rest (i + 1) features'
  end.

Definition mask_features (masks : FeatureList) (features : list Z)
  : result (list Z) :=
  mask_features_loop masks 0 features.

(** [test_bits(v, mask, test)] at [uint32_t]: [T3(v & mask) == test]. *)
Definition test_bits3 (v mask test : Z) : bool :=
  to_u32 (Z.land v mask) =? test.

(** [test_bits(v, mask)]. *)
Definition test_bits (v mask : Z) : bool := test_bits3 v mask mask.

(** *** Vocabulary of the statements *)

(** The argument [a] of the pack names bit [k] of word [I]. *)
Definition names_bit (I k a : Z) : bool :=
  (0 <=? to_int a) && (Z.quot (to_int a) 32 =? to_int I)
  && (Z.rem (to_int a) 32 =? k).

(** A set in which every feature of an edge comes with its
    dependency. *)
Definition closed (deps : list FeatureDep) (s : FeatureList) : Prop :=
  forall d, In d deps ->
    bit_at s d.(feature) = true -> bit_at s d.(dep) = true.

(** Inclusion of the bits of [a] in those of [b]. *)
Definition subset (a b : FeatureList) : Prop :=
  forall k, 0 <= k -> bit_at a k = true -> bit_at b k = true.

(** Four bytes and the word they make. *)
Abbreviation word4 b0 b1 b2 b3 :=
  (b0 + 2 ^ 8 * (b1 + 2 ^ 8 * (b2 + 2 ^ 8 * b3))).
Abbreviation is_byte b := (0 <= b < 2 ^ 8).

(** The first two lines of the count without the builtin, on one byte. *)
Abbreviation pairs b := (b - Z.land (b / 2) 0x55).
Abbreviation quads c := (Z.land c 0x33 + Z.land (c / 4) 0x33).

(** The count of the bits [s .. s + n - 1] of [v]. *)
Abbreviation bits_in v s n :=
  (length (List.filter (fun k => Z.testbit v (Z.of_nat k)) (seq s n))).

(** The sum of the counts of the words. *)
Abbreviation popcounts pop eles := (fold_right Z.add 0 (map pop eles)).

End Bitsets.

(** The lookups in the tables of CPUs and features. *)
Module Registry.
Import Features Target.

(** [FeatureName]; [name] is the text of the C string. *)
Record FeatureName := {
  fname_name : bytes;
  fname_bit : Z;
  fname_llvmver : Z
}.

(** [CPUSpec<CPU, n>]; [name] is the text of the C string, [cpu] and
    [fallback] the values of the enumeration. *)
Record CPUSpec := {
  spec_name : bytes;
  spec_cpu : Z;
  spec_fallback : Z;
  spec_llvmver : Z;
  spec_features : FeatureList
}.

(** [strcmp] on the memory behind its two pointers. *)
Fixpoint strcmp (a b : bytes) : result Z :=
  match a, b with
  | x :: a', y :: b' =>
      if negb (Byte.eqb x y) then Ok (byte.unsigned x - byte.unsigned y)
      else if Byte.eqb x Byte.x00 then Ok 0
      else strcmp a' b'
  | _, _ => Err OutOfBounds
  end.

(** [strncmp(a, b, len)]. *)
Fixpoint strncmp (a b : bytes) (len : nat) : result Z :=
  match len with
  | O => Ok 0
  | S len' =>
      match a, b with
      | x :: a', y :: b' =>
          if negb (Byte.eqb x y) then Ok (byte.unsigned x - byte.unsigned y)
          else if Byte.eqb x Byte.x00 then Ok 0
          else strncmp a' b' len'
      | _, _ => Err OutOfBounds
      end
  end.

(** The loop of [find_cpu(uint32_t cpu, cpus, ncpus)] from entry [i] on,
    with [count] entries left; [None] is the null pointer. *)
Fixpoint find_cpu_loop (cpu : Z) (cpus : list CPUSpec) (count : nat) (i : Z)
  : result (option CPUSpec) :=
  match count with
  | O => Ok None
  | S count' =>
      do spec <- load cpus i;
      if cpu =? to_u32 spec.(spec_cpu) then Ok (Some spec)
      else find_cpu_loop cpu cpus count' (i + 1)
  end.

Definition find_cpu (cpu : Z) (cpus : list CPUSpec) (ncpus : Z)
  : result (option CPUSpec) :=
  find_cpu_loop cpu cpus (Z.to_nat ncpus) 0.

(** The loop of [find_cpu(const char *name, cpus, ncpus)]; [name] is the
    memory behind the pointer. *)
Fixpoint find_cpu_by_name_loop (name : bytes) (cpus : list CPUSpec)
    (count : nat) (i : Z) : result (option CPUSpec) :=
  match count with
  | O => Ok None
  | S count' =>
      do spec <- load cpus i;
      do cmp <- strcmp name (c_str spec.(spec_name));
      if cmp =? 0 then Ok (Some spec)
      else find_cpu_by_name_loop name cpus count' (i + 1)
  end.

Definition find_cpu_by_name (name : bytes) (cpus : list CPUSpec) (ncpus : Z)
  : result (option CPUSpec) :=
  find_cpu_by_name_loop name cpus (Z.to_nat ncpus) 0.

Definition find_cpu_name (cpu : Z) (cpus : list CPUSpec) (ncpus : Z)
  : result bytes :=
  do found <- find_cpu cpu cpus ncpus;
  match found with
  | Some spec => Ok spec.(spec_name)
  | None => Ok (cstr "generic")
  end.

(** [find_cpu_id(name, cpus, ncpus, def)]; the result is a value of the
    enumeration [CPU]. *)
Definition find_cpu_id (name : bytes) (cpus : list CPUSpec) (ncpus : Z)
    (def : Z) : result Z :=
  do found <- find_cpu_by_name name cpus ncpus;
  match found with
  | Some spec => Ok spec.(spec_cpu)
  | None => Ok def
  end.

(** The loop of [find_feature_bit(features, nfeatures, str, len)]; [str]
    is the memory behind the pointer. *)
Fixpoint find_feature_bit_loop (features : list FeatureName) (count : nat)
    (i : Z) (str : bytes) (len : Z) : result Z :=
  match count with
  | O => Ok (to_u32 (-1))
  | S count' =>
      do feature <- load features i;
      do cmp <- strncmp (c_str feature.(fname_name)) str (Z.to_nat len);
      do hit <-
        (if cmp =? 0 then
           do c <- load (c_str feature.(fname_name)) len;
           Ok (Byte.eqb c Byte.x00)
         else Ok false);
      if hit then Ok feature.(fname_bit)
      else find_feature_bit_loop features count' (i + 1) str len
  end.

Definition find_feature_bit (features : list FeatureName) (nfeatures : Z)
    (str : bytes) (len : Z) : result Z :=
  find_feature_bit_loop features (Z.to_nat nfeatures) 0 str len.

(** *** Vocabulary of the statements *)

(** The first entry of a table that [p] holds of. *)
Fixpoint first_match {A} (p : A -> bool) (l : list A) : option A :=
  match l with
  | [] => None
  | x :: rest => if p x then Some x else first_match p rest
  end.

(** [x] is the first entry of [l] that [p] holds of. *)
Definition first_with {A} (p : A -> bool) (l : list A) (x : A) : Prop :=
  exists i, l !! i = Some x /\ p x = true /\
    forall j y, (j < i)%nat -> l !! j = Some y -> p y = false.

(** The tests of the three lookups. *)
Definition has_id (cpu : Z) (s : CPUSpec) : bool :=
  cpu =? to_u32 s.(spec_cpu).

Definition has_name (nm : bytes) (s : CPUSpec) : bool :=
  Cmdline.bytes_eqb nm s.(spec_name).

Definition named (nm : bytes) (f : FeatureName) : bool :=
  Cmdline.bytes_eqb f.(fname_name) nm.

Definition sample_features : list FeatureName :=
  [ {| fname_name := cstr "sse3"; fname_bit := 0; fname_llvmver := 0 |};
    {| fname_name := cstr "sse"; fname_bit := 7; fname_llvmver := 0 |};
    {| fname_name := cstr "avx2"; fname_bit := 37; fname_llvmver := 0 |} ].

Definition sample_cpus : list CPUSpec :=
  [ {| spec_name := cstr "generic"; spec_cpu := 0; spec_fallback := 0;
       spec_llvmver := 0; spec_features := [0; 0] |};
    {| spec_name := cstr "haswell"; spec_cpu := 12; spec_fallback := 0;
       spec_llvmver := 0; spec_features := [0x81; 0x20] |} ].

End Registry.

(** The lists of feature strings handed to code generation. *)
Module FeatureStrings.
Import Target Cmdline.

(** [join_feature_strs]. *)
Definition join_feature_strs (strs : list bytes) : bytes :=
  match strs with
  | [] => []
  | str0 :: rest => fold_left (fun str s => str ++ cstr "," ++ s) rest str0
  end.

(** [append_ext_features(std::string &features, ext_features)]. *)
Definition append_ext_features (features ext_features : bytes) : bytes :=
  if bytes_eqb ext_features [] then features
  else
    (if negb (bytes_eqb features []) then features ++ cstr "," else features)
    ++ ext_features.

(** The loop of [append_ext_features(std::vector<std::string> &features,
    ext_features)] over [p]: [s] is the string from [p] on, [seg] the bytes
    of [[start, p)].  The loop ends at the first zero byte, so the test
    [*p == '\0'] in its body never holds. *)
Fixpoint append_segments (s seg : bytes) (features : list bytes)
  : list bytes :=
  match s with
  | [] => features
  | c :: rest =>
      if Byte.eqb c Byte.x00 then features
      else if is_char c "," || Byte.eqb c Byte.x00
      then append_segments rest [] (features ++ [seg])
      else append_segments rest (seg ++ [c]) features
  end.

Definition append_ext_features_vec (features : list bytes)
    (ext_features : bytes) : list bytes :=
  if bytes_eqb ext_features [] then features
  else append_segments ext_features [] features.

(** *** Vocabulary of the statements *)

(** A string without [','] and without a zero byte. *)
Definition plain (s : bytes) : Prop :=
  Forall (fun c => is_char c "," = false /\ c <> Byte.x00) s.

End FeatureStrings.

(** The vocabulary for lists of targets. *)
Module Targets.
Import Features Target Cmdline.

(** The flags of a target as the parser leaves them: [clone_all] is
    enabled, disabled or neither. *)
Definition flags_ok (clone_all : Z) (T : TargetData) : Prop :=
  (T.(en_flags) = 0 /\ T.(dis_flags) = 0) \/
  (T.(en_flags) = clone_all /\ T.(dis_flags) = 0) \/
  (T.(en_flags) = 0 /\ T.(dis_flags) = clone_all).

(** The test the parser makes of a base target. *)
Definition is_clone_all (clone_all : Z) (T : TargetData) : Prop :=
  Z.land T.(dis_flags) clone_all = 0 /\ Z.land T.(en_flags) clone_all <> 0.

(** [b] is the default, or the index of a [clone_all] target among the
    first [limit] of [res]. *)
Definition base_ok (clone_all : Z) (res : list TargetData) (limit : nat)
    (b : Z) : Prop :=
  b = 0 \/
  (0 <= b < Z.of_nat limit /\
   exists t, res !! Z.to_nat b = Some t /\ is_clone_all clone_all t).

(** The number of [';'] in a string. *)
Definition semicolons (s : bytes) : nat :=
  length (List.filter (fun c => is_char c ";") s).

(** A target with a name and nothing else, on the base [b]. *)
Definition bare_target (n : nat) (nm : bytes) (b : Z) : TargetData :=
  {| name := nm; ext_features := [];
     en_features := replicate n 0; en_flags := 0;
     dis_features := replicate n 0; dis_flags := 0;
     base := b |}.


(** An option with four targets, the last two on the base 1, and the
    targets it parses to when the callback knows no feature. *)
Definition sample_option : bytes :=
  cstr "generic,clone_all;haswell,clone_all,-x;atom,base(1);core2".

Definition sample_targets : list TargetData :=
  [ {| name := cstr "generic"; ext_features := [];
       en_features := [0]; en_flags := 1;
       dis_features := [0]; dis_flags := 0; base := 0 |};
    {| name := cstr "haswell"; ext_features := cstr "-x";
       en_features := [0]; en_flags := 1;
       dis_features := [0]; dis_flags := 0; base := 0 |};
    {| name := cstr "atom"; ext_features := [];
       en_features := [0]; en_flags := 0;
       dis_features := [0]; dis_flags := 0; base := 1 |};
    {| name := cstr "core2"; ext_features := [];
       en_features := [0]; en_flags := 0;
       dis_features := [0]; dis_flags := 0; base := 1 |} ].

(** An image whose list of indices begins with a word without the tag
    bit. *)
Definition untagged_image : Sysimg.image :=
  {| Sysimg.jl_sysimg_fvars_base := 1000000;
     Sysimg.jl_sysimg_fvars_offsets := [1; 100];
     Sysimg.jl_dispatch_reloc_slots := [0];
     Sysimg.jl_dispatch_fvars_idxs := [1; 0];
     Sysimg.jl_dispatch_fvars_offsets := [] |}.

End Targets.

(** * Properties *)

Import Features Target Cmdline Sysimg.

(** ** Machine integers and arrays *)

Lemma to_u32_id z : is_u32 z -> to_u32 z = z.
Proof. unfold is_u32, to_u32. intros. apply Z.mod_small. lia. Qed.

Lemma to_u32_range z : is_u32 (to_u32 z).
Proof. unfold is_u32, to_u32. apply Z.mod_pos_bound. lia. Qed.

(** ** Bits of a feature list *)

Lemma bit_mask_pow2 b : 0 <= b < 32 -> bit_mask b = 2 ^ b.
Proof.
  intros Hb. unfold bit_mask, to_u32. rewrite Z.shiftl_1_l.
  apply Z.mod_small. split; [lia|]. apply Z.pow_lt_mono_r; lia.
Qed.

Lemma testbit_bit_mask b i : 0 <= b < 32 -> 0 <= i ->
  Z.testbit (bit_mask b) i = (i =? b).
Proof.
  intros Hb Hi. rewrite bit_mask_pow2 by lia.
  rewrite Z.pow2_bits_eqb by lia. apply Z.eqb_sym.
Qed.

Lemma testbit_not32 w i : 0 <= i ->
  Z.testbit (not32 w) i = (i <? 32) && negb (Z.testbit w i).
Proof.
  intros Hi. unfold not32, to_u32.
  rewrite Z.testbit_mod_pow2 by lia. rewrite Z.lnot_spec by lia. reflexivity.
Qed.

Lemma land_bit_mask_test w b : 0 <= b < 32 ->
  negb (Z.land w (bit_mask b) =? 0) = Z.testbit w b.
Proof.
  intros Hb. rewrite bit_mask_pow2 by lia.
  destruct (Z.testbit w b) eqn:E.
  - apply negb_true_iff, Z.eqb_neq. intros H0.
    assert (Z.testbit (Z.land w (2 ^ b)) b = false) by (rewrite H0; apply Z.bits_0).
    rewrite Z.land_spec, Z.pow2_bits_true, E in H by lia. discriminate.
  - apply negb_false_iff, Z.eqb_eq. apply Z.bits_inj'. intros i Hi.
    rewrite Z.land_spec, Z.bits_0, Z.pow2_bits_eqb by lia.
    destruct (Z.eqb_spec b i); subst; rewrite ?E; auto using andb_false_r.
Qed.

Lemma is_u32_bits z :
  is_u32 z <-> (forall i, 32 <= i -> Z.testbit z i = false).
Proof.
  split.
  - intros Hz i Hi. rewrite <- (to_u32_id z Hz). unfold to_u32.
    rewrite Z.testbit_mod_pow2 by lia.
    destruct (Z.ltb_spec i 32); [lia|reflexivity].
  - intros Hb. rewrite <- (Z.mod_small z (2 ^ 32)).
    + apply to_u32_range.
    + change (0 <= z < 2 ^ 32) with (is_u32 z).
      replace z with (to_u32 z) at 1; [apply to_u32_range|].
      unfold to_u32. apply Z.bits_inj'. intros i Hi.
      rewrite Z.testbit_mod_pow2 by lia.
      destruct (Z.ltb_spec i 32); [reflexivity|]. cbn. symmetry. apply Hb. lia.
Qed.

Lemma load_some {A} (arr : list A) i x :
  0 <= i -> arr !! Z.to_nat i = Some x -> load arr i = Ok x.
Proof.
  intros Hi E. unfold load. destruct (Z.ltb_spec i 0); [lia|]. now rewrite E.
Qed.

Lemma store_some {A} (arr : list A) i x :
  0 <= i -> (Z.to_nat i < length arr)%nat ->
  store arr i x = Ok (<[Z.to_nat i := x]> arr).
Proof.
  intros Hi Hl. unfold store. destruct (Z.ltb_spec i 0); [lia|].
  destruct (Nat.ltb_spec (Z.to_nat i) (length arr)); [reflexivity|lia].
Qed.

Lemma in_range_lookup (bits : list Z) i :
  bit_ok (length bits) i -> exists w, bits !! Z.to_nat (i / 32) = Some w.
Proof.
  intros [Hu Hl]. apply lookup_lt_is_Some_2.
  unfold is_u32 in Hu. assert (0 <= i / 32) by (apply Z.div_pos; lia). lia.
Qed.

Lemma test_nbit_in_range (bits : list Z) i :
  bit_ok (length bits) i -> test_nbit bits i = Ok (bit_at bits i).
Proof.
  intros Hr. destruct (in_range_lookup _ _ Hr) as [w Hw].
  destruct Hr as [Hu Hl]. unfold test_nbit, bit_at.
  rewrite (to_u32_id _ Hu), Hw.
  rewrite (load_some _ _ w); [|apply Z.div_pos; unfold is_u32 in Hu; lia|done].
  cbn. f_equal. apply land_bit_mask_test. apply Z.mod_pos_bound. lia.
Qed.

Lemma divmod32_eq i j : i / 32 = j / 32 -> i mod 32 = j mod 32 -> i = j.
Proof.
  intros Hd Hm. rewrite (Z.div_mod i 32), (Z.div_mod j 32) by lia. lia.
Qed.

Lemma bit_at_insert (bits : list Z) (q : nat) (w : Z) k :
  0 <= k -> (q < length bits)%nat ->
  bit_at (<[q := w]> bits) k =
    if Nat.eqb (Z.to_nat (k / 32)) q then Z.testbit w (k mod 32) else bit_at bits k.
Proof.
  intros Hk Hq. unfold bit_at.
  destruct (Nat.eqb_spec (Z.to_nat (k / 32)) q) as [->|Hne].
  - now rewrite list_lookup_insert_eq.
  - now rewrite list_lookup_insert_ne.
Qed.

Lemma set_bit_in_range (bits : list Z) i :
  bit_ok (length bits) i ->
  exists bits', set_bit bits i true = Ok bits' /\
    length bits' = length bits /\
    (forall k, 0 <= k -> bit_at bits' k = (k =? i) || bit_at bits k) /\
    (Forall is_u32 bits -> Forall is_u32 bits').
Proof.
  intros Hr. destruct (in_range_lookup _ _ Hr) as [w Hw].
  destruct Hr as [Hu Hl]. pose proof Hu as Hu'. unfold is_u32 in Hu'.
  assert (Hq : 0 <= i / 32) by (apply Z.div_pos; lia).
  assert (Hm : 0 <= i mod 32 < 32) by (apply Z.mod_pos_bound; lia).
  exists (<[Z.to_nat (i / 32) := Z.lor w (bit_mask (i mod 32))]> bits).
  unfold set_bit. rewrite (to_u32_id _ Hu), (load_some _ _ w) by done. cbn.
  rewrite store_some by lia. repeat split.
  - apply length_insert.
  - intros k Hk. rewrite bit_at_insert by lia.
    assert (0 <= k / 32) by (apply Z.div_pos; lia).
    assert (0 <= k mod 32 < 32) by (apply Z.mod_pos_bound; lia).
    destruct (Nat.eqb_spec (Z.to_nat (k / 32)) (Z.to_nat (i / 32))) as [E|E].
    + rewrite Z.lor_spec, testbit_bit_mask by lia.
      unfold bit_at. assert (k / 32 = i / 32) as Eq by lia. rewrite Eq, Hw.
      rewrite orb_comm. f_equal.
      destruct (Z.eqb_spec (k mod 32) (i mod 32)) as [Em|Em];
        destruct (Z.eqb_spec k i) as [Ek|Ek]; auto.
      * exfalso. apply Ek. now apply divmod32_eq.
      * subst. contradiction.
    + destruct (Z.eqb_spec k i) as [Ek|Ek]; [subst; contradiction|reflexivity].
  - intros Hall. apply Forall_insert; [done|].
    assert (is_u32 w) as Hwu.
    { rewrite Forall_forall in Hall. eapply Hall, list_elem_of_lookup_2, Hw. }
    apply is_u32_bits. intros k Hk. rewrite Z.lor_spec, testbit_bit_mask by lia.
    rewrite (proj1 (is_u32_bits w) Hwu) by lia.
    destruct (Z.eqb_spec k (i mod 32)); [lia|reflexivity].
Qed.

Lemma unset_bits_in_range (bits : list Z) i :
  bit_ok (length bits) i ->
  exists bits', unset_bits bits [i] = Ok bits' /\
    length bits' = length bits /\
    (forall k, 0 <= k -> bit_at bits' k = (negb (k =? i) && bit_at bits k)) /\
    (Forall is_u32 bits -> Forall is_u32 bits').
Proof.
  intros Hr. destruct (in_range_lookup _ _ Hr) as [w Hw].
  destruct Hr as [Hu Hl]. pose proof Hu as Hu'. unfold is_u32 in Hu'.
  assert (Hq : 0 <= i / 32) by (apply Z.div_pos; lia).
  assert (Hm : 0 <= i mod 32 < 32) by (apply Z.mod_pos_bound; lia).
  exists (<[Z.to_nat (i / 32) := Z.land w (not32 (bit_mask (i mod 32)))]> bits).
  unfold unset_bits. rewrite (to_u32_id _ Hu), (load_some _ _ w) by done. cbn.
  rewrite store_some by lia. cbn. repeat split.
  - apply length_insert.
  - intros k Hk. rewrite bit_at_insert by lia.
    assert (0 <= k / 32) by (apply Z.div_pos; lia).
    assert (0 <= k mod 32 < 32) by (apply Z.mod_pos_bound; lia).
    destruct (Nat.eqb_spec (Z.to_nat (k / 32)) (Z.to_nat (i / 32))) as [E|E].
    + rewrite Z.land_spec, testbit_not32, testbit_bit_mask by lia.
      unfold bit_at. assert (k / 32 = i / 32) as Eq by lia. rewrite Eq, Hw.
      rewrite andb_comm. f_equal.
      destruct (Z.ltb_spec (k mod 32) 32); [|lia]. cbn.
      destruct (Z.eqb_spec (k mod 32) (i mod 32)) as [Em|Em];
        destruct (Z.eqb_spec k i) as [Ek|Ek]; auto.
      * exfalso. apply Ek. now apply divmod32_eq.
      * subst. contradiction.
    + destruct (Z.eqb_spec k i) as [Ek|Ek]; [subst; contradiction|reflexivity].
  - intros Hall. apply Forall_insert; [done|].
    assert (is_u32 w) as Hwu.
    { rewrite Forall_forall in Hall. eapply Hall, list_elem_of_lookup_2, Hw. }
    apply is_u32_bits. intros k Hk. rewrite Z.land_spec.
    rewrite (proj1 (is_u32_bits w) Hwu) by lia. reflexivity.
Qed.

(** *** Accesses that succeed, and those that fail *)

Lemma to_u32_idem z : to_u32 (to_u32 z) = to_u32 z.
Proof. apply to_u32_id, to_u32_range. Qed.

Lemma load_ok_lookup {A} (arr : list A) i x :
  load arr i = Ok x -> 0 <= i /\ (Z.to_nat i < length arr)%nat.
Proof.
  unfold load. destruct (Z.ltb_spec i 0); [discriminate|].
  destruct (arr !! Z.to_nat i) eqn:E; [|discriminate]. intros _.
  split; [lia|]. eapply lookup_lt_Some, E.
Qed.

(** An access that succeeds was inside the list. *)
Lemma word_loaded_bit_ok (bits : list Z) i w :
  load bits (to_u32 i / 32) = Ok w -> bit_ok (length bits) (to_u32 i).
Proof.
  intros H. apply load_ok_lookup in H as [H0 Hl].
  split; [apply to_u32_range|lia].
Qed.

Lemma test_nbit_ok (bits : list Z) i b :
  test_nbit bits i = Ok b ->
  bit_ok (length bits) (to_u32 i) /\ b = bit_at bits (to_u32 i).
Proof.
  intros H. assert (Hok : bit_ok (length bits) (to_u32 i)).
  { unfold test_nbit in H.
    destruct (load bits (to_u32 i / 32)) as [w|] eqn:E; [|discriminate].
    eapply word_loaded_bit_ok, E. }
  split; [exact Hok|].
  pose proof (test_nbit_in_range bits (to_u32 i) Hok) as H'.
  unfold test_nbit in H, H'. rewrite to_u32_idem in H'. congruence.
Qed.

Lemma set_bit_ok (bits : list Z) i bits' :
  set_bit bits i true = Ok bits' ->
  bit_ok (length bits) (to_u32 i) /\
  length bits' = length bits /\
  (forall k, 0 <= k -> bit_at bits' k = (k =? to_u32 i) || bit_at bits k) /\
  (Forall is_u32 bits -> Forall is_u32 bits').
Proof.
  intros H. assert (Hok : bit_ok (length bits) (to_u32 i)).
  { unfold set_bit in H.
    destruct (load bits (to_u32 i / 32)) as [w|] eqn:E; [|discriminate].
    eapply word_loaded_bit_ok, E. }
  split; [exact Hok|].
  destruct (set_bit_in_range bits (to_u32 i) Hok) as (b2 & H' & Hrest).
  unfold set_bit in H, H'. rewrite to_u32_idem in H'.
  assert (b2 = bits') as <- by congruence. exact Hrest.
Qed.

Lemma unset_bits_ok (bits : list Z) i bits' :
  unset_bits bits [i] = Ok bits' ->
  bit_ok (length bits) (to_u32 i) /\
  length bits' = length bits /\
  (forall k, 0 <= k -> bit_at bits' k = (negb (k =? to_u32 i) && bit_at bits k)) /\
  (Forall is_u32 bits -> Forall is_u32 bits').
Proof.
  intros H. assert (Hok : bit_ok (length bits) (to_u32 i)).
  { cbn [unset_bits] in H.
    destruct (load bits (to_u32 i / 32)) as [w|] eqn:E; [|discriminate].
    eapply word_loaded_bit_ok, E. }
  split; [exact Hok|].
  destruct (unset_bits_in_range bits (to_u32 i) Hok) as (b2 & H' & Hrest).
  cbn [unset_bits] in H, H'. rewrite to_u32_idem in H'.
  assert (b2 = bits') as <- by congruence. exact Hrest.
Qed.

Lemma load_err {A} (arr : list A) i e : load arr i = Err e -> e = OutOfBounds.
Proof.
  unfold load. destruct (i <? 0); [congruence|].
  destruct (arr !! Z.to_nat i); congruence.
Qed.

Lemma store_err {A} (arr : list A) i x e :
  store arr i x = Err e -> e = OutOfBounds.
Proof.
  unfold store. destruct (i <? 0); [congruence|].
  destruct (Z.to_nat i <? length arr)%nat; congruence.
Qed.

Lemma test_nbit_err (bits : list Z) i e :
  test_nbit bits i = Err e -> e = OutOfBounds.
Proof.
  unfold test_nbit. destruct (load bits _) eqn:E; cbn [bind]; [discriminate|].
  intros [= <-]. eapply load_err, E.
Qed.

Lemma set_bit_err (bits : list Z) i val e :
  set_bit bits i val = Err e -> e = OutOfBounds.
Proof.
  unfold set_bit. destruct (load bits _) eqn:E; cbn [bind].
  - destruct val; apply store_err.
  - intros [= <-]. eapply load_err, E.
Qed.

Lemma unset_bits_err (bits : list Z) i e :
  unset_bits bits [i] = Err e -> e = OutOfBounds.
Proof.
  cbn [unset_bits]. destruct (load bits _) eqn:E; cbn [bind].
  - destruct (store bits _ _) eqn:E'; cbn [bind]; [discriminate|].
    intros [= <-]. eapply store_err, E'.
  - intros [= <-]. eapply load_err, E.
Qed.

(** ** The closure loops end *)

Lemma filter_length_mono {A} (f g : A -> bool) (l : list A) :
  (forall x, In x l -> f x = true -> g x = true) ->
  (length (List.filter f l) <= length (List.filter g l))%nat.
Proof.
  induction l as [|a l IH]; intros H; cbn; [lia|].
  assert (IH' := IH (fun x Hx => H x (or_intror Hx))).
  destruct (f a) eqn:Ef.
  - rewrite (H a (or_introl eq_refl) Ef). cbn. lia.
  - destruct (g a); cbn; lia.
Qed.

Lemma filter_length_strict {A} (f g : A -> bool) (l : list A) x :
  (forall y, In y l -> f y = true -> g y = true) ->
  In x l -> f x = false -> g x = true ->
  (length (List.filter f l) < length (List.filter g l))%nat.
Proof.
  induction l as [|a l IH]; intros H Hin Hf Hg; [destruct Hin|]. cbn.
  assert (Hl := filter_length_mono f g l (fun y Hy => H y (or_intror Hy))).
  destruct Hin as [->|Hin].
  - rewrite Hf, Hg. cbn. lia.
  - assert (IH' := IH (fun y Hy => H y (or_intror Hy)) Hin Hf Hg).
    destruct (f a) eqn:Ef.
    + rewrite (H a (or_introl eq_refl) Ef). cbn. lia.
    + destruct (g a); cbn; lia.
Qed.

Lemma bit_indices_in n k : bit_ok n k -> In k (bit_indices n).
Proof.
  intros [Hu Hl]. unfold is_u32 in Hu. unfold bit_indices.
  apply in_map_iff. exists (Z.to_nat k). split; [lia|].
  apply in_seq. assert (k < 32 * Z.of_nat n); [|lia].
  assert (k / 32 <= Z.of_nat n - 1) by lia.
  pose proof (Z.div_mod k 32 ltac:(lia)). pose proof (Z.mod_pos_bound k 32 ltac:(lia)). lia.
Qed.

Lemma bit_indices_nonneg n k : In k (bit_indices n) -> 0 <= k.
Proof. unfold bit_indices. rewrite in_map_iff. intros (j & <- & _). lia. Qed.

Lemma count_bits_bound v bits : (count_bits v bits <= 32 * length bits)%nat.
Proof.
  unfold count_bits. etransitivity; [apply List.filter_length_le|].
  unfold bit_indices. now rewrite length_map, length_seq.
Qed.

(** A change of one bit towards [v], the others moving towards [v] or
    staying, lowers the number of bits that differ from [v]. *)
Lemma count_bits_drop v (s s' : list Z) k :
  length s' = length s ->
  (forall j, 0 <= j -> bit_at s j = v -> bit_at s' j = v) ->
  bit_ok (length s) k -> bit_at s k = negb v -> bit_at s' k = v ->
  (count_bits (negb v) s' < count_bits (negb v) s)%nat.
Proof.
  intros Hlen Hmono Hk Hs Hs'. unfold count_bits. rewrite Hlen.
  apply filter_length_strict with (x := k).
  - intros y Hy. apply bit_indices_nonneg in Hy.
    specialize (Hmono y Hy). destruct (bit_at s y), (bit_at s' y), v; cbn in *; auto;
      try (specialize (Hmono eq_refl); discriminate).
  - now apply bit_indices_in.
  - rewrite Hs'. now destruct v.
  - rewrite Hs. now destruct v.
Qed.

Lemma sweep_post_refl v s c : sweep_post v s c s c.
Proof. repeat split; auto. Qed.

Lemma sweep_post_step v s s1 s' c' k :
  length s1 = length s ->
  (Forall is_u32 s -> Forall is_u32 s1) ->
  (forall j, 0 <= j -> bit_at s j = v -> bit_at s1 j = v) ->
  bit_ok (length s) k -> bit_at s k = negb v -> bit_at s1 k = v ->
  sweep_post v s1 true s' c' ->
  forall c, sweep_post v s c s' c'.
Proof.
  intros Hlen Hwf Hmono Hk Hs Hs1 (Hlen' & Hwf' & Hmono' & Hch) c.
  assert (0 <= k) by (destruct Hk as [[? ?] _]; lia).
  repeat split; [congruence|auto|auto|]. right.
  assert (c' = true) as -> by (destruct Hch as [[? _]|[? _]]; auto).
  split; [reflexivity|]. exists k. auto.
Qed.

Lemma enable_sweep_ok deps : forall s c s' c',
  enable_sweep s deps c = Ok (s', c') -> sweep_post true s c s' c'.
Proof.
  induction deps as [|d deps IH]; intros s c s' c'; cbn [enable_sweep].
  - intros [= <- <-]. apply sweep_post_refl.
  - destruct (test_nbit s (feature d)) as [has_f|] eqn:Ef; [|discriminate].
    cbn [bind]. destruct has_f; cbn [negb]; [|apply IH].
    destruct (test_nbit s (dep d)) as [has_d|] eqn:Ed; [|discriminate].
    cbn [bind]. destruct has_d; [apply IH|].
    destruct (set_bit s (dep d) true) as [s1|] eqn:Es; [|discriminate].
    cbn [bind]. intros H. apply IH in H.
    apply test_nbit_ok in Ed as [_ Ed].
    apply set_bit_ok in Es as (Hok & Hlen & Hbits & Hwf).
    assert (0 <= to_u32 (dep d)) by (destruct Hok as [[? ?] _]; lia).
    eapply sweep_post_step with (k := to_u32 (dep d)); eauto.
    + intros j Hj Hb. rewrite Hbits, Hb by lia. apply orb_true_r.
    + rewrite Hbits, Z.eqb_refl by lia. reflexivity.
Qed.

Lemma disable_sweep_ok deps : forall s c s' c',
  disable_sweep s deps c = Ok (s', c') -> sweep_post false s c s' c'.
Proof.
  induction deps as [|d deps IH]; intros s c s' c'; cbn [disable_sweep].
  - intros [= <- <-]. apply sweep_post_refl.
  - destruct (test_nbit s (feature d)) as [has_f|] eqn:Ef; [|discriminate].
    cbn [bind]. destruct has_f; cbn [negb]; [|apply IH].
    destruct (test_nbit s (dep d)) as [has_d|] eqn:Ed; [|discriminate].
    cbn [bind]. destruct has_d; [apply IH|].
    destruct (unset_bits s [feature d]) as [s1|] eqn:Es; [|discriminate].
    cbn [bind]. intros H. apply IH in H.
    apply test_nbit_ok in Ef as [_ Ef].
    apply unset_bits_ok in Es as (Hok & Hlen & Hbits & Hwf).
    assert (0 <= to_u32 (feature d)) by (destruct Hok as [[? ?] _]; lia).
    eapply sweep_post_step with (k := to_u32 (feature d)); eauto.
    + intros j Hj Hb. rewrite Hbits, Hb by lia. apply andb_false_r.
    + rewrite Hbits, Z.eqb_refl by lia. reflexivity.
Qed.

Lemma enable_sweep_err deps : forall s c e,
  enable_sweep s deps c = Err e -> e = OutOfBounds.
Proof.
  induction deps as [|d deps IH]; intros s c e; cbn [enable_sweep];
    [discriminate|].
  destruct (test_nbit s (feature d)) as [has_f|] eqn:Ef; cbn [bind].
  2:{ intros [= <-]. eapply test_nbit_err, Ef. }
  destruct has_f; cbn [negb]; [|apply IH].
  destruct (test_nbit s (dep d)) as [has_d|] eqn:Ed; cbn [bind].
  2:{ intros [= <-]. eapply test_nbit_err, Ed. }
  destruct has_d; [apply IH|].
  destruct (set_bit s (dep d) true) as [s1|] eqn:Es; cbn [bind]; [apply IH|].
  intros [= <-]. eapply set_bit_err, Es.
Qed.

Lemma disable_sweep_err deps : forall s c e,
  disable_sweep s deps c = Err e -> e = OutOfBounds.
Proof.
  induction deps as [|d deps IH]; intros s c e; cbn [disable_sweep];
    [discriminate|].
  destruct (test_nbit s (feature d)) as [has_f|] eqn:Ef; cbn [bind].
  2:{ intros [= <-]. eapply test_nbit_err, Ef. }
  destruct has_f; cbn [negb]; [|apply IH].
  destruct (test_nbit s (dep d)) as [has_d|] eqn:Ed; cbn [bind].
  2:{ intros [= <-]. eapply test_nbit_err, Ed. }
  destruct has_d; [apply IH|].
  destruct (unset_bits s [feature d]) as [s1|] eqn:Es; cbn [bind]; [apply IH|].
  intros [= <-]. eapply unset_bits_err, Es.
Qed.

Lemma enable_sweep_total deps : forall s c,
  Forall (edge_ok (length s)) deps ->
  exists s' c', enable_sweep s deps c = Ok (s', c').
Proof.
  induction deps as [|d deps IH]; intros s c Hok; cbn [enable_sweep].
  - exists s, c. reflexivity.
  - apply Forall_cons in Hok as [[Hf Hd] Hok].
    rewrite (test_nbit_in_range s _ Hf). cbn [bind].
    destruct (bit_at s (feature d)); cbn [negb]; [|now apply IH].
    rewrite (test_nbit_in_range s _ Hd). cbn [bind].
    destruct (bit_at s (dep d)); [now apply IH|].
    destruct (set_bit_in_range s _ Hd) as (s1 & -> & Hlen & _).
    cbn [bind]. rewrite <- Hlen in Hok. now apply IH.
Qed.

Lemma disable_sweep_total deps : forall s c,
  Forall (edge_ok (length s)) deps ->
  exists s' c', disable_sweep s deps c = Ok (s', c').
Proof.
  induction deps as [|d deps IH]; intros s c Hok; cbn [disable_sweep].
  - exists s, c. reflexivity.
  - apply Forall_cons in Hok as [[Hf Hd] Hok].
    rewrite (test_nbit_in_range s _ Hf). cbn [bind].
    destruct (bit_at s (feature d)); cbn [negb]; [|now apply IH].
    rewrite (test_nbit_in_range s _ Hd). cbn [bind].
    destruct (bit_at s (dep d)); [now apply IH|].
    destruct (unset_bits_in_range s _ Hf) as (s1 & -> & Hlen & _).
    cbn [bind]. rewrite <- Hlen in Hok. now apply IH.
Qed.

Section Loops.

Variable v : bool.
Variable sweep : list Z -> list FeatureDep -> bool -> result (list Z * bool).
Variable loop : nat -> list Z -> list FeatureDep -> result (list Z).
Variable deps : list FeatureDep.

Hypothesis loop_step : forall fuel s,
  loop (S fuel) s deps =
    do '(s', changed) <- sweep s (rev deps) false;
    if changed then loop fuel s' deps else Ok s'.
Hypothesis sweep_ok : forall s c s' c',
  sweep s (rev deps) c = Ok (s', c') -> sweep_post v s c s' c'.
Hypothesis sweep_err : forall s c e,
  sweep s (rev deps) c = Err e -> e = OutOfBounds.

(** With more sweeps allowed than bits can change, the loop ends by
    itself, at a set that a further sweep leaves alone, or stops at an
    access outside the list: the counter is never used up. *)
Lemma loop_within_limit : forall fuel s,
  (count_bits (negb v) s < fuel)%nat ->
  match loop fuel s deps with
  | Ok s' =>
      length s' = length s /\
      (Forall is_u32 s -> Forall is_u32 s') /\
      (forall k, 0 <= k -> bit_at s k = v -> bit_at s' k = v) /\
      sweep s' (rev deps) false = Ok (s', false)
  | Err e => e = OutOfBounds
  end.
Proof.
  induction fuel as [|fuel IH]; intros s Hfuel; [lia|].
  rewrite loop_step.
  destruct (sweep s (rev deps) false) as [[s1 c1]|e] eqn:E; cbn [bind];
    [|eapply sweep_err, E].
  destruct (sweep_ok _ _ _ _ E) as (Hlen & Hwf & Hmono & Hch).
  destruct Hch as [[-> ->]|[-> (k & Hk & Hs & Hs1)]].
  - repeat apply conj; auto.
  - assert (count_bits (negb v) s1 < count_bits (negb v) s)%nat
      by (eapply count_bits_drop; eauto).
    specialize (IH s1 ltac:(lia)).
    destruct (loop fuel s1 deps) as [s'|e]; [|exact IH].
    destruct IH as (Hlen' & Hwf' & Hmono' & Hfix).
    repeat apply conj; auto; congruence.
Qed.

Hypothesis loop_zero : forall s, loop 0 s deps = Err PassLimit.
Hypothesis sweep_total : forall s c,
  Forall (edge_ok (length s)) (rev deps) ->
  exists s' c', sweep s (rev deps) c = Ok (s', c').

(** Over edges inside the list no access fails: the loop can only stop
    by itself or at the counter. *)
Lemma loop_in_range : forall fuel s e,
  Forall (edge_ok (length s)) deps ->
  loop fuel s deps = Err e -> e = PassLimit.
Proof.
  induction fuel as [|fuel IH]; intros s e Hok.
  - rewrite loop_zero. congruence.
  - rewrite loop_step.
    assert (Hok' : Forall (edge_ok (length s)) (rev deps)).
    { rewrite Forall_forall in *. intros x Hx. apply Hok.
      apply list_elem_of_In. apply in_rev. now apply list_elem_of_In. }
    destruct (sweep_total s false Hok') as (s1 & c1 & E). rewrite E.
    cbn [bind]. destruct (sweep_ok _ _ _ _ E) as (Hlen & _).
    destruct c1; [|discriminate]. apply IH. now rewrite Hlen.
Qed.

End Loops.

(** The closures, whatever the table: their result, when there is one,
    has the words of its argument with bits added (removed), and is a
    fixed point of the sweep; the only error is an access outside the
    list. *)
Lemma enable_depends_result s deps :
  match enable_depends s deps with
  | Ok s' =>
      length s' = length s /\
      (Forall is_u32 s -> Forall is_u32 s') /\
      (forall k, 0 <= k -> bit_at s k = true -> bit_at s' k = true) /\
      enable_sweep s' (rev deps) false = Ok (s', false)
  | Err e => e = OutOfBounds
  end.
Proof.
  unfold enable_depends.
  apply (loop_within_limit true enable_sweep enable_loop deps).
  - reflexivity.
  - intros s0 c s' c'. apply enable_sweep_ok.
  - intros s0 c e. apply enable_sweep_err.
  - pose proof (count_bits_bound (negb true) s). lia.
Qed.

Lemma disable_depends_result s deps :
  match disable_depends s deps with
  | Ok s' =>
      length s' = length s /\
      (Forall is_u32 s -> Forall is_u32 s') /\
      (forall k, 0 <= k -> bit_at s k = false -> bit_at s' k = false) /\
      disable_sweep s' (rev deps) false = Ok (s', false)
  | Err e => e = OutOfBounds
  end.
Proof.
  unfold disable_depends.
  apply (loop_within_limit false disable_sweep disable_loop deps).
  - reflexivity.
  - intros s0 c s' c'. apply disable_sweep_ok.
  - intros s0 c e. apply disable_sweep_err.
  - pose proof (count_bits_bound (negb false) s). lia.
Qed.

(** Over edges inside the list the closures return. *)
Lemma enable_depends_spec s deps :
  Forall (edge_ok (length s)) deps ->
  exists s', enable_depends s deps = Ok s' /\
    length s' = length s /\
    (Forall is_u32 s -> Forall is_u32 s') /\
    (forall k, 0 <= k -> bit_at s k = true -> bit_at s' k = true) /\
    enable_sweep s' (rev deps) false = Ok (s', false).
Proof.
  intros Hok. pose proof (enable_depends_result s deps) as Hres.
  destruct (enable_depends s deps) as [s'|e] eqn:E; [now exists s'|].
  subst e. unfold enable_depends in E.
  apply (loop_in_range true enable_sweep enable_loop deps) in E;
    [discriminate|reflexivity| |reflexivity|exact (enable_sweep_total (rev deps))|exact Hok].
  intros s0 c s' c'. apply enable_sweep_ok.
Qed.

Lemma disable_depends_spec s deps :
  Forall (edge_ok (length s)) deps ->
  exists s', disable_depends s deps = Ok s' /\
    length s' = length s /\
    (Forall is_u32 s -> Forall is_u32 s') /\
    (forall k, 0 <= k -> bit_at s k = false -> bit_at s' k = false) /\
    disable_sweep s' (rev deps) false = Ok (s', false).
Proof.
  intros Hok. pose proof (disable_depends_result s deps) as Hres.
  destruct (disable_depends s deps) as [s'|e] eqn:E; [now exists s'|].
  subst e. unfold disable_depends in E.
  apply (loop_in_range false disable_sweep disable_loop deps) in E;
    [discriminate|reflexivity| |reflexivity|exact (disable_sweep_total (rev deps))|exact Hok].
  intros s0 c s' c'. apply disable_sweep_ok.
Qed.

(** ** The subset test *)

Lemma bit_at_cons x (l : list Z) k :
  0 <= k ->
  bit_at (x :: l) k = if k <? 32 then Z.testbit x k else bit_at l (k - 32).
Proof.
  intros Hk. unfold bit_at. destruct (Z.ltb_spec k 32).
  - rewrite Z.div_small, Z.mod_small by lia. reflexivity.
  - assert (k / 32 = (k - 32) / 32 + 1) as ->.
    { rewrite <- Z.div_add by lia. f_equal. lia. }
    assert (k mod 32 = (k - 32) mod 32) as ->.
    { rewrite <- (Z.mod_add (k - 32) 1 32) by lia. f_equal. lia. }
    assert (0 <= (k - 32) / 32) by (apply Z.div_pos; lia).
    rewrite Z2Nat.inj_add by lia. rewrite Nat.add_comm. reflexivity.
Qed.

Lemma word_le_bits x y :
  is_u32 x ->
  (Z.land x (not32 y) =? 0) = true <->
  (forall i, 0 <= i < 32 -> Z.testbit x i = true -> Z.testbit y i = true).
Proof.
  intros Hx. rewrite Z.eqb_eq. split.
  - intros H0 i Hi Hxi.
    assert (Z.testbit (Z.land x (not32 y)) i = false) as Hb
      by (rewrite H0; apply Z.bits_0).
    rewrite Z.land_spec, testbit_not32, Hxi in Hb by lia.
    destruct (Z.ltb_spec i 32); [|lia]. cbn in Hb.
    now apply negb_false_iff in Hb.
  - intros H. apply Z.bits_inj'. intros i Hi.
    rewrite Z.land_spec, testbit_not32, Z.bits_0 by lia.
    destruct (Z.ltb_spec i 32).
    + destruct (Z.testbit x i) eqn:Exi; [|reflexivity].
      rewrite (H i) by (auto; lia). reflexivity.
    + rewrite (proj1 (is_u32_bits x) Hx) by lia. reflexivity.
Qed.

Lemma features_le_bits (a b : list Z) :
  length a = length b -> Forall is_u32 a ->
  features_le a b = true <->
  (forall k, 0 <= k -> bit_at a k = true -> bit_at b k = true).
Proof.
  revert b. induction a as [|x a IH]; intros [|y b] Hlen Hwf; try discriminate.
  - split; [|reflexivity]. intros _ k _. unfold bit_at.
    rewrite lookup_nil. discriminate.
  - apply Forall_cons in Hwf as [Hx Hwf]. injection Hlen as Hlen.
    cbn [features_le]. specialize (IH b Hlen Hwf).
    destruct (Z.land x (not32 y) =? 0) eqn:E; cbn [negb].
    + rewrite IH. pose proof (proj1 (word_le_bits x y Hx) E) as Hw. split.
      * intros H k Hk. rewrite !bit_at_cons by lia.
        destruct (Z.ltb_spec k 32); [apply Hw; lia|apply H; lia].
      * intros H k Hk Hb. specialize (H (k + 32) ltac:(lia)).
        rewrite !bit_at_cons in H by lia.
        destruct (Z.ltb_spec (k + 32) 32); [lia|].
        replace (k + 32 - 32) with k in H by lia. auto.
    + split; [discriminate|]. intros H. exfalso.
      assert ((Z.land x (not32 y) =? 0) = true); [|congruence].
      apply word_le_bits; [done|]. intros i Hi Hb.
      specialize (H i ltac:(lia)). rewrite !bit_at_cons in H by lia.
      destruct (Z.ltb_spec i 32); [auto|lia].
Qed.

Lemma features_le_empty (a b : list Z) :
  features_le a b = empty (feature_mask_and a (feature_mask_not b)).
Proof.
  revert b. induction a as [|x a IH]; intros [|y b]; try reflexivity.
  cbn. destruct (Z.land x (not32 y) =? 0); cbn; [apply IH|reflexivity].
Qed.

(** Claim C2.  For two feature lists [a] and [b] of [n] words each,
    [features_le a b] returns true exactly when [(a & ~b)] has no bit
    set, that is, exactly when every bit that [test_nbit] finds in [a]
    it finds in [b] too. *)
Theorem features_le_correct n (a b : list Z) :
  wf_features n a -> wf_features n b -> 32 * Z.of_nat n <= 2 ^ 32 ->
  (features_le a b = true <->
     empty (feature_mask_and a (feature_mask_not b)) = true) /\
  (features_le a b = true <->
     forall i, bit_ok n i ->
       test_nbit a i = Ok true -> test_nbit b i = Ok true).
Proof.
  intros [Hla Hwa] [Hlb Hwb] Hn. split.
  - now rewrite features_le_empty.
  - rewrite features_le_bits by (auto; congruence). split.
    + intros H i Hi. rewrite !test_nbit_in_range by (red; rewrite ?Hla, ?Hlb; exact Hi).
      intros [= E]. f_equal. apply H; [destruct Hi as [[? ?] _]; lia|done].
    + intros H k Hk Hb.
      destruct (Z.ltb_spec k (32 * Z.of_nat n)).
      * assert (bit_ok n k) as Hok.
        { split; [|apply Z.div_lt_upper_bound; lia].
          unfold is_u32; lia. }
        specialize (H k Hok).
        rewrite !test_nbit_in_range in H by (red; rewrite ?Hla, ?Hlb; exact Hok).
        rewrite Hb in H. specialize (H eq_refl). now injection H.
      * exfalso. unfold bit_at in Hb. rewrite lookup_ge_None_2 in Hb; [discriminate|].
        rewrite Hla. assert (Z.of_nat n <= k / 32) by (apply Z.div_le_lower_bound; lia). lia.
Qed.

(** A closure that stops at an access outside the list was given an edge
    outside the list. *)
Lemma enable_depends_err s deps e :
  enable_depends s deps = Err e ->
  e = OutOfBounds /\ ~ Forall (edge_ok (length s)) deps.
Proof.
  intros E. pose proof (enable_depends_result s deps) as Hres.
  rewrite E in Hres. split; [exact Hres|]. intros Hok.
  destruct (enable_depends_spec s deps Hok) as (s' & E' & _). congruence.
Qed.

Lemma disable_depends_err s deps e :
  disable_depends s deps = Err e ->
  e = OutOfBounds /\ ~ Forall (edge_ok (length s)) deps.
Proof.
  intros E. pose proof (disable_depends_result s deps) as Hres.
  rewrite E in Hres. split; [exact Hres|]. intros Hok.
  destruct (disable_depends_spec s deps Hok) as (s' & E' & _). congruence.
Qed.

(** Claim C3.  For every feature list [s] of [n] words and every table
    of dependency edges, [enable_depends] only adds bits: its result is a
    superset of [s]; and [disable_depends] only removes bits: its result
    is a subset of [s].  Both return a result unless an edge names a bit
    outside the [n] words, where they stop at the access outside the
    list. *)
Theorem depends_add_remove n (s : list Z) deps :
  wf_features n s ->
  match enable_depends s deps with
  | Ok s_en => features_le s s_en = true
  | Err e => e = OutOfBounds /\ ~ Forall (edge_ok n) deps
  end /\
  match disable_depends s deps with
  | Ok s_dis => features_le s_dis s = true
  | Err e => e = OutOfBounds /\ ~ Forall (edge_ok n) deps
  end.
Proof.
  intros [Hlen Hwf]. subst n. split.
  - pose proof (enable_depends_result s deps) as Hres.
    destruct (enable_depends s deps) as [s1|e] eqn:E;
      [|now apply enable_depends_err].
    destruct Hres as (Hl1 & Hw1 & Hm1 & _). apply features_le_bits; auto.
  - pose proof (disable_depends_result s deps) as Hres.
    destruct (disable_depends s deps) as [s2|e] eqn:E;
      [|now apply disable_depends_err].
    destruct Hres as (Hl2 & Hw2 & Hm2 & _). apply features_le_bits; auto.
    intros k Hk Hb. destruct (bit_at s k) eqn:Es; [reflexivity|].
    rewrite (Hm2 k Hk Es) in Hb. discriminate.
Qed.

(** Claim C4.  For every feature list and every table of dependency
    edges, [enable_depends] and [disable_depends] are idempotent: run on
    their own result they return it unchanged.  (They return a result
    unless an edge names a bit outside the list.) *)
Theorem depends_idempotent (s : list Z) deps :
  match enable_depends s deps with
  | Ok s_en => enable_depends s_en deps = Ok s_en
  | Err e => e = OutOfBounds /\ ~ Forall (edge_ok (length s)) deps
  end /\
  match disable_depends s deps with
  | Ok s_dis => disable_depends s_dis deps = Ok s_dis
  | Err e => e = OutOfBounds /\ ~ Forall (edge_ok (length s)) deps
  end.
Proof.
  split.
  - pose proof (enable_depends_result s deps) as Hres.
    destruct (enable_depends s deps) as [s1|e] eqn:E;
      [|now apply enable_depends_err].
    destruct Hres as (_ & _ & _ & Hfix).
    unfold enable_depends. cbn [enable_loop]. rewrite Hfix. reflexivity.
  - pose proof (disable_depends_result s deps) as Hres.
    destruct (disable_depends s deps) as [s2|e] eqn:E;
      [|now apply disable_depends_err].
    destruct Hres as (_ & _ & _ & Hfix).
    unfold disable_depends. cbn [disable_loop]. rewrite Hfix. reflexivity.
Qed.

Lemma add_feature_mask_sentinel bits1 : forall mask u32idx bits2,
  add_feature_mask_u32 mask u32idx (bits1 ++ sentinel :: bits2) =
  add_feature_mask_u32 mask u32idx (bits1 ++ bits2).
Proof.
  induction bits1 as [|b bits1 IH]; intros mask u32idx bits2; cbn.
  - f_equal. apply Z.lor_0_r.
  - apply IH.
Qed.

Lemma load_sentinel_word (bits : list Z) :
  Z.of_nat (length bits) <= 0x7FFFFFF ->
  load bits (to_u32 sentinel / 32) = Err OutOfBounds.
Proof.
  intros Hlen. change (to_u32 sentinel / 32) with 0x7FFFFFF.
  unfold load. cbn [Z.ltb Z.compare]. rewrite lookup_ge_None_2; [reflexivity|lia].
Qed.

Lemma test_nbit_to_u32 (bits : list Z) i :
  test_nbit bits (to_u32 i) = test_nbit bits i.
Proof. unfold test_nbit. now rewrite to_u32_idem. Qed.

Lemma bit_at_bit_ok (bits : list Z) i :
  bit_at bits (to_u32 i) = true -> bit_ok (length bits) (to_u32 i).
Proof.
  unfold bit_at. intros H. split; [apply to_u32_range|].
  destruct (bits !! Z.to_nat (to_u32 i / 32)) eqn:E; [|discriminate].
  apply lookup_lt_Some in E. pose proof (to_u32_range i) as [H0 _].
  assert (0 <= to_u32 i / 32) by (apply Z.div_pos; lia). lia.
Qed.

Lemma sentinel_not_ok (bits : list Z) :
  Z.of_nat (length bits) <= 0x7FFFFFF ->
  ~ bit_ok (length bits) (to_u32 sentinel).
Proof.
  intros Hlen [_ H]. change (to_u32 sentinel / 32) with 0x7FFFFFF in H. lia.
Qed.

(** A sweep that returns has tested the feature of every edge, and the
    dependency of every edge whose feature was set when the sweep began:
    all of them lie inside the list. *)
Lemma enable_sweep_reaches edges : forall (s : list Z) c r,
  enable_sweep s edges c = Ok r ->
  forall d, In d edges ->
    bit_ok (length s) (to_u32 d.(feature)) /\
    (bit_at s (to_u32 d.(feature)) = true ->
     bit_ok (length s) (to_u32 d.(dep))).
Proof.
  induction edges as [|e edges IH]; intros s c r Hsw d Hd; [destruct Hd|].
  cbn [enable_sweep] in Hsw.
  destruct (test_nbit s (feature e)) as [has_f|] eqn:Ef; [|discriminate].
  apply test_nbit_ok in Ef as [Hf ->]. cbn [bind] in Hsw.
  destruct (bit_at s (to_u32 (feature e))) eqn:Ebit; cbn [negb] in Hsw.
  - destruct (test_nbit s (dep e)) as [has_d|] eqn:Ed; [|discriminate].
    apply test_nbit_ok in Ed as [Hdep ->]. cbn [bind] in Hsw.
    destruct (bit_at s (to_u32 (dep e))).
    + destruct Hd as [<-|Hd]; [auto|]. eapply IH; eauto.
    + destruct (set_bit s (dep e) true) as [s1|] eqn:Es; [|discriminate].
      cbn [bind] in Hsw. apply set_bit_ok in Es as (_ & Hlen & Hbits & _).
      destruct Hd as [<-|Hd]; [auto|].
      destruct (IH _ _ _ Hsw d Hd) as [H1 H2]. rewrite Hlen in *.
      split; [exact H1|]. intros Hb. apply H2. rewrite Hbits, Hb.
      * apply orb_true_r.
      * apply to_u32_range.
  - destruct Hd as [<-|Hd]; [split; [exact Hf|congruence]|]. eapply IH; eauto.
Qed.

Lemma disable_sweep_reaches edges : forall (s : list Z) c r,
  disable_sweep s edges c = Ok r ->
  forall d, In d edges -> bit_ok (length s) (to_u32 d.(feature)).
Proof.
  induction edges as [|e edges IH]; intros s c r Hsw d Hd; [destruct Hd|].
  cbn [disable_sweep] in Hsw.
  destruct (test_nbit s (feature e)) as [has_f|] eqn:Ef; [|discriminate].
  apply test_nbit_ok in Ef as [Hf ->]. cbn [bind] in Hsw.
  destruct (bit_at s (to_u32 (feature e))) eqn:Ebit; cbn [negb] in Hsw.
  - destruct (test_nbit s (dep e)) as [has_d|] eqn:Ed; [|discriminate].
    cbn [bind] in Hsw. destruct has_d.
    + destruct Hd as [<-|Hd]; [auto|]. eapply IH; eauto.
    + destruct (unset_bits s [feature e]) as [s1|] eqn:Es; [|discriminate].
      cbn [bind] in Hsw. apply unset_bits_ok in Es as (_ & Hlen & _).
      destruct Hd as [<-|Hd]; [auto|]. rewrite <- Hlen. eapply IH; eauto.
  - destruct Hd as [<-|Hd]; [exact Hf|]. eapply IH; eauto.
Qed.

Lemma enable_depends_first (s : list Z) deps r :
  enable_depends s deps = Ok r ->
  exists r1, enable_sweep s (rev deps) false = Ok r1.
Proof.
  unfold enable_depends. cbn [enable_loop].
  destruct (enable_sweep s (rev deps) false) as [r1|]; [eauto|discriminate].
Qed.

Lemma disable_depends_first (s : list Z) deps r :
  disable_depends s deps = Ok r ->
  exists r1, disable_sweep s (rev deps) false = Ok r1.
Proof.
  unfold disable_depends. cbn [disable_loop].
  destruct (disable_sweep s (rev deps) false) as [r1|]; [eauto|discriminate].
Qed.

Lemma enable_depends_fails (s : list Z) deps :
  (forall r, enable_depends s deps <> Ok r) ->
  enable_depends s deps = Err OutOfBounds.
Proof.
  intros H. pose proof (enable_depends_result s deps) as Hr.
  destruct (enable_depends s deps) as [r|e]; [now destruct (H r)|now subst].
Qed.

Lemma disable_depends_fails (s : list Z) deps :
  (forall r, disable_depends s deps <> Ok r) ->
  disable_depends s deps = Err OutOfBounds.
Proof.
  intros H. pose proof (disable_depends_result s deps) as Hr.
  destruct (disable_depends s deps) as [r|e]; [now destruct (H r)|now subst].
Qed.

(** A sweep over edges whose features are all clear touches no
    dependency and changes nothing. *)
Lemma enable_sweep_clear (s : list Z) edges : forall c,
  Forall (fun d => bit_ok (length s) (to_u32 d.(feature)) /\
                   bit_at s (to_u32 d.(feature)) = false) edges ->
  enable_sweep s edges c = Ok (s, c).
Proof.
  induction edges as [|e edges IH]; intros c H; [reflexivity|].
  apply Forall_cons in H as [[Hok Hbit] H]. cbn [enable_sweep].
  rewrite <- test_nbit_to_u32, (test_nbit_in_range s _ Hok), Hbit.
  cbn [bind negb]. now apply IH.
Qed.

Lemma disable_sweep_clear (s : list Z) edges : forall c,
  Forall (fun d => bit_ok (length s) (to_u32 d.(feature)) /\
                   bit_at s (to_u32 d.(feature)) = false) edges ->
  disable_sweep s edges c = Ok (s, c).
Proof.
  induction edges as [|e edges IH]; intros c H; [reflexivity|].
  apply Forall_cons in H as [[Hok Hbit] H]. cbn [disable_sweep].
  rewrite <- test_nbit_to_u32, (test_nbit_in_range s _ Hok), Hbit.
  cbn [bind negb]. now apply IH.
Qed.

Lemma depends_clear (s : list Z) deps :
  Forall (fun d => bit_ok (length s) (to_u32 d.(feature)) /\
                   bit_at s (to_u32 d.(feature)) = false) deps ->
  enable_depends s deps = Ok s /\ disable_depends s deps = Ok s.
Proof.
  intros H. apply Forall_rev in H.
  unfold enable_depends, disable_depends. cbn [enable_loop disable_loop].
  now rewrite enable_sweep_clear, disable_sweep_clear.
Qed.

(** Claim C5, amended.  The sentinel [uint32::MAX] is skipped where
    feature masks are built ([get_feature_masks]).  [test_nbit], [set_bit]
    and [unset_bits] have no guard for it: they index word [0x7FFFFFF] of
    the list, outside every list of at most [0x7FFFFFF] words.  The
    closure walks test the feature of every edge, and the dependency of an
    edge only when its feature is set.  So a table with an edge whose
    feature is the sentinel takes both walks outside the list; an edge
    whose dependency is the sentinel and whose feature is set in the
    argument does so for [enable_depends], and for [disable_depends] when
    it is the last edge of the table (the first the walk visits); a table
    whose edges all have their feature inside the list and clear is passed
    over whatever the dependencies are, the sentinel included, and the set
    comes back as it was. *)
Theorem sentinel_unguarded (bits : list Z) :
  Z.of_nat (length bits) <= 0x7FFFFFF ->
  (forall n bits1 bits2,
     get_feature_masks n (bits1 ++ sentinel :: bits2) =
     get_feature_masks n (bits1 ++ bits2)) /\
  test_nbit bits sentinel = Err OutOfBounds /\
  (forall val, set_bit bits sentinel val = Err OutOfBounds) /\
  (forall rest, unset_bits bits (sentinel :: rest) = Err OutOfBounds) /\
  (forall deps d,
     In d deps -> d.(feature) = sentinel ->
     enable_depends bits deps = Err OutOfBounds /\
     disable_depends bits deps = Err OutOfBounds) /\
  (forall deps d,
     In d deps -> d.(dep) = sentinel ->
     bit_at bits (to_u32 d.(feature)) = true ->
     enable_depends bits deps = Err OutOfBounds) /\
  (forall deps f,
     bit_at bits (to_u32 f) = true ->
     disable_depends bits (deps ++ [{| feature := f; dep := sentinel |}])
       = Err OutOfBounds) /\
  (forall deps,
     Forall (fun d => bit_ok (length bits) (to_u32 d.(feature)) /\
                      bit_at bits (to_u32 d.(feature)) = false) deps ->
     enable_depends bits deps = Ok bits /\
     disable_depends bits deps = Ok bits).
Proof.
  intros Hlen. pose proof (load_sentinel_word bits Hlen) as Hload.
  pose proof (sentinel_not_ok bits Hlen) as Hno.
  assert (Htest : test_nbit bits sentinel = Err OutOfBounds)
    by (unfold test_nbit; now rewrite Hload).
  repeat apply conj.
  - intros n bits1 bits2. unfold get_feature_masks, get_feature_mask_u32.
    apply map_ext. intros I. apply add_feature_mask_sentinel.
  - exact Htest.
  - intros val. unfold set_bit. now rewrite Hload.
  - intros rest. cbn [unset_bits]. now rewrite Hload.
  - intros deps d Hd Hsen. split.
    + apply enable_depends_fails. intros r Hr.
      apply enable_depends_first in Hr as [r1 Hr].
      destruct (enable_sweep_reaches _ _ _ _ Hr d) as [Hf _].
      { now apply in_rev in Hd. }
      rewrite Hsen in Hf. contradiction.
    + apply disable_depends_fails. intros r Hr.
      apply disable_depends_first in Hr as [r1 Hr].
      pose proof (disable_sweep_reaches _ _ _ _ Hr d) as Hf.
      rewrite Hsen in Hf. apply Hno, Hf. now apply in_rev in Hd.
  - intros deps d Hd Hdep Hbit. apply enable_depends_fails. intros r Hr.
    apply enable_depends_first in Hr as [r1 Hr].
    destruct (enable_sweep_reaches _ _ _ _ Hr d) as [_ Hf].
    { now apply in_rev in Hd. }
    rewrite Hdep in Hf. auto.
  - intros deps f Hbit. apply disable_depends_fails. intros r Hr.
    apply disable_depends_first in Hr as [r1 Hr].
    rewrite rev_app_distr in Hr. cbn [rev app disable_sweep feature dep] in Hr.
    rewrite <- test_nbit_to_u32,
      (test_nbit_in_range bits _ (bit_at_bit_ok bits f Hbit)), Hbit in Hr.
    cbn [bind negb] in Hr. rewrite Htest in Hr. discriminate.
  - intros deps Hclear. now apply depends_clear.
Qed.

(** Claim C5 as stated fails on a one-word list: each of the three
    operations, given the sentinel, reads outside the list. *)
Lemma sentinel_counterexample :
  test_nbit [0] sentinel = Err OutOfBounds /\
  set_bit [0] sentinel true = Err OutOfBounds /\
  unset_bits [0] [sentinel] = Err OutOfBounds.
Proof. repeat split. Qed.

(** ** Serialised target data *)

Lemma byte_eqb_x00 c : c <> Byte.x00 -> Byte.eqb c Byte.x00 = false.
Proof.
  intros H. destruct (Byte.eqb c Byte.x00) eqn:E; [|reflexivity].
  apply Byte.byte_dec_bl in E. contradiction.
Qed.




Lemma length_u32_bytes w : length (u32_bytes w) = 4%nat.
Proof. apply length_le_split. Qed.


Lemma load_data_prefix (data rest : bytes) sz :
  sz = Z.of_nat (length data) -> load_data (data ++ rest) sz = Ok (data, rest).
Proof.
  intros ->. unfold load_data. rewrite Nat2Z.id, length_app.
  destruct (Nat.leb_spec (length data) (length data + length rest)); [|lia].
  now rewrite take_app_length, drop_app_length.
Qed.

Lemma load_u32_bytes w rest :
  is_u32 w -> load_u32 (u32_bytes w ++ rest) = Ok (w, rest).
Proof.
  intros Hw. unfold load_u32.
  rewrite load_data_prefix by (now rewrite length_u32_bytes). cbn [bind].
  unfold u32_bytes. rewrite le_combine_split. f_equal. f_equal.
  apply Z.mod_small. exact Hw.
Qed.






Lemma deserialize_targets_flags n count : forall data res,
  deserialize_targets n count data = Ok res ->
  Forall (fun t => t.(dis_flags) = 0 /\ t.(Target.base) = 0) res.
Proof.
  induction count as [|count IH]; intros data res; cbn [deserialize_targets].
  - intros [= <-]. constructor.
  - destruct (load_u32 data) as [[flags d1]|]; [|discriminate]. cbn [bind].
    destruct (load_u32 d1) as [[nf d2]|]; [|discriminate]. cbn [bind].
    destruct (negb (nf =? Z.of_nat n)); [discriminate|].
    destruct (load_words n d2) as [[en d3]|]; [|discriminate]. cbn [bind].
    destruct (load_words n d3) as [[dis d4]|]; [|discriminate]. cbn [bind].
    destruct (load_string d4) as [[nm d5]|]; [|discriminate]. cbn [bind].
    destruct (load_string d5) as [[ext d6]|]; [|discriminate]. cbn [bind].
    destruct (deserialize_targets n count d6) as [l|] eqn:E; [|discriminate].
    cbn [bind]. intros [= <-]. constructor; [split; reflexivity|].
    eapply IH. exact E.
Qed.

(** Claim C10.  A null option string gives [parse_cmdline] an empty
    target list and no error; every target that
    [deserialize_target_data] returns, whatever the bytes, has
    [dis.flags = 0] and [base = 0]. *)
Theorem null_option_and_restored_flags :
  (forall n JL_TARGET_CLONE_ALL feature_cb,
     parse_cmdline n JL_TARGET_CLONE_ALL feature_cb None = Ok []) /\
  (forall n data res,
     deserialize_target_data n data = Ok res ->
     Forall (fun t => t.(dis_flags) = 0 /\ t.(Target.base) = 0) res).
Proof.
  split; [reflexivity|]. intros n data res. unfold deserialize_target_data.
  destruct (load_u32 data) as [[ntarget d]|]; [|discriminate]. cbn [bind].
  apply deserialize_targets_flags.
Qed.

(** ** The option parser *)

Lemma bytes_eqb_eq a b : bytes_eqb a b = true <-> a = b.
Proof.
  revert b. induction a as [|x a IH]; intros [|y b]; cbn; try easy.
  rewrite andb_true_iff, IH. split.
  - intros [E ->]. apply Byte.byte_dec_bl in E. now subst.
  - intros [= -> ->]. split; [now apply Byte.byte_dec_lb|reflexivity].
Qed.

Lemma bytes_eqb_refl a : bytes_eqb a a = true.
Proof. now apply bytes_eqb_eq. Qed.

Lemma is_char_eq c s c' : cstr s = [c'] -> is_char c s = true -> c = c'.
Proof.
  unfold is_char. intros ->. apply Byte.byte_dec_bl.
Qed.

Lemma strtol_digits_app ds : forall acc c rest,
  forallb is_digit ds = true -> is_digit c = false ->
  strtol_digits acc (ds ++ c :: rest) = (decimal_from acc ds, c :: rest).
Proof.
  induction ds as [|d ds IH]; intros acc c rest Hds Hc; cbn.
  - now rewrite Hc.
  - cbn in Hds. apply andb_true_iff in Hds as [-> Hds]. now apply IH.
Qed.

Lemma strtol_digits_split s : forall acc v rest,
  strtol_digits acc s = (v, rest) ->
  exists ds, s = ds ++ rest /\ forallb is_digit ds = true /\
             v = decimal_from acc ds.
Proof.
  induction s as [|c s IH]; intros acc v rest; cbn.
  - intros [= <- <-]. exists []. auto.
  - destruct (is_digit c) eqn:Ec.
    + intros H. destruct (IH _ _ _ H) as (ds & -> & Hds & ->).
      exists (c :: ds). cbn. rewrite Ec, Hds. auto.
    + intros [= <- <-]. exists []. auto.
Qed.

Lemma decimal_from_nonneg ds : forall acc,
  0 <= acc -> forallb is_digit ds = true -> 0 <= decimal_from acc ds.
Proof.
  induction ds as [|d ds IH]; intros acc Hacc Hds; cbn; [done|].
  cbn in Hds. apply andb_true_iff in Hds as [Hd Hds]. apply IH; [|done].
  unfold is_digit in Hd. unfold digit_value. lia.
Qed.

Lemma base_arg_shape fname ds :
  base_arg fname = Some ds -> fname = cstr "base(" ++ ds ++ cstr ")".
Proof.
  unfold base_arg, starts_with.
  destruct (bytes_eqb _ _) eqn:Ep; [|discriminate].
  apply bytes_eqb_eq in Ep.
  destruct (rev (drop 5 fname)) as [|c r] eqn:Er; [discriminate|].
  destruct (is_char c ")") eqn:Ec; [|discriminate]. intros [= <-].
  apply (is_char_eq c ")" _ eq_refl) in Ec. subst c.
  rewrite <- (take_drop 5 fname) at 1. f_equal; [exact Ep|].
  rewrite <- (rev_involutive (drop 5 fname)), Er. reflexivity.
Qed.

Lemma base_arg_of_shape ds :
  base_arg (cstr "base(" ++ ds ++ cstr ")") = Some ds.
Proof.
  unfold base_arg, starts_with. cbn [length list_byte_of_string].
  change (take _ (cstr "base(" ++ _)) with (cstr "base(").
  rewrite bytes_eqb_refl. change (drop 5 (cstr "base(" ++ ?x)) with x.
  cbn [drop app]. rewrite rev_app_distr. cbn. now rewrite rev_involutive.
Qed.

(** [base_form] holds of the tokens [base(k)], [k] one digit or more. *)
Lemma base_form_iff fname :
  base_form fname = true <->
  exists ds, ds <> [] /\ forallb is_digit ds = true /\
             fname = cstr "base(" ++ ds ++ cstr ")".
Proof.
  unfold base_form. split.
  - destruct (base_arg fname) as [ds|] eqn:E; [|discriminate].
    intros H. apply andb_true_iff in H as [Hne Hds]. exists ds.
    repeat apply conj; [|exact Hds|now apply base_arg_shape].
    intros ->. discriminate.
  - intros (ds & Hne & Hds & ->). rewrite base_arg_of_shape, Hds.
    destruct ds; [contradiction|reflexivity].
Qed.

Lemma is_digit_paren : is_digit Byte.x29 = false.
Proof. reflexivity. Qed.

Lemma get_clone_base_shape ds :
  ds <> [] -> forallb is_digit ds = true ->
  get_clone_base (cstr "base(" ++ ds ++ cstr ")") =
    to_int (to_int (Z.min (decimal ds) LONG_MAX) + 1).
Proof.
  intros Hne Hds. destruct ds as [|d ds]; [done|]. unfold get_clone_base.
  set (tok := cstr "base(" ++ (d :: ds) ++ cstr ")").
  assert (Htake : take 5 tok = cstr "base(") by reflexivity.
  assert (Hdrop : drop 5 tok = (d :: ds) ++ [Byte.x29]) by reflexivity.
  assert (Hlen : (Z.of_nat (length tok) <=? 5) = false).
  { apply Z.leb_gt. unfold tok. rewrite length_app. cbn. lia. }
  change (Z.of_nat (length (cstr "base("))) with 5.
  change (Z.to_nat 5) with 5%nat.
  rewrite Hlen, Htake, bytes_eqb_refl, Hdrop. cbn [negb app].
  pose proof Hds as Hds'. cbn in Hds'.
  apply andb_true_iff in Hds' as [Hd _]. rewrite Hd. cbn [negb].
  unfold strtol. change (d :: ds ++ [Byte.x29]) with ((d :: ds) ++ [Byte.x29]).
  rewrite strtol_digits_app by (auto using is_digit_paren).
  fold (decimal (d :: ds)).
  assert (0 <= decimal (d :: ds)) by (apply decimal_from_nonneg; [lia|done]).
  destruct (Z.ltb_spec (Z.min (decimal (d :: ds)) LONG_MAX) 0) as [Hneg|_].
  { unfold LONG_MAX in Hneg. lia. }
  reflexivity.
Qed.

Ltac no_match := let H := fresh in intros H; exfalso; apply H; reflexivity.

Lemma get_clone_base_matched fname :
  get_clone_base fname <> 0 -> base_form fname = true.
Proof.
  unfold get_clone_base.
  change (Z.of_nat (length (cstr "base("))) with 5.
  change (Z.to_nat 5) with 5%nat.
  destruct (Z.of_nat (length fname) <=? 5); [no_match|].
  destruct (bytes_eqb (take 5 fname) (cstr "base(")) eqn:Ep; [|no_match].
  cbn [negb]. destruct (drop 5 fname) as [|c start] eqn:Es; [no_match|].
  destruct (is_digit c) eqn:Ec; [|no_match]. cbn [negb]. unfold strtol.
  destruct (strtol_digits 0 (c :: start)) as [v digit_end] eqn:Et.
  destruct (Z.min v LONG_MAX <? 0); [no_match|].
  destruct digit_end as [|c' [|]]; try no_match.
  destruct (is_char c' ")") eqn:Ec'; [|no_match]. intros _.
  apply strtol_digits_split in Et as (ds & Eds & Hds & _).
  unfold base_form, base_arg, starts_with.
  change (length (cstr "base(")) with 5%nat.
  rewrite Ep, Es, Eds, rev_app_distr. cbn [rev app]. rewrite Ec'.
  rewrite rev_involutive, Hds.
  destruct ds as [|d ds]; [|reflexivity].
  cbn in Eds. injection Eds as -> ->.
  apply (is_char_eq c' ")" _ eq_refl) in Ec'. subst c'. discriminate Ec.
Qed.

Lemma get_clone_base_malformed fname :
  base_form fname = false -> get_clone_base fname = 0.
Proof.
  intros Hf. destruct (Z.eq_dec (get_clone_base fname) 0) as [E|E]; [exact E|].
  apply get_clone_base_matched in E. congruence.
Qed.

Lemma starts_with_base_not_clone_all fname :
  starts_with (cstr "base(") fname = true ->
  bytes_eqb fname (cstr "clone_all") = false.
Proof.
  unfold starts_with. intros Hp. apply bytes_eqb_eq in Hp.
  destruct (bytes_eqb fname (cstr "clone_all")) eqn:E; [|reflexivity].
  apply bytes_eqb_eq in E. subst fname. discriminate.
Qed.

Lemma empty_replicate n : empty (replicate n 0) = true.
Proof. induction n as [|n IH]; [reflexivity|exact IH]. Qed.

Lemma to_int_id z : - 2 ^ 31 <= z < 2 ^ 31 -> to_int z = z.
Proof. intros Hz. unfold to_int. rewrite Z.mod_small; lia. Qed.

Section ParserFacts.

Variable n : nat.
Variable JL_TARGET_CLONE_ALL : Z.
Variable feature_cb : bytes -> list Z -> bool * list Z.

Abbreviation on_feature' := (on_feature JL_TARGET_CLONE_ALL feature_cb).
Abbreviation parse' := (parse_cmdline n JL_TARGET_CLONE_ALL feature_cb).

(** Claim C7, amended.  A token that begins with [base(] but is not
    [base(k)] for a decimal [k] (a non-digit in the index, a missing or
    misplaced closing parenthesis, text after the parenthesis) is no
    match for [get_clone_base], and [parse_cmdline] raises no error for
    it: the token takes the feature branch, where it goes to the callback
    and, when unknown, to [ext_features]. *)
Theorem malformed_base_forwarded disable fname res arg :
  starts_with (cstr "base(") fname = true ->
  base_form fname = false ->
  get_clone_base fname = 0 /\
  on_feature' disable fname res arg = Ok (feature_token feature_cb disable fname arg).
Proof.
  intros Hp Hf. pose proof (get_clone_base_malformed fname Hf) as H0.
  split; [exact H0|]. unfold on_feature.
  rewrite (starts_with_base_not_clone_all fname Hp), H0. reflexivity.
Qed.

(** Claim C8.  A token that is not [clone_all], not of the form
    [base(k)] and not known to the feature callback raises no error: it is
    appended to [ext_features] behind its polarity sign, after a comma
    when [ext_features] is not empty.  For a callback that does not know
    [future_isa_x], parsing ["generic,+future_isa_x"] gives one target with
    empty [en.features] and [ext_features = "+future_isa_x"]. *)
Theorem unknown_token_forwarded :
  (forall (disable : bool) (fname : bytes) (res : list TargetData)
          (arg : TargetData) (list' : list Z),
     bytes_eqb fname (cstr "clone_all") = false ->
     base_form fname = false ->
     feature_cb fname
       (if disable then arg.(dis_features) else arg.(en_features))
       = (false, list') ->
     on_feature' disable fname res arg =
       Ok {| name := arg.(name);
             ext_features := ext_appended disable fname arg.(ext_features);
             en_features := if disable then arg.(en_features) else list';
             en_flags := arg.(en_flags);
             dis_features := if disable then list' else arg.(dis_features);
             dis_flags := arg.(dis_flags);
             Target.base := arg.(Target.base) |}) /\
  (feature_cb (cstr "future_isa_x") (replicate n 0) = (false, replicate n 0) ->
   parse' (Some (cstr "generic,+future_isa_x")) =
     Ok [{| name := cstr "generic";
            ext_features := cstr "+future_isa_x";
            en_features := replicate n 0; en_flags := 0;
            dis_features := replicate n 0; dis_flags := 0;
            Target.base := 0 |}] /\
   empty (replicate n 0) = true).
Proof.
  split.
  - intros disable fname res arg list' Hca Hf Hcb. unfold on_feature.
    rewrite Hca, (get_clone_base_malformed fname Hf). cbn [Z.eqb negb].
    unfold feature_token. rewrite Hcb. cbn [negb]. unfold ext_appended.
    destruct (bytes_eqb (ext_features arg) []) eqn:E; cbn [negb]; [|reflexivity].
    apply bytes_eqb_eq in E. rewrite E. reflexivity.
  - intros Hcb. split.
    + vm_compute in Hcb. vm_compute. rewrite Hcb. reflexivity.
    + apply empty_replicate.
Qed.

(** A [base(k)] token whose index fits an [int]: the three errors, and
    [arg.base = k] otherwise. *)
Lemma base_token_in_int_range disable ds res arg :
  ds <> [] -> forallb is_digit ds = true ->
  decimal ds <= 2 ^ 31 - 2 -> Z.of_nat (length res) < 2 ^ 31 ->
  on_feature' disable (cstr "base(" ++ ds ++ cstr ")") res arg =
    if disable then Err (Fatal "Invalid target option: disabled base index.")
    else if decimal ds >=? Z.of_nat (length res) then
      Err (Fatal "Invalid target option: base index must refer to a previous target.")
    else
      match res !! Z.to_nat (decimal ds) with
      | Some t =>
          if negb (Z.land t.(dis_flags) JL_TARGET_CLONE_ALL =? 0)
             || (Z.land t.(en_flags) JL_TARGET_CLONE_ALL =? 0)
          then Err (Fatal "Invalid target option: base target must be clone_all.")
          else Ok {| name := arg.(name); ext_features := arg.(ext_features);
                     en_features := arg.(en_features);
                     en_flags := arg.(en_flags);
                     dis_features := arg.(dis_features);
                     dis_flags := arg.(dis_flags);
                     Target.base := decimal ds |}
      | None => Err OutOfBounds
      end.
Proof.
  intros Hne Hds Hk Hres. unfold on_feature.
  rewrite starts_with_base_not_clone_all by reflexivity.
  rewrite get_clone_base_shape by done.
  assert (0 <= decimal ds) as Hk0 by (apply decimal_from_nonneg; [lia|done]).
  rewrite Z.min_l by (unfold LONG_MAX; lia).
  rewrite (to_int_id (decimal ds)) by lia.
  rewrite (to_int_id (decimal ds + 1)) by lia.
  destruct (Z.eqb_spec (decimal ds + 1) 0) as [|_]; [lia|]. cbn [negb].
  destruct disable; [reflexivity|].
  replace (decimal ds + 1 - 1) with (decimal ds) by lia.
  rewrite (to_int_id (decimal ds)) by lia.
  rewrite (to_int_id (Z.of_nat (length res))) by lia.
  destruct (decimal ds >=? Z.of_nat (length res)); [reflexivity|].
  unfold load. destruct (Z.ltb_spec (decimal ds) 0); [lia|].
  destruct (res !! Z.to_nat (decimal ds)); reflexivity.
Qed.

(** The scenario of the specification. *)
Lemma base_5_rejected :
  parse' (Some (cstr "generic;haswell,base(5)")) =
    Err (Fatal "Invalid target option: base index must refer to a previous target.").
Proof. vm_compute. reflexivity. Qed.

End ParserFacts.

Section Tokens.

Variable n : nat.
Variable JL_TARGET_CLONE_ALL : Z.
Variable feature_cb : bytes -> list Z -> bool * list Z.

(** The loop hands the bytes up to the next delimiter to [on_delimiter],
    and goes on behind the delimiter unless it is the terminator. *)
Lemma parse_loop_token tok : forall c rest seg res arg,
  forallb (fun b => negb (is_delimiter b)) tok = true ->
  is_delimiter c = true ->
  parse_loop n JL_TARGET_CLONE_ALL feature_cb (tok ++ c :: rest) seg res arg =
    do '(res', arg', done) <-
      on_delimiter n JL_TARGET_CLONE_ALL feature_cb c (seg ++ tok) res arg;
    if done then Ok res'
    else parse_loop n JL_TARGET_CLONE_ALL feature_cb rest [] res' arg'.
Proof.
  induction tok as [|b tok IH]; intros c rest seg res arg Htok Hc.
  - cbn [app parse_loop]. unfold is_delimiter in Hc. rewrite Hc.
    now rewrite app_nil_r.
  - cbn in Htok. apply andb_true_iff in Htok as [Hb Htok].
    apply negb_true_iff in Hb. unfold is_delimiter in Hb.
    cbn [app parse_loop]. rewrite Hb, IH by done.
    now rewrite <- app_assoc.
Qed.

(** The last token of the string. *)
Lemma parse_loop_last tok : forall seg res arg,
  forallb (fun b => negb (is_delimiter b)) tok = true ->
  parse_loop n JL_TARGET_CLONE_ALL feature_cb tok seg res arg =
    do '(res', _, _) <-
      on_delimiter n JL_TARGET_CLONE_ALL feature_cb Byte.x00 (seg ++ tok) res arg;
    Ok res'.
Proof.
  induction tok as [|b tok IH]; intros seg res arg Htok.
  - cbn [parse_loop]. now rewrite app_nil_r.
  - cbn in Htok. apply andb_true_iff in Htok as [Hb Htok].
    apply negb_true_iff in Hb. unfold is_delimiter in Hb.
    cbn [parse_loop]. rewrite Hb, IH by done.
    now rewrite <- app_assoc.
Qed.

(** After the CPU name, a token [sign ++ fname] goes to [on_feature] with
    the polarity of its sign. *)
Lemma on_delimiter_feature c sign fname res arg :
  is_delimiter c = true ->
  arg.(name) <> [] ->
  (sign = cstr "-" \/ sign = cstr "+" \/
   sign = [] /\ is_char (hd c fname) "-" = false /\
                is_char (hd c fname) "+" = false) ->
  on_delimiter n JL_TARGET_CLONE_ALL feature_cb c (sign ++ fname) res arg =
    do arg' <- on_feature JL_TARGET_CLONE_ALL feature_cb
                 (bytes_eqb sign (cstr "-")) fname res arg;
    let next_target := is_char c ";" || Byte.eqb c Byte.x00 in
    let '(res', arg'') := if next_target then reset_arg n res arg'
                          else (res, arg') in
    Ok (res', arg'', Byte.eqb c Byte.x00).
Proof.
  intros Hc Hname Hsign. unfold on_delimiter.
  destruct (bytes_eqb (name arg) []) eqn:En.
  { destruct (name arg); [contradiction|discriminate]. }
  destruct Hsign as [->|[->|(-> & Hm & Hp)]].
  - reflexivity.
  - reflexivity.
  - cbn [app]. rewrite Hm, Hp. reflexivity.
Qed.

End Tokens.

(** Claim C6 at [base(4294967296)].  With a 64-bit [long], [strtol]
    returns 4294967296, the conversion to [int] leaves 0, and the token
    is taken as [base(0)]: no error is raised although the index is not
    that of a previous target. *)
Theorem base_index_truncated n feature_cb :
  parse_cmdline n 1 feature_cb
    (Some (cstr "generic,clone_all;haswell,base(4294967296)")) =
  Ok [{| name := cstr "generic"; ext_features := [];
         en_features := replicate n 0; en_flags := 1;
         dis_features := replicate n 0; dis_flags := 0;
         Target.base := 0 |};
      {| name := cstr "haswell"; ext_features := [];
         en_features := replicate n 0; en_flags := 0;
         dis_features := replicate n 0; dis_flags := 0;
         Target.base := 0 |}].
Proof. vm_compute. reflexivity. Qed.

(** The same conversion makes [base(4294967295)] no match at all (the
    token goes to [ext_features]) and [base(2147483648)] an index of
    [-2147483648] into [res]. *)
Lemma base_index_unmatched :
  parse_cmdline 1 1 unknown_cb (Some (cstr "generic;haswell,base(4294967295)")) =
  Ok [{| name := cstr "generic"; ext_features := [];
         en_features := [0]; en_flags := 0;
         dis_features := [0]; dis_flags := 0; Target.base := 0 |};
      {| name := cstr "haswell"; ext_features := cstr "+base(4294967295)";
         en_features := [0]; en_flags := 0;
         dis_features := [0]; dis_flags := 0; Target.base := 0 |}].
Proof. vm_compute. reflexivity. Qed.

Lemma base_index_negative n feature_cb :
  parse_cmdline n 1 feature_cb
    (Some (cstr "generic;haswell,base(2147483648)")) = Err OutOfBounds.
Proof. vm_compute. reflexivity. Qed.

(** Claim C7 as stated fails: three malformed [base(] tokens are parsed
    without an error and end up in [ext_features]. *)
Lemma malformed_base_accepted :
  parse_cmdline 1 1 unknown_cb (Some (cstr "generic,base(x),-base(1,base(7)y")) =
  Ok [{| name := cstr "generic";
         ext_features := cstr "+base(x),-base(1,+base(7)y";
         en_features := [0]; en_flags := 0;
         dis_features := [0]; dis_flags := 0;
         Target.base := 0 |}].
Proof. vm_compute. reflexivity. Qed.

(** ** The relocation pass *)

Lemma flat_pairs_lookup (tbl : list (Z * Z)) : forall j e,
  tbl !! j = Some e ->
  flat_map pair_words tbl !! (2 * j)%nat = Some e.1 /\
  flat_map pair_words tbl !! (2 * j + 1)%nat = Some e.2.
Proof.
  induction tbl as [|e0 tbl IH]; intros j e; [now rewrite lookup_nil|].
  destruct j as [|j]; cbn [flat_map pair_words app].
  - intros [= ->]. split; reflexivity.
  - intros Hj. cbn in Hj. destruct (IH j e Hj) as [H1 H2].
    replace (2 * S j)%nat with (S (S (2 * j))) by lia.
    replace (S (S (2 * j)) + 1)%nat with (S (S (2 * j + 1))) by lia.
    split; assumption.
Qed.

(** *** Pointers in the data section *)

Lemma map_nth_seq (l : list byte) d :
  map (fun k => nth k l d) (seq 0 (length l)) = l.
Proof.
  induction l as [|x l IH]; [reflexivity|]. cbn [length seq map nth].
  f_equal. rewrite <- seq_shift, map_map. exact IH.
Qed.

Lemma write_slot_frame data s v o :
  ~ (s <= o < s + Z.of_nat ptr_size) -> write_slot data s v o = data o.
Proof.
  intros H. unfold write_slot.
  destruct (Z.leb_spec s o), (Z.ltb_spec o (s + Z.of_nat ptr_size));
    cbn [andb]; try reflexivity. lia.
Qed.

Lemma write_slot_inside data s v (k : nat) :
  (k < ptr_size)%nat ->
  write_slot data s v (s + Z.of_nat k) = nth k (le_split ptr_size v) Byte.x00.
Proof.
  intros Hk. unfold write_slot.
  destruct (Z.leb_spec s (s + Z.of_nat k)); [|lia].
  destruct (Z.ltb_spec (s + Z.of_nat k) (s + Z.of_nat ptr_size)); [|lia].
  cbn [andb]. f_equal. lia.
Qed.

Lemma read_slot_ext (d1 d2 : data_section) s :
  (forall o, s <= o < s + Z.of_nat ptr_size -> d1 o = d2 o) ->
  read_slot d1 s = read_slot d2 s.
Proof.
  intros H. unfold read_slot. f_equal. apply map_ext_in. intros k Hk.
  apply in_seq in Hk. apply H. lia.
Qed.

Lemma read_write_same data s v : read_slot (write_slot data s v) s = to_ptr v.
Proof.
  unfold read_slot, to_ptr.
  rewrite (map_ext_in _ (fun k => nth k (le_split ptr_size v) Byte.x00)).
  - replace (seq 0 ptr_size)
      with (seq 0 (length (le_split ptr_size v)))
      by (now rewrite length_le_split).
    rewrite map_nth_seq, le_combine_split. reflexivity.
  - intros k Hk. apply in_seq in Hk. apply write_slot_inside. lia.
Qed.

Lemma apart_overlap s1 s2 o :
  apart s1 s2 -> s1 <> s2 ->
  s1 <= o < s1 + Z.of_nat ptr_size -> ~ (s2 <= o < s2 + Z.of_nat ptr_size).
Proof. intros [?|H] Hne Ho; [contradiction|]. lia. Qed.

Lemma read_write_apart data s v s' :
  apart s' s -> s' <> s ->
  read_slot (write_slot data s v) s' = read_slot data s'.
Proof.
  intros Ha Hne. apply read_slot_ext. intros o Ho.
  apply write_slot_frame. now apply (apart_overlap s' s).
Qed.

Lemma read_write_keeps data s v s' :
  apart s' s -> read_slot data s' = to_ptr v ->
  read_slot (write_slot data s v) s' = to_ptr v.
Proof.
  intros Ha H. destruct (Z.eq_dec s' s) as [->|Hne].
  - apply read_write_same.
  - now rewrite read_write_apart.
Qed.

(** *** The scan of the table *)

Lemma scan_table_spec idx target : forall l found data rest found' data',
  scan_table idx target l found data = (rest, found', data') ->
  exists pre, l = pre ++ rest /\
    Forall (fun e => e.1 <= idx) pre /\
    (forall e rest', rest = e :: rest' -> idx < e.1) /\
    (found' = true -> found = true \/ exists e, In e pre /\ e.1 = idx) /\
    (forall o,
       (forall e, In e pre -> e.1 = idx ->
          ~ (e.2 <= o < e.2 + Z.of_nat ptr_size)) ->
       data' o = data o) /\
    (forall slot,
       read_slot data slot = to_ptr target ->
       (forall e, In e pre -> e.1 = idx -> apart slot e.2) ->
       read_slot data' slot = to_ptr target) /\
    (forall e, In e pre -> e.1 = idx ->
       (forall e', In e' pre -> e'.1 = idx -> apart e.2 e'.2) ->
       read_slot data' e.2 = to_ptr target).
Proof.
  induction l as [|e l IH]; intros found data rest found' data'; cbn [scan_table].
  - intros [= <- <- <-]. exists []. repeat apply conj; auto.
    + discriminate.
    + intros e [].
  - destruct (Z.eqb_spec e.1 idx) as [Heq|Hne].
    + intros H.
      destruct (IH _ _ _ _ _ H) as (pre & -> & Hle & Hhd & Hf & Hfr & Hk & Hw).
      exists (e :: pre). repeat apply conj.
      * reflexivity.
      * constructor; [lia|done].
      * exact Hhd.
      * intros _. right. exists e. split; [now left|done].
      * intros o Ho. rewrite Hfr by (intros e' He'; apply Ho; now right).
        apply write_slot_frame. apply Ho; [now left|exact Heq].
      * intros slot Hs Ha. apply Hk.
        -- apply read_write_keeps; [|exact Hs]. apply Ha; [now left|exact Heq].
        -- intros e' He'. apply Ha. now right.
      * intros e' [<-|Hin] He' Ha.
        -- apply Hk; [apply read_write_same|].
           intros e' He'' Hi. apply Ha; [now right|exact Hi].
        -- apply Hw; auto. intros e'' He''. apply Ha. now right.
    + destruct (Z.gtb_spec e.1 idx) as [Hgt|Hle'].
      * intros [= <- <- <-]. exists []. repeat apply conj; auto.
        -- intros e' rest' [= <- _]. lia.
        -- intros e' [].
      * intros H.
        destruct (IH _ _ _ _ _ H) as (pre & -> & Hle & Hhd & Hf & Hfr & Hk & Hw).
        exists (e :: pre). repeat apply conj.
        -- reflexivity.
        -- constructor; [lia|done].
        -- exact Hhd.
        -- intros Hf'. destruct (Hf Hf') as [?|(e' & ? & ?)]; [now left|].
           right. exists e'. split; [now right|done].
        -- intros o Ho. apply Hfr. intros e' He'. apply Ho. now right.
        -- intros slot Hs Ha. apply Hk; [exact Hs|].
           intros e' He'. apply Ha. now right.
        -- intros e' [<-|Hin] He' Ha; [contradiction|].
           apply Hw; auto. intros e'' He''. apply Ha. now right.
Qed.

Section Table.

Variable img : image.
Variable tbl : list (Z * Z).
Hypothesis Henc : img.(jl_dispatch_reloc_slots) = reloc_words tbl.
Hypothesis Hsmall : Z.of_nat (length tbl) < 2 ^ 31.

Lemma load_nreloc : load img.(jl_dispatch_reloc_slots) 0 = Ok (Z.of_nat (length tbl)).
Proof. rewrite Henc. reflexivity. Qed.

Lemma load_entry (j : nat) e :
  tbl !! j = Some e ->
  load img.(jl_dispatch_reloc_slots) (1 + to_u32 (Z.of_nat j * 2)) = Ok e.1 /\
  load img.(jl_dispatch_reloc_slots) (1 + to_u32 (Z.of_nat j * 2 + 1)) = Ok e.2.
Proof.
  intros Hj. pose proof (lookup_lt_Some _ _ _ Hj) as Hlt.
  destruct (flat_pairs_lookup tbl j e Hj) as [H1 H2].
  rewrite !to_u32_id by (unfold is_u32; lia). rewrite Henc. unfold reloc_words.
  split; apply load_some; try lia.
  - replace (Z.to_nat (1 + Z.of_nat j * 2)) with (S (2 * j)) by lia. exact H1.
  - replace (Z.to_nat (1 + (Z.of_nat j * 2 + 1))) with (S (2 * j + 1)) by lia.
    exact H2.
Qed.

Lemma scan_slots_table idx target : forall l r found data,
  (r <= length tbl)%nat -> drop r tbl = l ->
  scan_slots img (length l) idx target (Z.of_nat r) found data =
  Ok (let '(rest, f, d) := scan_table idx target l found data in
      (Z.of_nat (length tbl - length rest), f, d)).
Proof.
  induction l as [|e l IH]; intros r found data Hr Hdrop.
  - cbn. do 3 f_equal. assert (length (drop r tbl) = 0%nat) as Hl by now rewrite Hdrop.
    rewrite length_drop in Hl. lia.
  - assert (Hlen : length (drop r tbl) = S (length l)) by now rewrite Hdrop.
    rewrite length_drop in Hlen.
    assert (Hj : tbl !! r = Some e).
    { rewrite <- (Nat.add_0_r r), <- lookup_drop, Hdrop. reflexivity. }
    assert (Hd' : drop (S r) tbl = l).
    { rewrite <- Nat.add_1_r, <- drop_drop, Hdrop. reflexivity. }
    destruct (load_entry r e Hj) as [H1 H2].
    cbn [scan_slots length scan_table]. rewrite H1. cbn [bind].
    destruct (e.1 =? idx).
    + rewrite H2. cbn [bind].
      replace (Z.of_nat r + 1) with (Z.of_nat (S r)) by lia.
      apply IH; [lia|done].
    + destruct (e.1 >? idx).
      * cbn [length]. do 3 f_equal. lia.
      * replace (Z.of_nat r + 1) with (Z.of_nat (S r)) by lia.
        apply IH; [lia|done].
Qed.

Hypothesis Hsorted : StronglySorted index_le tbl.
Hypothesis Hdistinct : slots_distinct tbl.
Hypothesis Hapart : slots_apart tbl.

Lemma after_greater (pre rest : list (Z * Z)) idx e :
  StronglySorted index_le (pre ++ rest) ->
  (forall e' rest', rest = e' :: rest' -> idx < e'.1) ->
  In e rest -> idx < e.1.
Proof.
  intros Hs Hhd He. apply StronglySorted_app_1_r in Hs.
  destruct rest as [|h rest']; [destruct He|].
  specialize (Hhd h rest' eq_refl).
  apply StronglySorted_inv in Hs as [_ Hall].
  destruct He as [<-|He]; [done|].
  rewrite Forall_forall in Hall. apply list_elem_of_In in He.
  specialize (Hall e He). unfold index_le in Hall. lia.
Qed.

Lemma in_drop_in (r : nat) (e : Z * Z) : In e (drop r tbl) -> In e tbl.
Proof.
  intros H. rewrite <- (take_drop r tbl). apply in_or_app. now right.
Qed.

Lemma relocate_spec clone_all res ci co : forall count i r data data',
  (r <= length tbl)%nat -> separated tbl r ->
  relocate img (Z.of_nat (length tbl)) clone_all res ci co count i
    (Z.of_nat r) data = Ok data' ->
  (forall o,
     (forall e, In e (drop r tbl) -> ~ (e.2 <= o < e.2 + Z.of_nat ptr_size)) ->
     data' o = data o) /\
  (forall i', i <= i' < i + Z.of_nat count ->
     exists p, override img clone_all res ci co i' = Ok p /\
       forall idx off, p = Some (idx, off) ->
         (exists slot, In (idx, slot) tbl) /\
         (forall slot, In (idx, slot) tbl ->
            read_slot data' slot = to_ptr (off + res.(Sysimg.base)))) /\
  (forall o,
     (forall i' idx off slot, i <= i' < i + Z.of_nat count ->
        override img clone_all res ci co i' = Ok (Some (idx, off)) ->
        In (idx, slot) tbl ->
        ~ (slot <= o < slot + Z.of_nat ptr_size)) ->
     data' o = data o).
Proof.
  induction count as [|count IH]; intros i r data data' Hr Hsep; cbn [relocate].
  { intros [= <-]. split; [reflexivity|]. split; [|reflexivity].
    intros i' Hi'. lia. }
  destruct (override img clone_all res ci co i) as [p|] eqn:Eo; [|discriminate].
  cbn [bind]. destruct p as [[idx off]|].
  2:{ intros H. destruct (IH _ _ _ _ Hr Hsep H) as (HA & HB & HC).
      split; [exact HA|]. split.
      - intros i' Hi'. destruct (Z.eq_dec i' i) as [->|Hne].
        + exists None. split; [exact Eo|discriminate].
        + apply HB. lia.
      - intros o Ho. apply HC. intros i' idx off slot Hi'. apply Ho. lia. }
  replace (Z.to_nat (Z.of_nat (length tbl) - Z.of_nat r))
    with (length (drop r tbl)) by (rewrite length_drop; lia).
  rewrite (scan_slots_table idx (off + res.(Sysimg.base)) (drop r tbl) r) by done.
  destruct (scan_table idx (off + res.(Sysimg.base)) (drop r tbl) false data)
    as [[rest found] d] eqn:Es.
  cbn [bind]. destruct found; [|discriminate]. cbn [negb].
  destruct (scan_table_spec _ _ _ _ _ _ _ _ Es)
    as (pre & Hsplit & Hle & Hhd & Hf & Hfr & _ & Hw).
  destruct (Hf eq_refl) as [?|(e0 & He0 & He0i)]; [discriminate|].
  set (A := take r tbl ++ pre).
  assert (Htbl : tbl = A ++ rest).
  { unfold A. rewrite <- app_assoc, <- Hsplit. symmetry. apply take_drop. }
  assert (Hr' : (length tbl - length rest)%nat = length A).
  { rewrite Htbl at 1. rewrite length_app. lia. }
  rewrite Hr'.
  assert (Htake : take (length A) tbl = A) by (rewrite Htbl at 1; apply take_app_length).
  assert (Hdrop : drop (length A) tbl = rest) by (rewrite Htbl at 1; apply drop_app_length).
  assert (Hgt : forall e, In e rest -> idx < e.1).
  { intros e He. apply (after_greater A rest); auto. now rewrite <- Htbl. }
  assert (Hpre : forall e, In e pre -> In e (drop r tbl)).
  { intros e He. rewrite Hsplit. apply in_or_app. now left. }
  assert (Hrest : forall e, In e rest -> In e (drop r tbl)).
  { intros e He. rewrite Hsplit. apply in_or_app. now right. }
  assert (Hsep' : separated tbl (length A)).
  { intros e1 e2. rewrite Htake, Hdrop. unfold A. intros H1 H2.
    apply in_app_or in H1 as [H1|H1].
    - apply Hsep; auto.
    - rewrite Forall_forall in Hle. apply list_elem_of_In in H1.
      specialize (Hle e1 H1). specialize (Hgt e2 H2). cbn in Hle. lia. }
  intros H.
  assert (Hlen : (length A <= length tbl)%nat) by lia.
  destruct (IH _ _ _ _ Hlen Hsep' H) as (HA & HB & HC). rewrite Hdrop in HA.
  split; [|split].
  - intros o Ho. rewrite HA by (intros e He; apply Ho; auto).
    apply Hfr. intros e He _. apply Ho; auto.
  - intros i' Hi'. destruct (Z.eq_dec i' i) as [->|Hne]; [|apply HB; lia].
    exists (Some (idx, off)). split; [exact Eo|]. intros idx' off' [= <- <-].
    split.
    + exists e0.2. rewrite <- He0i, <- surjective_pairing.
      apply (in_drop_in r). auto.
    + intros slot Hin. pose proof Hin as Hin0. rewrite Htbl in Hin. unfold A in Hin.
      apply in_app_or in Hin as [Hin|Hin]; [apply in_app_or in Hin as [Hin|Hin]|].
      * specialize (Hsep _ _ Hin (Hpre _ He0)). cbn in Hsep. lia.
      * rewrite <- (Hw (idx, slot) Hin eq_refl).
        -- apply read_slot_ext. intros o Ho. apply HA. intros e He.
           apply (apart_overlap slot e.2); [| |exact Ho].
           ++ apply (Hapart (idx, slot) e); [exact Hin0|].
              apply (in_drop_in r). auto.
           ++ intros Hes. specialize (Hgt e He).
              assert (e.1 = idx); [|lia].
              apply (Hdistinct e (idx, slot)); auto.
              apply (in_drop_in r). auto.
        -- intros e' He' _. apply (Hapart (idx, slot) e'); [exact Hin0|].
           apply (in_drop_in r). auto.
      * specialize (Hgt _ Hin). cbn in Hgt. lia.
  - intros o Ho.
    rewrite HC by (intros i' idx' off' slot Hi'; apply Ho; lia).
    apply Hfr. intros e He Hei. apply (Ho i idx off e.2); [lia|exact Eo|].
    rewrite <- Hei, <- surjective_pairing. apply (in_drop_in r). auto.
Qed.

Lemma separated_0 : separated tbl 0.
Proof. intros e1 e2 H1. rewrite take_0 in H1. destruct H1. Qed.

End Table.

(** ** The walk to the target *)

Lemma testbit_tag_mask i : 0 <= i -> Z.testbit tag_mask i = (i =? 31).
Proof.
  intros Hi. change tag_mask with (2 ^ 31).
  rewrite Z.pow2_bits_eqb by lia. apply Z.eqb_sym.
Qed.

Lemma testbit_val_mask i : 0 <= i -> Z.testbit val_mask i = (i <? 31).
Proof.
  intros Hi. unfold val_mask. rewrite testbit_not32, testbit_tag_mask by lia.
  destruct (Z.ltb_spec i 32), (Z.eqb_spec i 31), (Z.ltb_spec i 31);
    cbn; (reflexivity || lia).
Qed.

Lemma testbit_length n i :
  0 <= n < 2 ^ 31 -> 31 <= i -> Z.testbit n i = false.
Proof.
  intros Hn Hi. destruct (Z.eq_dec n 0) as [->|Hne]; [apply Z.bits_0|].
  apply Z.bits_above_log2; [lia|].
  assert (Z.log2 n < 31) by (apply Z.log2_lt_pow2; lia). lia.
Qed.

(** The tag word of a [clone_all] target. *)
Lemma tag_clone n :
  0 <= n < 2 ^ 31 ->
  Z.land (Z.lor tag_mask n) tag_mask <> 0 /\
  Z.land tag_mask (Z.lor tag_mask n) <> 0 /\
  Z.land val_mask (Z.lor tag_mask n) = n.
Proof.
  intros Hn.
  assert (Ht : Z.land tag_mask (Z.lor tag_mask n) = tag_mask).
  { apply Z.bits_inj'. intros i Hi.
    rewrite Z.land_spec, Z.lor_spec. now destruct (Z.testbit tag_mask i). }
  repeat apply conj.
  - rewrite Z.land_comm, Ht. discriminate.
  - rewrite Ht. discriminate.
  - apply Z.bits_inj'. intros i Hi.
    rewrite Z.land_spec, Z.lor_spec, testbit_val_mask, testbit_tag_mask by lia.
    destruct (Z.ltb_spec i 31).
    + destruct (Z.eqb_spec i 31); [lia|reflexivity].
    + now rewrite (testbit_length n i) by lia.
Qed.

(** The tag word of a sparse target. *)
Lemma tag_sparse n :
  0 <= n < 2 ^ 31 ->
  Z.land n tag_mask = 0 /\ Z.land tag_mask n = 0 /\ Z.land val_mask n = n.
Proof.
  intros Hn.
  assert (Ht : Z.land tag_mask n = 0).
  { apply Z.bits_inj'. intros i Hi.
    rewrite Z.land_spec, Z.bits_0, testbit_tag_mask by lia.
    destruct (Z.eqb_spec i 31) as [->|]; [|reflexivity].
    now rewrite (testbit_length n 31) by lia. }
  repeat apply conj.
  - now rewrite Z.land_comm.
  - exact Ht.
  - apply Z.bits_inj'. intros i Hi.
    rewrite Z.land_spec, testbit_val_mask by lia.
    destruct (Z.ltb_spec i 31); [reflexivity|].
    now rewrite (testbit_length n i) by lia.
Qed.

(** Word [j] of entry [k] of a list of records laid end to end. *)
Lemma flat_map_lookup {A B} (f : A -> list B) (l : list A) (k j : nat) x :
  l !! k = Some x ->
  flat_map f l !! (length (flat_map f (take k l)) + j)%nat =
  match f x !! j with
  | Some y => Some y
  | None => flat_map f (drop (S k) l) !! (j - length (f x))%nat
  end.
Proof.
  intros Hk.
  assert (E : flat_map f l
              = flat_map f (take k l) ++ f x ++ flat_map f (drop (S k) l)).
  { rewrite <- (take_drop_middle l k x Hk) at 1. now rewrite flat_map_app. }
  rewrite E, lookup_app_r by lia.
  replace (length (flat_map f (take k l)) + j
           - length (flat_map f (take k l)))%nat with j by lia.
  destruct (f x !! j) as [y|] eqn:Ej.
  - now apply lookup_app_l_Some.
  - apply lookup_ge_None in Ej. now rewrite lookup_app_r by lia.
Qed.

Lemma flat_map_take_S {A B} (f : A -> list B) (l : list A) (k : nat) x :
  l !! k = Some x ->
  length (flat_map f (take (S k) l)) =
  (length (flat_map f (take k l)) + length (f x))%nat.
Proof.
  intros Hk. rewrite (take_S_r l k x Hk), flat_map_app, length_app.
  cbn [flat_map]. now rewrite app_nil_r.
Qed.

Section Layout.

Variable img : image.
Variable nfunc : Z.
Variable targets : list target_list.
Hypothesis Hlaid : laid_out img nfunc targets.

Lemma load_nfunc : load img.(jl_sysimg_fvars_offsets) 0 = Ok nfunc.
Proof. destruct Hlaid as (H & _). now apply load_some. Qed.

Lemma target_fits k t :
  targets !! k = Some t ->
  0 <= Z.of_nat (length (list_idxs t)) < 2 ^ 31 /\ offsets_fit nfunc k t.
Proof.
  intros Hk. destruct Hlaid as (_ & _ & _ & _ & H).
  destruct (H k t Hk). split; [lia|assumption].
Qed.

(** The words of target [k] in [jl_dispatch_fvars_idxs], counted from its
    tag word. *)
Lemma load_idx_word k t (j : nat) w :
  targets !! k = Some t -> idx_words t !! j = Some w ->
  load img.(jl_dispatch_fvars_idxs) (idxs_pos targets k - 1 + Z.of_nat j)
  = Ok w.
Proof.
  intros Hk Hj. destruct Hlaid as (_ & _ & -> & _). apply load_some.
  - unfold idxs_pos. lia.
  - unfold idxs_pos.
    replace (Z.to_nat _)
      with (length (flat_map idx_words (take k targets)) + j)%nat by lia.
    now rewrite (flat_map_lookup _ _ _ _ t Hk), Hj.
Qed.

(** The offsets of target [k] in [jl_dispatch_fvars_offsets]. *)
Lemma load_offset_word k t (j : nat) w :
  targets !! k = Some t -> list_offsets t !! j = Some w ->
  load img.(jl_dispatch_fvars_offsets) (offs_pos targets k + Z.of_nat j)
  = Ok w.
Proof.
  intros Hk Hj. destruct Hlaid as (_ & _ & _ & -> & _). apply load_some.
  - unfold offs_pos. lia.
  - unfold offs_pos.
    replace (Z.to_nat _)
      with (length (flat_map list_offsets (take k targets)) + j)%nat by lia.
    now rewrite (flat_map_lookup _ _ _ _ t Hk), Hj.
Qed.

Lemma idxs_pos_S k t :
  targets !! k = Some t ->
  idxs_pos targets (S k) = idxs_pos targets k + Z.of_nat (length (idx_words t)).
Proof.
  intros Hk. unfold idxs_pos. rewrite (flat_map_take_S _ _ _ t Hk). lia.
Qed.

Lemma offs_pos_S k t :
  targets !! k = Some t ->
  offs_pos targets (S k) = offs_pos targets k + Z.of_nat (length (list_offsets t)).
Proof.
  intros Hk. unfold offs_pos. rewrite (flat_map_take_S _ _ _ t Hk). lia.
Qed.

(** One step of the loop under [// Find target] takes the walk from a
    target to the next. *)
Lemma find_target_step k t t' :
  targets !! k = Some t -> targets !! S k = Some t' ->
  forall count,
  find_target img nfunc (S count) (Z.of_nat k) (cursor_at targets k) =
  find_target img nfunc count (Z.of_nat (S k)) (cursor_at targets (S k)).
Proof.
  intros Hk Hk' count. cbn [find_target].
  destruct (target_fits k t Hk) as [Hn Hfit].
  destruct (target_fits (S k) t' Hk') as [Hn' _].
  assert (P31 : 2 ^ 31 = 2147483648) by reflexivity.
  assert (Hnext : load img.(jl_dispatch_fvars_idxs) (idxs_pos targets (S k) - 1)
                  = Ok (tag_word t')).
  { rewrite <- (Z.add_0_r (_ - 1)). apply (load_idx_word (S k) t' 0 _ Hk').
    now destruct t'. }
  assert (Hbases : map (table_of targets) (seq 0 (S k))
                   ++ [if negb (Z.land (tag_word t') tag_mask =? 0)
                       then InClones (offs_pos targets (S k)) else Null]
                   = map (table_of targets) (seq 0 (S (S k)))).
  { rewrite (seq_S (S k)), map_app. f_equal. cbn [map]. f_equal.
    change (0 + S k)%nat with (S k). unfold table_of. rewrite Hk'.
    destruct t' as [idxs' offs'|b' idxs' offs']; cbn [tag_word list_idxs] in *.
    - destruct (tag_clone _ Hn') as (H1 & _).
      now destruct (Z.eqb_spec (Z.land (Z.lor tag_mask (Z.of_nat (length idxs'))) tag_mask) 0).
    - destruct (tag_sparse _ Hn') as (H1 & _). now rewrite H1. }
  assert (Etag : cur_tag_len (cursor_at targets k) = tag_word t).
  { cbn. now rewrite Hk. }
  rewrite !Etag.
  change (cur_offsets (cursor_at targets k)) with (offs_pos targets k).
  change (cur_idxs (cursor_at targets k)) with (idxs_pos targets k).
  change (cur_bases (cursor_at targets k))
    with (map (table_of targets) (seq 0 (S k))).
  destruct t as [idxs offs|b idxs offs]; cbn [tag_word list_idxs] in *.
  - destruct (tag_clone _ Hn) as (_ & H2 & H3). rewrite H3.
    destruct (Z.eqb_spec (Z.land tag_mask (Z.lor tag_mask (Z.of_nat (length idxs)))) 0);
      [contradiction|]. cbn [negb].
    rewrite to_u32_id by (unfold is_u32; lia).
    assert (Ei : idxs_pos targets k + (Z.of_nat (length idxs) + 1)
                 = idxs_pos targets (S k)).
    { rewrite (idxs_pos_S k _ Hk). cbn [idx_words length]. lia. }
    assert (Eo : (if negb (Z.of_nat k =? 0) then offs_pos targets k + nfunc
                  else offs_pos targets k) = offs_pos targets (S k)).
    { rewrite (offs_pos_S k _ Hk). cbn [list_offsets].
      destruct k as [|k]; cbn [offsets_fit] in Hfit.
      - subst offs. change (Z.of_nat 0 =? 0) with true.
        cbn [negb length]. lia.
      - destruct (Z.eqb_spec (Z.of_nat (S k)) 0); [lia|]. cbn [negb]. lia. }
    rewrite Ei, Eo, Hnext. cbn [bind]. rewrite Hbases.
    replace (Z.of_nat k + 1) with (Z.of_nat (S k)) by lia.
    unfold cursor_at. now rewrite Hk'.
  - destruct (tag_sparse _ Hn) as (_ & H2 & H3). rewrite H2, H3.
    cbn [Z.eqb negb].
    rewrite to_u32_id by (unfold is_u32; lia).
    assert (Ei : idxs_pos targets k + (Z.of_nat (length idxs) + 2)
                 = idxs_pos targets (S k)).
    { rewrite (idxs_pos_S k _ Hk). cbn [idx_words length]. lia. }
    assert (Eo : offs_pos targets k + Z.of_nat (length idxs)
                 = offs_pos targets (S k)).
    { rewrite (offs_pos_S k _ Hk). cbn [list_offsets].
      destruct k as [|k]; cbn [offsets_fit] in Hfit; [contradiction|]. lia. }
    rewrite Ei, Eo, Hnext. cbn [bind]. rewrite Hbases.
    replace (Z.of_nat k + 1) with (Z.of_nat (S k)) by lia.
    unfold cursor_at. now rewrite Hk'.
Qed.

Lemma find_target_spec count : forall k,
  (k + count < length targets)%nat ->
  find_target img nfunc count (Z.of_nat k) (cursor_at targets k) =
  Ok (cursor_at targets (k + count)).
Proof.
  induction count as [|count IH]; intros k Hk.
  - now rewrite Nat.add_0_r.
  - destruct (lookup_lt_is_Some_2 targets k ltac:(lia)) as [t Ht].
    destruct (lookup_lt_is_Some_2 targets (S k) ltac:(lia)) as [t' Ht'].
    rewrite (find_target_step k t t' Ht Ht'), IH by lia.
    f_equal. f_equal. lia.
Qed.

(** The walk of [parse_sysimg] ends at the target it was sent to: its
    cursors are at the list and the offsets of that target. *)
Lemma walk_to_target_spec k :
  (k < length targets)%nat ->
  walk_to_target img (Z.of_nat k) = Ok (cursor_at targets k).
Proof.
  intros Hk. unfold walk_to_target.
  destruct (lookup_lt_is_Some_2 targets 0 ltac:(lia)) as [t0 H0].
  destruct (target_fits 0 t0 H0) as [Hn Hfit].
  rewrite load_nfunc. cbn [bind].
  assert (Htag : load img.(jl_dispatch_fvars_idxs) 0 = Ok (tag_word t0)).
  { apply (load_idx_word 0 t0 0 _ H0). now destruct t0. }
  rewrite Htag. cbn [bind].
  destruct t0 as [idxs offs|b idxs offs]; cbn [offsets_fit] in Hfit;
    [|contradiction].
  cbn [tag_word list_idxs] in *. destruct (tag_clone _ Hn) as (H1 & _).
  destruct (Z.eqb_spec (Z.land (Z.lor tag_mask (Z.of_nat (length idxs))) tag_mask) 0);
    [contradiction|].
  rewrite Nat2Z.id.
  assert (E0 : {| cur_idxs := 1; cur_offsets := 0;
                  cur_tag_len := Z.lor tag_mask (Z.of_nat (length idxs));
                  cur_bases := [InFvars 1] |} = cursor_at targets 0).
  { unfold cursor_at. rewrite H0. reflexivity. }
  rewrite E0. apply (find_target_spec k 0). lia.
Qed.

(** The [clone_all] flag and the length that [parse_sysimg] takes from the
    tag word of a target. *)
Lemma tag_word_fields t :
  0 <= Z.of_nat (length (list_idxs t)) < 2 ^ 31 ->
  negb (Z.land (tag_word t) tag_mask =? 0)
  = match t with CloneAll _ _ => true | Sparse _ _ _ => false end /\
  Z.land val_mask (tag_word t) = Z.of_nat (length (list_idxs t)).
Proof.
  intros Hn.
  destruct t as [idxs offs|b idxs offs]; cbn [tag_word list_idxs] in *.
  - destruct (tag_clone _ Hn) as (H1 & _ & H3). split; [|exact H3].
    now destruct (Z.eqb_spec (Z.land (Z.lor tag_mask (Z.of_nat (length idxs))) tag_mask) 0).
  - destruct (tag_sparse _ Hn) as (H1 & _ & H3). split; [|exact H3].
    now rewrite H1.
Qed.

(** Target 0 is [clone_all]. *)
Lemma first_clone_all :
  (0 < length targets)%nat ->
  exists idxs, targets !! 0%nat = Some (CloneAll idxs []).
Proof.
  intros Hlen. destruct (lookup_lt_is_Some_2 targets 0 Hlen) as [t0 H0].
  destruct (target_fits 0 t0 H0) as [_ Hfit].
  destruct t0 as [idxs offs|b idxs offs]; cbn [offsets_fit] in Hfit;
    [|contradiction].
  subst offs. now exists idxs.
Qed.

(** A target with a table for all functions is [clone_all]. *)
Lemma table_of_clone_all j :
  (j < length targets)%nat -> table_of targets j <> Null ->
  exists idxs offs, targets !! j = Some (CloneAll idxs offs).
Proof.
  intros Hj Hnn. destruct j as [|j].
  - destruct (first_clone_all Hj) as [idxs H0]. now exists idxs, [].
  - unfold table_of in Hnn.
    destruct (targets !! S j) as [[idxs offs|b idxs offs]|];
      [|contradiction..]. now exists idxs, offs.
Qed.

(** [table_of] a [clone_all] target reads the offsets of that target. *)
Lemma table_reads k idxs offs (j : nat) w :
  targets !! k = Some (CloneAll idxs offs) -> offs !! j = Some w ->
  load_offset img (table_of targets k) (Z.of_nat j) = Ok w.
Proof.
  intros Hk Hj. destruct k as [|k].
  - destruct (target_fits 0 _ Hk) as [_ Hfit]. cbn [offsets_fit] in Hfit.
    subst offs. now rewrite lookup_nil in Hj.
  - unfold table_of. rewrite Hk. cbn [load_offset].
    now apply (load_offset_word (S k) _ j w Hk).
Qed.

(** The part under [// Fill in return value], at the target the walk has
    reached. *)
Lemma fill_result_at k t res ci :
  targets !! k = Some t ->
  fill_result img (Z.of_nat k) (cursor_at targets k) = Ok (res, ci) ->
  res.(Sysimg.base) = img.(jl_sysimg_fvars_base) /\
  res.(noffsets) = 0 /\
  match t with
  | CloneAll _ _ =>
      ci = idxs_pos targets k /\
      res.(offsets) = table_of targets k /\
      res.(nclones) = 0 /\
      res.(clone_offsets) = Null /\
      res.(clone_idxs) = None
  | Sparse b idxs _ =>
      ci = idxs_pos targets k + 1 /\
      0 <= b < Z.of_nat k /\
      (exists bidxs boffs,
         targets !! Z.to_nat b = Some (CloneAll bidxs boffs)) /\
      res.(offsets) = table_of targets (Z.to_nat b) /\
      res.(nclones) = Z.of_nat (length idxs) /\
      res.(clone_offsets) = InClones (offs_pos targets k) /\
      res.(clone_idxs) = Some (idxs_pos targets k + 1)
  end.
Proof.
  intros Hk. destruct (target_fits k t Hk) as [Hn Hfit].
  destruct (tag_word_fields t Hn) as [Hca _].
  pose proof (lookup_lt_Some _ _ _ Hk) as Hlen.
  unfold fill_result.
  assert (Etag : cur_tag_len (cursor_at targets k) = tag_word t).
  { cbn. now rewrite Hk. }
  rewrite !Etag, Hca.
  change (cur_offsets (cursor_at targets k)) with (offs_pos targets k).
  change (cur_idxs (cursor_at targets k)) with (idxs_pos targets k).
  change (cur_bases (cursor_at targets k))
    with (map (table_of targets) (seq 0 (S k))).
  destruct t as [idxs offs|b idxs offs].
  - intros [= <- <-]. cbn [Sysimg.base noffsets offsets nclones clone_offsets
                           clone_idxs].
    repeat apply conj; try reflexivity.
    destruct k as [|k]; [reflexivity|]. unfold table_of. rewrite Hk.
    now destruct (Z.eqb_spec (Z.of_nat (S k)) 0); [lia|].
  - assert (Hb : load img.(jl_dispatch_fvars_idxs) (idxs_pos targets k) = Ok b).
    { replace (idxs_pos targets k)
        with (idxs_pos targets k - 1 + Z.of_nat 1) by lia.
      now apply (load_idx_word k _ 1 b Hk). }
    rewrite Hb. cbn [bind].
    destruct (Z.ltb_spec b (Z.of_nat k)); cbn [negb]; [|discriminate].
    destruct k as [|k]; [cbn [offsets_fit] in Hfit; contradiction|].
    destruct (Z.eqb_spec (Z.of_nat (S k)) 0); [lia|]. cbn [negb].
    destruct (load (map (table_of targets) (seq 0 (S (S k)))) b) as [p|] eqn:Ep;
      [|discriminate]. cbn [bind].
    unfold load in Ep. destruct (Z.ltb_spec b 0); [discriminate|].
    rewrite list_lookup_fmap, lookup_seq_lt in Ep by lia.
    cbn in Ep. injection Ep as <-.
    cbn [tag_word].
    destruct (table_of targets (Z.to_nat b)) as [|pos|pos] eqn:Et;
      [discriminate| |]; intros [= <- <-];
      cbn [Sysimg.base noffsets offsets nclones clone_offsets clone_idxs];
      (repeat apply conj; try reflexivity; try lia;
       apply table_of_clone_all; [lia|rewrite Et; discriminate]).
Qed.

(** The two halves of a call of [parse_sysimg] that returns. *)
Lemma parse_sysimg_at k t data res data' :
  targets !! k = Some t ->
  parse_sysimg img (Z.of_nat k) data = Ok (res, data') ->
  exists nreloc ci,
    load img.(jl_dispatch_reloc_slots) 0 = Ok nreloc /\
    fill_result img (Z.of_nat k) (cursor_at targets k) = Ok (res, ci) /\
    relocate img nreloc
      match t with CloneAll _ _ => true | Sparse _ _ _ => false end
      res ci (InClones (offs_pos targets k)) (length (list_idxs t)) 0 0 data
    = Ok data'.
Proof.
  intros Hk H. destruct (target_fits k t Hk) as [Hn _].
  destruct (tag_word_fields t Hn) as [Hca Hlen].
  unfold parse_sysimg in H.
  destruct (load _ 0) as [nreloc|]; [|discriminate]. cbn [bind] in H.
  rewrite (walk_to_target_spec k (lookup_lt_Some _ _ _ Hk)) in H.
  cbn [bind] in H.
  destruct (fill_result img (Z.of_nat k) (cursor_at targets k))
    as [[res0 ci]|] eqn:Efill; [|discriminate].
  cbn [bind] in H.
  assert (Etag : cur_tag_len (cursor_at targets k) = tag_word t).
  { cbn. now rewrite Hk. }
  rewrite !Etag, Hca, Hlen, Nat2Z.id in H.
  change (cur_offsets (cursor_at targets k)) with (offs_pos targets k) in H.
  destruct (relocate _ _ _ _ _ _ _ _ _ _) as [d|] eqn:Erel; [|discriminate].
  cbn [bind] in H. injection H as <- <-.
  exists nreloc, ci. repeat apply conj; auto.
Qed.

End Layout.

(** Claim C1.  Let the image hold the targets [targets] in the layout its
    walk reads, and a reloc-slot table of fewer than [2^31] entries that
    is sorted by function index, gives no slot to two functions and keeps
    the pointers of different slots apart.  The walk of [parse_sysimg] for
    target [k] stops at the list of target [k] ([walk_to_target_spec]),
    and when [parse_sysimg] returns, then for every function that target
    [k] clones each slot of that function holds, as a pointer, the text
    anchor plus the chosen code offset.  For a [clone_all] target the cloned
    functions are all the indices of its list and the code offset of [idx]
    is entry [idx] of [res.offsets], the table of the target itself (the
    default table for target 0); for a sparse target they are the tagged
    entries of its list, without the tag, and the code offset of entry [i]
    is entry [i] of the offsets of the target.  The bytes of the data
    section outside the slots of the cloned functions keep their
    values. *)
Theorem relocation_coverage img tbl nfunc targets (k : nat) t data res data' :
  img.(jl_dispatch_reloc_slots) = reloc_words tbl ->
  Z.of_nat (length tbl) < 2 ^ 31 ->
  StronglySorted index_le tbl ->
  slots_distinct tbl ->
  slots_apart tbl ->
  laid_out img nfunc targets ->
  targets !! k = Some t ->
  parse_sysimg img (Z.of_nat k) data = Ok (res, data') ->
  match t with
  | CloneAll idxs offs =>
      res.(offsets) = table_of targets k /\
      (forall (j : nat) w, offs !! j = Some w ->
         load_offset img res.(offsets) (Z.of_nat j) = Ok w) /\
      (forall (i : nat) idx, idxs !! i = Some idx ->
         exists offset,
           load_offset img res.(offsets) idx = Ok offset /\
           (exists slot, In (idx, slot) tbl) /\
           (forall slot, In (idx, slot) tbl ->
              read_slot data' slot
              = to_ptr (img.(jl_sysimg_fvars_base) + offset))) /\
      (forall o,
         (forall (i : nat) idx slot,
            idxs !! i = Some idx -> In (idx, slot) tbl ->
            ~ (slot <= o < slot + Z.of_nat ptr_size)) ->
         data' o = data o)
  | Sparse _ idxs offs =>
      (forall (i : nat) tagged,
         idxs !! i = Some tagged -> Z.land tagged tag_mask <> 0 ->
         exists offset,
           offs !! i = Some offset /\
           (exists slot, In (Z.land tagged val_mask, slot) tbl) /\
           (forall slot, In (Z.land tagged val_mask, slot) tbl ->
              read_slot data' slot
              = to_ptr (img.(jl_sysimg_fvars_base) + offset))) /\
      (forall o,
         (forall (i : nat) tagged slot,
            idxs !! i = Some tagged -> Z.land tagged tag_mask <> 0 ->
            In (Z.land tagged val_mask, slot) tbl ->
            ~ (slot <= o < slot + Z.of_nat ptr_size)) ->
         data' o = data o)
  end.
Proof.
  intros Henc Hsmall Hsorted Hdistinct Hapart Hlaid Hk Hparse.
  destruct (parse_sysimg_at img nfunc targets Hlaid k t data res data' Hk Hparse)
    as (nreloc & ci & Hn & Hfill & Hrel).
  rewrite (load_nreloc img tbl Henc) in Hn. injection Hn as <-.
  destruct (relocate_spec img tbl Henc Hsmall Hsorted Hdistinct Hapart
              _ _ _ _ _ 0 0%nat data data' (Nat.le_0_l _) (separated_0 tbl) Hrel)
    as (_ & HB & HC).
  destruct (fill_result_at img nfunc targets Hlaid k t res ci Hk Hfill)
    as (Hbase & _ & Hres).
  destruct (target_fits img nfunc targets Hlaid k t Hk) as [_ Hfit].
  destruct t as [idxs offs|b idxs offs]; cbn [list_idxs] in *.
  - destruct Hres as (-> & Hoffs & _).
    assert (Hl : forall (i : nat) idx, idxs !! i = Some idx ->
              load img.(jl_dispatch_fvars_idxs)
                (idxs_pos targets k + Z.of_nat i) = Ok idx).
    { intros i idx Hi.
      replace (idxs_pos targets k + Z.of_nat i)
        with (idxs_pos targets k - 1 + Z.of_nat (S i)) by lia.
      now apply (load_idx_word img nfunc targets Hlaid k _ (S i) idx Hk). }
    split; [exact Hoffs|]. split; [|split].
    + intros j w Hj. rewrite Hoffs. eapply table_reads; eauto.
    + intros i idx Hi. pose proof (lookup_lt_Some _ _ _ Hi) as Hlt.
      destruct (HB (Z.of_nat i) ltac:(lia)) as (p & Ho & Hp).
      unfold override in Ho. rewrite (Hl i idx Hi) in Ho. cbn [bind] in Ho.
      destruct (load_offset img (offsets res) idx) as [offset|] eqn:Eoff;
        [|discriminate].
      cbn [bind] in Ho. injection Ho as <-.
      destruct (Hp idx offset eq_refl) as [Hex Hall].
      exists offset. repeat apply conj; auto.
      intros slot Hin. rewrite (Hall slot Hin), Hbase. f_equal. lia.
    + intros o Ho. apply HC. intros i' idx off slot Hi' Hov Hin.
      destruct (lookup_lt_is_Some_2 idxs (Z.to_nat i') ltac:(lia)) as [x Hx].
      unfold override in Hov. pose proof (Hl _ _ Hx) as Hlx.
      rewrite Z2Nat.id in Hlx by lia. rewrite Hlx in Hov. cbn [bind] in Hov.
      destruct (load_offset img (offsets res) x); [|discriminate].
      cbn [bind] in Hov. injection Hov as -> _.
      apply (Ho (Z.to_nat i') idx slot Hx Hin).
  - destruct Hres as (-> & _).
    destruct k as [|k]; cbn [offsets_fit] in Hfit; [contradiction|].
    assert (Hl : forall (i : nat) tagged, idxs !! i = Some tagged ->
              load img.(jl_dispatch_fvars_idxs)
                (idxs_pos targets (S k) + 1 + Z.of_nat i) = Ok tagged).
    { intros i tagged Hi.
      replace (idxs_pos targets (S k) + 1 + Z.of_nat i)
        with (idxs_pos targets (S k) - 1 + Z.of_nat (S (S i))) by lia.
      now apply (load_idx_word img nfunc targets Hlaid (S k) _ (S (S i))
                   tagged Hk). }
    split.
    + intros i tagged Hi Htagged. pose proof (lookup_lt_Some _ _ _ Hi) as Hlt.
      destruct (HB (Z.of_nat i) ltac:(lia)) as (p & Ho & Hp).
      unfold override in Ho. rewrite (Hl i tagged Hi) in Ho. cbn [bind] in Ho.
      destruct (Z.eqb_spec (Z.land tagged tag_mask) 0) as [|_]; [contradiction|].
      cbn [negb] in Ho.
      destruct (lookup_lt_is_Some_2 offs i ltac:(lia)) as [w Hw].
      cbn [load_offset] in Ho.
      rewrite (load_offset_word img nfunc targets Hlaid (S k) _ i w Hk Hw) in Ho.
      cbn [bind] in Ho. injection Ho as <-.
      destruct (Hp _ w eq_refl) as [Hex Hall].
      exists w. repeat apply conj; auto.
      intros slot Hin. rewrite (Hall slot Hin), Hbase. f_equal. lia.
    + intros o Ho. apply HC. intros i' idx off slot Hi' Hov Hin.
      destruct (lookup_lt_is_Some_2 idxs (Z.to_nat i') ltac:(lia)) as [x Hx].
      unfold override in Hov. pose proof (Hl _ _ Hx) as Hlx.
      rewrite Z2Nat.id in Hlx by lia. rewrite Hlx in Hov. cbn [bind] in Hov.
      destruct (Z.eqb_spec (Z.land x tag_mask) 0) as [|Hx0];
        cbn [negb] in Hov; [discriminate|].
      destruct (load_offset img _ i'); [|discriminate].
      cbn [bind] in Hov. injection Hov as <- _.
      apply (Ho (Z.to_nat i') x slot Hx Hx0 Hin).
Qed.

(** Where the pointers of two slots overlap, the later store overwrites a
    part of the earlier one: with the slot of function 5 four bytes behind
    the slot of function 3, the slot of function 3 ends with the low half
    of either pointer. *)
Lemma overlapping_slots :
  exists data',
    parse_sysimg overlapping_image 1 sample_data
    = Ok (sample_result_all, data') /\
    read_slot data' 16 = 1000203 + 2 ^ 32 * 1000205 /\
    read_slot data' 20 = 1000205.
Proof. eexists. repeat apply conj; reflexivity. Qed.

(** ** The statements at concrete inputs *)

Lemma sample_sorted : StronglySorted index_le sample_table.
Proof. unfold sample_table, index_le. repeat constructor; cbn; lia. Qed.

Lemma sample_distinct : slots_distinct sample_table.
Proof.
  intros e1 e2 H1 H2. cbn in H1, H2.
  destruct H1 as [<-|[<-|[<-|[]]]]; destruct H2 as [<-|[<-|[<-|[]]]];
    cbn; intros; lia.
Qed.

Lemma sample_apart : slots_apart sample_table.
Proof.
  intros e1 e2 H1 H2. cbn in H1, H2. unfold apart.
  change (Z.of_nat ptr_size) with 8.
  destruct H1 as [<-|[<-|[<-|[]]]]; destruct H2 as [<-|[<-|[<-|[]]]];
    cbn [fst snd]; lia.
Qed.

Lemma sample_laid_out : laid_out sample_image 8 sample_lists.
Proof.
  repeat apply conj; try reflexivity; try (unfold is_u32; lia).
  intros k t Hk.
  destruct k as [|[|[|k]]]; cbn in Hk; [| | |discriminate];
    injection Hk as <-; cbn; split; (reflexivity || lia).
Qed.

Lemma relocation_coverage_witness :
  parse_sysimg sample_image 1 sample_data
  = Ok (sample_result_all, sample_relocated_all) /\
  read_slot sample_relocated_all 24 = 1000000 + 205 /\
  parse_sysimg sample_image 2 sample_data
  = Ok (sample_result, sample_relocated) /\
  read_slot sample_relocated 32 = 1000000 + 307 /\
  sample_relocated 24 = sample_data 24.
Proof.
  assert (Hsmall : Z.of_nat (length sample_table) < 2 ^ 31) by (cbn; lia).
  pose proof (relocation_coverage sample_image sample_table 8 sample_lists 1
                _ sample_data sample_result_all sample_relocated_all eq_refl
                Hsmall sample_sorted sample_distinct sample_apart
                sample_laid_out eq_refl eq_refl) as (_ & _ & H1 & _).
  pose proof (relocation_coverage sample_image sample_table 8 sample_lists 2
                _ sample_data sample_result sample_relocated eq_refl
                Hsmall sample_sorted sample_distinct sample_apart
                sample_laid_out eq_refl eq_refl) as (H2 & H3).
  split; [reflexivity|]. split; [|split; [reflexivity|split]].
  - destruct (H1 1%nat 5 eq_refl) as (offset & Hoff & _ & Hall).
    injection Hoff as <-. apply Hall. right. left. reflexivity.
  - destruct (H2 2%nat 0x80000007 eq_refl ltac:(vm_compute; congruence))
      as (offset & Hoff & _ & Hall).
    injection Hoff as <-. apply Hall. right. right. left. reflexivity.
  - apply H3. intros i tagged slot Hi Htag Hin.
    change (Z.of_nat ptr_size) with 8.
    destruct i as [|[|[|i]]]; cbn in Hi; [| | |discriminate];
      injection Hi as <-; vm_compute in Hin;
      destruct Hin as [Hin|[Hin|[Hin|[]]]];
      try discriminate Hin; try (injection Hin as <-; lia).
Defined.

Lemma features_le_correct_witness :
  features_le [5] [7] = true /\
  Features.empty (feature_mask_and [5] (feature_mask_not [7])) = true /\
  (forall i, bit_ok 1 i -> test_nbit [5] i = Ok true -> test_nbit [7] i = Ok true).
Proof.
  assert (Ha : wf_features 1 [5]).
  { split; [reflexivity|]. repeat constructor; unfold is_u32; lia. }
  assert (Hb : wf_features 1 [7]).
  { split; [reflexivity|]. repeat constructor; unfold is_u32; lia. }
  destruct (features_le_correct 1 [5] [7] Ha Hb ltac:(cbn; lia)) as [H1 H2].
  split; [reflexivity|]. split.
  - apply H1. reflexivity.
  - apply H2. reflexivity.
Defined.

Lemma depends_add_remove_witness :
  enable_depends [1] [{| feature := 1; dep := 2 |}; {| feature := 0; dep := 1 |}]
    = Ok [7] /\
  disable_depends [6] [{| feature := 1; dep := 0 |}; {| feature := 2; dep := 1 |}]
    = Ok [0] /\
  features_le [1] [7] = true /\
  features_le [0] [6] = true.
Proof.
  assert (Hwf : forall w, is_u32 w -> wf_features 1 [w]).
  { intros w Hw. split; [reflexivity|]. constructor; [exact Hw|constructor]. }
  pose proof (depends_add_remove 1 [1]
                [{| feature := 1; dep := 2 |}; {| feature := 0; dep := 1 |}]
                (Hwf 1 ltac:(unfold is_u32; lia))) as [Hen _].
  pose proof (depends_add_remove 1 [6]
                [{| feature := 1; dep := 0 |}; {| feature := 2; dep := 1 |}]
                (Hwf 6 ltac:(unfold is_u32; lia))) as [_ Hdis].
  repeat apply conj; [reflexivity|reflexivity|exact Hen|exact Hdis].
Defined.

Lemma depends_idempotent_witness :
  enable_depends [7] [{| feature := 1; dep := 2 |}; {| feature := 0; dep := 1 |}]
    = Ok [7] /\
  disable_depends [0] [{| feature := 1; dep := 2 |}; {| feature := 0; dep := 1 |}]
    = Ok [0].
Proof.
  exact (depends_idempotent [1]
           [{| feature := 1; dep := 2 |}; {| feature := 0; dep := 1 |}]).
Defined.

Lemma sentinel_unguarded_witness :
  test_nbit [0] sentinel = Err OutOfBounds /\
  get_feature_masks 1 [3; sentinel; 4] = get_feature_masks 1 [3; 4] /\
  enable_depends [1] [{| feature := 0; dep := sentinel |}] = Err OutOfBounds /\
  enable_depends [0] [{| feature := 0; dep := sentinel |}] = Ok [0].
Proof.
  destruct (sentinel_unguarded [0] ltac:(cbn; lia))
    as (Hmask & Htest & _ & _ & _ & _ & _ & Hclear).
  destruct (sentinel_unguarded [1] ltac:(cbn; lia))
    as (_ & _ & _ & _ & _ & Hdep & _).
  split; [exact Htest|]. split; [exact (Hmask 1%nat [3] [4])|]. split.
  - apply (Hdep _ {| feature := 0; dep := sentinel |});
      [left; reflexivity|reflexivity|reflexivity].
  - apply (fun H => proj1 (Hclear [{| feature := 0; dep := sentinel |}] H)).
    constructor; [|constructor]. split; [|reflexivity].
    cbn [feature]. change (to_u32 0) with 0.
    split; [unfold is_u32; lia|reflexivity].
Defined.

Lemma malformed_base_forwarded_witness :
  get_clone_base (cstr "base(x)") = 0 /\
  on_feature 1 unknown_cb false (cstr "base(x)") [] (arg_init 1) =
    Ok (feature_token unknown_cb false (cstr "base(x)") (arg_init 1)).
Proof.
  apply malformed_base_forwarded; reflexivity.
Defined.

Lemma unknown_token_forwarded_witness :
  on_feature 1 unknown_cb true (cstr "future_isa_x") [] (arg_init 1) =
    Ok {| name := []; ext_features := cstr "-future_isa_x";
          en_features := [0]; en_flags := 0;
          dis_features := [0]; dis_flags := 0; Target.base := 0 |} /\
  parse_cmdline 1 1 unknown_cb (Some (cstr "generic,+future_isa_x")) =
    Ok [{| name := cstr "generic"; ext_features := cstr "+future_isa_x";
           en_features := [0]; en_flags := 0;
           dis_features := [0]; dis_flags := 0; Target.base := 0 |}].
Proof.
  destruct (unknown_token_forwarded 1 1 unknown_cb) as [Htok Hex]. split.
  - exact (Htok true (cstr "future_isa_x") [] (arg_init 1) [0]
             eq_refl eq_refl eq_refl).
  - exact (proj1 (Hex eq_refl)).
Defined.


Lemma null_option_and_restored_flags_witness :
  parse_cmdline 1 1 unknown_cb None = Ok [] /\
  Forall (fun t => t.(dis_flags) = 0 /\ t.(Target.base) = 0)
    [restored sample_target].
Proof.
  destruct null_option_and_restored_flags as [Hnull Hflags]. split.
  - apply Hnull.
  - apply (Hflags 2%nat
             (u32_bytes 1 ++ u32_bytes 1 ++ serialized 2 sample_target)).
    vm_compute. reflexivity.
Defined.

(** * Further properties *)

(** The functions of the file that the statements above do not reach, and
    more of what holds of those they do. *)

Import Bitsets Registry FeatureStrings Targets.

(** ** Single bits *)

Lemma bind_ok_r {A} (m : result A) : (do x <- m; Ok x) = m.
Proof. now destruct m. Qed.

Lemma set_bit_false_unset (bits : list Z) i :
  set_bit bits i false = unset_bits bits [i].
Proof.
  unfold set_bit. cbn [unset_bits].
  destruct (load bits (to_u32 i / 32)); cbn [bind]; [|reflexivity].
  now rewrite bind_ok_r.
Qed.

Lemma bit_ok_nonneg n i : bit_ok n i -> 0 <= i.
Proof. intros [[? ?] _]. lia. Qed.

(** Extra X1.  For a bit index inside the list [set_bit] returns a list of
    the same length, with words of 32 bits if they were, in which
    [test_nbit] gives the value written at that index and its former answer
    at every other index. *)
Theorem set_bit_then_test (bits : list Z) i val :
  bit_ok (length bits) i ->
  exists bits',
    set_bit bits i val = Ok bits' /\
    length bits' = length bits /\
    (Forall is_u32 bits -> Forall is_u32 bits') /\
    test_nbit bits' i = Ok val /\
    (forall j, bit_ok (length bits) j -> j <> i ->
       test_nbit bits' j = test_nbit bits j).
Proof.
  intros Hi. pose proof (bit_ok_nonneg _ _ Hi) as Hi0.
  assert (exists bits', set_bit bits i val = Ok bits' /\
            length bits' = length bits /\
            (forall k, 0 <= k ->
               bit_at bits' k = if k =? i then val else bit_at bits k) /\
            (Forall is_u32 bits -> Forall is_u32 bits'))
    as (bits' & E & Hlen & Hbits & Hwf).
  { destruct val.
    - destruct (set_bit_in_range bits i Hi) as (b' & E & Hlen & Hb & Hwf).
      exists b'. repeat apply conj; auto;
        try (intros k Hk; rewrite Hb by done; now destruct (k =? i)).
    - rewrite set_bit_false_unset.
      destruct (unset_bits_in_range bits i Hi) as (b' & E & Hlen & Hb & Hwf).
      exists b'. repeat apply conj; auto;
        try (intros k Hk; rewrite Hb by done; now destruct (k =? i)). }
  exists bits'. repeat apply conj; auto.
  - rewrite test_nbit_in_range by (now rewrite Hlen).
    rewrite Hbits, Z.eqb_refl by done. reflexivity.
  - intros j Hj Hne. pose proof (bit_ok_nonneg _ _ Hj) as Hj0.
    rewrite !test_nbit_in_range by (now rewrite ?Hlen).
    rewrite Hbits by done. destruct (Z.eqb_spec j i); [contradiction|reflexivity].
Qed.

(** Extra X2.  [unset_bits] with a pack of indices inside the list returns a
    list of the same length in which [test_nbit] is false at every index of
    the pack and gives its former answer at every other index. *)
Theorem unset_bits_clears idxs : forall (bits : list Z),
  Forall (bit_ok (length bits)) idxs ->
  exists bits',
    unset_bits bits idxs = Ok bits' /\
    length bits' = length bits /\
    (forall j, bit_ok (length bits) j ->
       test_nbit bits' j =
         if existsb (Z.eqb j) idxs then Ok false else test_nbit bits j).
Proof.
  induction idxs as [|i idxs IH]; intros bits Hok.
  - exists bits. repeat apply conj; auto.
  - apply Forall_cons in Hok as [Hi Hok].
    destruct (unset_bits_in_range bits i Hi) as (b1 & E & Hlen & Hb & _).
    rewrite <- Hlen in Hok. destruct (IH b1 Hok) as (b2 & E2 & Hlen2 & Hb2).
    exists b2. repeat apply conj.
    + cbn [unset_bits] in E |- *.
      destruct (load bits (to_u32 i / 32)) as [w|]; [|discriminate].
      cbn [bind] in E |- *.
      destruct (store bits _ _) as [b1'|]; [|discriminate].
      cbn [bind] in E |- *. injection E as ->. exact E2.
    + congruence.
    + intros j Hj. pose proof (bit_ok_nonneg _ _ Hj) as Hj0.
      rewrite Hb2 by (now rewrite Hlen). cbn [existsb].
      destruct (existsb (Z.eqb j) idxs); [now rewrite orb_true_r|].
      rewrite orb_false_r.
      rewrite !test_nbit_in_range by (now rewrite ?Hlen). rewrite Hb by done.
      destruct (Z.eqb_spec j i); reflexivity.
Qed.

(** ** Masks *)

Lemma lookup_map {A B} (f : A -> B) (l : list A) i :
  map f l !! i = option_map f (l !! i).
Proof. revert i. induction l as [|x l IH]; intros [|i]; cbn; auto. Qed.

Lemma lookup_seq_nat n : forall j i, (i < n)%nat -> seq j n !! i = Some (j + i)%nat.
Proof.
  induction n as [|n IH]; intros j i Hi; [lia|]. destruct i as [|i]; cbn.
  - f_equal. lia.
  - rewrite IH by lia. f_equal. lia.
Qed.


Lemma testbit_add_feature_mask args : forall mask I k,
  0 <= k ->
  Z.testbit (add_feature_mask_u32 mask I args) k =
    Z.testbit mask k || ((k <? 32) && existsb (names_bit I k) args).
Proof.
  induction args as [|a args IH]; intros mask I k Hk; cbn [add_feature_mask_u32 existsb].
  - now rewrite andb_false_r, orb_false_r.
  - rewrite IH by done. rewrite Z.lor_spec, <- orb_assoc. f_equal.
    unfold names_bit.
    destruct (Z.leb_spec 0 (to_int a)) as [Ha|Ha]; cbn [andb].
    2:{ now rewrite Z.bits_0. }
    destruct (Z.quot (to_int a) 32 =? to_int I); cbn [andb].
    2:{ now rewrite Z.bits_0. }
    pose proof (Z.rem_bound_pos (to_int a) 32 Ha ltac:(lia)) as Hr.
    fold (bit_mask (Z.rem (to_int a) 32)). rewrite testbit_bit_mask by lia.
    destruct (Z.ltb_spec k 32); cbn [andb].
    + rewrite Z.eqb_sym. now destruct (Z.rem (to_int a) 32 =? k).
    + destruct (Z.eqb_spec k (Z.rem (to_int a) 32)); [lia|reflexivity].
Qed.

(** Extra X3.  [get_feature_masks<n>(args...)] is a list of [n] words of 32
    bits in which [test_nbit] finds bit [i] exactly when an argument, read
    as an [int], is [i]; a negative argument, [(uint32_t)-1] among them,
    sets no bit. *)
Theorem get_feature_masks_bits n args :
  Z.of_nat n <= 2 ^ 26 ->
  wf_features n (get_feature_masks n args) /\
  (forall i, bit_ok n i ->
     test_nbit (get_feature_masks n args) i =
       Ok (existsb (fun a => to_int a =? i) args)).
Proof.
  intros Hn.
  assert (Hlen : length (get_feature_masks n args) = n).
  { unfold get_feature_masks. now rewrite length_map, length_seq. }
  split; [split; [exact Hlen|]|].
  - unfold get_feature_masks. apply Forall_forall. intros w Hw.
    apply list_elem_of_In, in_map_iff in Hw as (I & <- & _).
    apply is_u32_bits. intros k Hk. unfold get_feature_mask_u32.
    rewrite testbit_add_feature_mask by lia. rewrite Z.bits_0.
    destruct (Z.ltb_spec k 32); [lia|reflexivity].
  - intros i Hi. rewrite test_nbit_in_range by (now rewrite Hlen).
    f_equal. destruct Hi as [[Hi0 Hi1] Hq].
    assert (0 <= i / 32) by (apply Z.div_pos; lia).
    pose proof (Z.mod_pos_bound i 32 ltac:(lia)) as Hm.
    unfold bit_at, get_feature_masks.
    rewrite lookup_map, lookup_seq_nat by lia. cbn [option_map].
    unfold get_feature_mask_u32.
    rewrite testbit_add_feature_mask, Z.bits_0 by lia. cbn [orb].
    destruct (Z.ltb_spec (i mod 32) 32); [|lia]. cbn [andb].
    clear Hlen. induction args as [|a args IH]; [reflexivity|]. cbn [existsb]. f_equal; [|exact IH].
    unfold names_bit. rewrite Nat.add_0_l, Z2Nat.id by lia.
    rewrite (to_int_id (i / 32)) by lia.
    destruct (Z.leb_spec 0 (to_int a)) as [Ha|Ha]; cbn [andb].
    + rewrite Z.quot_div_nonneg, Z.rem_mod_nonneg by lia.
      destruct (Z.eqb_spec (to_int a) i) as [->|Hne].
      * now rewrite !Z.eqb_refl.
      * destruct (Z.eqb_spec (to_int a / 32) (i / 32)); [|reflexivity].
        destruct (Z.eqb_spec (to_int a mod 32) (i mod 32)); [|reflexivity].
        exfalso. apply Hne. now apply divmod32_eq.
    + destruct (Z.eqb_spec (to_int a) i); [lia|reflexivity].
Qed.

(** ** The word-wise operators *)

Lemma bit_at_zip_with f g (a b : list Z) i :
  length a = length b -> bit_ok (length a) i ->
  (forall x y k, 0 <= k < 32 ->
     Z.testbit (f x y) k = g (Z.testbit x k) (Z.testbit y k)) ->
  bit_at (zip_with f a b) i = g (bit_at a i) (bit_at b i).
Proof.
  intros Hlen [[Hi0 Hi1] Hq] Hf.
  assert (0 <= i / 32) by (apply Z.div_pos; lia).
  unfold bit_at. rewrite lookup_zip_with.
  destruct (lookup_lt_is_Some_2 a (Z.to_nat (i / 32)) ltac:(lia)) as [x ->].
  destruct (lookup_lt_is_Some_2 b (Z.to_nat (i / 32)) ltac:(lia)) as [y ->].
  cbn. apply Hf. apply Z.mod_pos_bound. lia.
Qed.

(** Extra X4.  On lists of the same length [operator|], [operator&] and
    [operator~] are union, intersection and complement bit by bit, as
    [test_nbit] reads them, and the words of the complement stay within 32
    bits. *)
Theorem feature_mask_ops_bits (a b : list Z) i :
  length a = length b -> bit_ok (length a) i ->
  test_nbit (feature_mask_or a b) i = Ok (bit_at a i || bit_at b i) /\
  test_nbit (feature_mask_and a b) i = Ok (bit_at a i && bit_at b i) /\
  test_nbit (feature_mask_not a) i = Ok (negb (bit_at a i)) /\
  Forall is_u32 (feature_mask_not a).
Proof.
  intros Hlen Hi. unfold feature_mask_or, feature_mask_and, feature_mask_not.
  repeat apply conj.
  - rewrite test_nbit_in_range by (rewrite length_zip_with; rewrite <- Hlen, Nat.min_id; exact Hi).
    f_equal. apply bit_at_zip_with; auto. intros. apply Z.lor_spec.
  - rewrite test_nbit_in_range by (rewrite length_zip_with; rewrite <- Hlen, Nat.min_id; exact Hi).
    f_equal. apply bit_at_zip_with; auto. intros. apply Z.land_spec.
  - rewrite test_nbit_in_range by (now rewrite length_map).
    f_equal. destruct Hi as [[Hi0 Hi1] Hq].
    assert (0 <= i / 32) by (apply Z.div_pos; lia).
    pose proof (Z.mod_pos_bound i 32 ltac:(lia)) as Hm.
    unfold bit_at. rewrite lookup_map.
    destruct (lookup_lt_is_Some_2 a (Z.to_nat (i / 32)) ltac:(lia)) as [x ->].
    cbn. rewrite testbit_not32 by lia.
    destruct (Z.ltb_spec (i mod 32) 32); [reflexivity|lia].
  - apply Forall_forall. intros w Hw.
    apply list_elem_of_In, in_map_iff in Hw as (x & <- & _). apply to_u32_range.
Qed.

(** ** [mask_features] *)

Lemma mask_features_loop_spec masks : forall (pre mid post : list Z),
  length mid = length masks ->
  mask_features_loop masks (Z.of_nat (length pre)) (pre ++ mid ++ post) =
    Ok (pre ++ zip_with Z.land mid masks ++ post).
Proof.
  induction masks as [|m masks IH]; intros pre mid post Hlen.
  - destruct mid; [reflexivity|discriminate].
  - destruct mid as [|w mid]; [discriminate|]. injection Hlen as Hlen.
    cbn [mask_features_loop app zip_with].
    rewrite (load_some _ _ w); [|lia|].
    2:{ rewrite Nat2Z.id. now apply list_lookup_middle. }
    cbn [bind]. rewrite store_some; [|lia|].
    2:{ rewrite Nat2Z.id, length_app. cbn. lia. }
    cbn [bind]. rewrite Nat2Z.id.
    replace (<[length pre:=Z.land w m]> (pre ++ w :: mid ++ post))
      with ((pre ++ [Z.land w m]) ++ mid ++ post).
    2:{ rewrite <- (Nat.add_0_r (length pre)) at 1. rewrite insert_app_r.
        cbn. now rewrite <- app_assoc. }
    replace (Z.of_nat (length pre) + 1) with (Z.of_nat (length (pre ++ [Z.land w m])))
      by (rewrite length_app; cbn; lia).
    rewrite IH by done. now rewrite <- app_assoc.
Qed.

Lemma mask_features_short masks : forall i (features : list Z),
  0 <= i -> (Z.to_nat i <= length features < Z.to_nat i + length masks)%nat ->
  mask_features_loop masks i features = Err OutOfBounds.
Proof.
  induction masks as [|m masks IH]; intros i features Hi Hlen; [cbn in Hlen; lia|].
  cbn [mask_features_loop]. unfold load.
  destruct (Z.ltb_spec i 0); [lia|].
  destruct (features !! Z.to_nat i) as [w|] eqn:E; [|reflexivity].
  cbn [bind]. apply lookup_lt_Some in E. rewrite store_some by lia. cbn [bind].
  apply IH; [lia|]. rewrite length_insert. cbn [length] in Hlen. lia.
Qed.

(** Extra X5.  [mask_features(masks, features)] replaces the first [n] words
    at [features] by their intersection with [masks] and leaves the words
    behind them; an array of fewer than [n] words is an out-of-bounds
    access. *)
Theorem mask_features_and (masks features : list Z) :
  mask_features masks features =
    if (length masks <=? length features)%nat then
      Ok (feature_mask_and (take (length masks) features) masks
          ++ drop (length masks) features)
    else Err OutOfBounds.
Proof.
  destruct (Nat.leb_spec (length masks) (length features)) as [Hlen|Hlen].
  2:{ apply mask_features_short; cbn; lia. }
  unfold mask_features, feature_mask_and.
  rewrite <- (take_drop (length masks) features) at 1.
  apply (mask_features_loop_spec masks [] (take (length masks) features)).
  rewrite length_take. lia.
Qed.

(** ** The order of feature sets *)

Lemma bit_at_word (a : list Z) (q : nat) w t :
  a !! q = Some w -> 0 <= t < 32 ->
  bit_at a (32 * Z.of_nat q + t) = Z.testbit w t.
Proof.
  intros Hq Ht. unfold bit_at.
  replace ((32 * Z.of_nat q + t) / 32) with (Z.of_nat q).
  2:{ symmetry. rewrite Z.mul_comm, Z.div_add_l by lia.
      rewrite (Z.div_small t 32) by lia. lia. }
  replace ((32 * Z.of_nat q + t) mod 32) with t.
  2:{ symmetry. rewrite Z.add_comm, Z.mul_comm, Z.mod_add by lia.
      apply Z.mod_small. lia. }
  now rewrite Nat2Z.id, Hq.
Qed.

(** Lists of [uint32_t] words with the same bits are equal. *)
Lemma bits_ext (a b : list Z) :
  length a = length b -> Forall is_u32 a -> Forall is_u32 b ->
  (forall k, 0 <= k -> bit_at a k = bit_at b k) -> a = b.
Proof.
  intros Hlen Ha Hb Hbits. apply list_eq. intros q.
  destruct (a !! q) as [x|] eqn:Ex.
  - destruct (lookup_lt_is_Some_2 b q) as [y Ey].
    { rewrite <- Hlen. eapply lookup_lt_Some, Ex. }
    rewrite Ey. f_equal. apply Z.bits_inj'. intros t Ht.
    destruct (Z.ltb_spec t 32).
    + rewrite <- (bit_at_word a q x t), <- (bit_at_word b q y t) by (auto; lia).
      apply Hbits. lia.
    + rewrite Forall_forall in Ha, Hb.
      rewrite (proj1 (is_u32_bits x)), (proj1 (is_u32_bits y));
        eauto using list_elem_of_lookup_2.
  - symmetry. apply lookup_ge_None. rewrite <- Hlen. now apply lookup_ge_None.
Qed.

(** Extra X6.  On lists of [n] words of 32 bits [features_le] is a partial
    order: reflexive, transitive and antisymmetric. *)
Theorem features_le_order n (a b c : list Z) :
  wf_features n a -> wf_features n b -> wf_features n c ->
  features_le a a = true /\
  (features_le a b = true -> features_le b c = true ->
   features_le a c = true) /\
  (features_le a b = true -> features_le b a = true -> a = b).
Proof.
  intros [Hla Hwa] [Hlb Hwb] [Hlc Hwc]. repeat apply conj.
  - apply features_le_bits; auto.
  - rewrite !features_le_bits by (auto; congruence). auto.
  - rewrite !features_le_bits by (auto; congruence). intros Hab Hba.
    apply bits_ext; auto; [congruence|]. intros k Hk.
    destruct (bit_at a k) eqn:Ea.
    + symmetry. auto.
    + destruct (bit_at b k) eqn:Eb; [|reflexivity].
      rewrite (Hba k Hk Eb) in Ea. discriminate.
Qed.

(** ** What the closures compute *)

Lemma sweep_post_changed v s s' c' : sweep_post v s true s' c' -> c' = true.
Proof. intros (_ & _ & _ & [[-> _]|[-> _]]); reflexivity. Qed.

Lemma edge_ok_rev n deps :
  Forall (edge_ok n) deps -> Forall (edge_ok n) (rev deps).
Proof.
  rewrite !Forall_forall. intros H x Hx. apply H.
  apply list_elem_of_In, in_rev. now apply list_elem_of_In.
Qed.

(** A sweep that reports no change found every edge satisfied. *)
Lemma enable_sweep_fixed edges : forall (s : list Z) c s',
  Forall (edge_ok (length s)) edges ->
  enable_sweep s edges c = Ok (s', false) ->
  forall d, In d edges ->
    bit_at s d.(feature) = true -> bit_at s d.(dep) = true.
Proof.
  induction edges as [|e edges IH]; intros s c s' Hok Hsw d Hd; [destruct Hd|].
  apply Forall_cons in Hok as [[Hf Hdp] Hok]. cbn [enable_sweep] in Hsw.
  rewrite (test_nbit_in_range s _ Hf) in Hsw. cbn [bind] in Hsw.
  destruct (bit_at s (feature e)) eqn:Ef; cbn [negb] in Hsw.
  - rewrite (test_nbit_in_range s _ Hdp) in Hsw. cbn [bind] in Hsw.
    destruct (bit_at s (dep e)) eqn:Ed.
    + destruct Hd as [<-|Hd]; [now rewrite Ed|]. eapply IH; eauto.
    + destruct (set_bit s (dep e) true) as [s1|]; [|discriminate].
      cbn [bind] in Hsw. apply enable_sweep_ok, sweep_post_changed in Hsw.
      discriminate.
  - destruct Hd as [<-|Hd]; [now rewrite Ef|]. eapply IH; eauto.
Qed.

Lemma disable_sweep_fixed edges : forall (s : list Z) c s',
  Forall (edge_ok (length s)) edges ->
  disable_sweep s edges c = Ok (s', false) ->
  forall d, In d edges ->
    bit_at s d.(feature) = true -> bit_at s d.(dep) = true.
Proof.
  induction edges as [|e edges IH]; intros s c s' Hok Hsw d Hd; [destruct Hd|].
  apply Forall_cons in Hok as [[Hf Hdp] Hok]. cbn [disable_sweep] in Hsw.
  rewrite (test_nbit_in_range s _ Hf) in Hsw. cbn [bind] in Hsw.
  destruct (bit_at s (feature e)) eqn:Ef; cbn [negb] in Hsw.
  - rewrite (test_nbit_in_range s _ Hdp) in Hsw. cbn [bind] in Hsw.
    destruct (bit_at s (dep e)) eqn:Ed.
    + destruct Hd as [<-|Hd]; [now rewrite Ed|]. eapply IH; eauto.
    + destruct (unset_bits s [feature e]) as [s1|]; [|discriminate].
      cbn [bind] in Hsw. apply disable_sweep_ok, sweep_post_changed in Hsw.
      discriminate.
  - destruct Hd as [<-|Hd]; [now rewrite Ef|]. eapply IH; eauto.
Qed.

(** A sweep of [enable_depends] stays below every closed set above its
    argument. *)
Lemma enable_sweep_below (T : list Z) edges : forall (s : list Z) c s' c',
  Forall (edge_ok (length s)) edges ->
  (forall d, In d edges ->
     bit_at T d.(feature) = true -> bit_at T d.(dep) = true) ->
  subset s T ->
  enable_sweep s edges c = Ok (s', c') ->
  length s' = length s /\ subset s' T.
Proof.
  induction edges as [|e edges IH]; intros s c s' c' Hok HT Hs Hsw.
  { cbn in Hsw. injection Hsw as <- <-. auto. }
  apply Forall_cons in Hok as [[Hf Hdp] Hok]. cbn [enable_sweep] in Hsw.
  assert (HT' : forall d, In d edges ->
            bit_at T (feature d) = true -> bit_at T (dep d) = true)
    by (intros d Hd; apply HT; now right).
  rewrite (test_nbit_in_range s _ Hf) in Hsw. cbn [bind] in Hsw.
  destruct (bit_at s (feature e)) eqn:Ef; cbn [negb] in Hsw; [|eauto].
  rewrite (test_nbit_in_range s _ Hdp) in Hsw. cbn [bind] in Hsw.
  destruct (bit_at s (dep e)) eqn:Ed; [eauto|].
  destruct (set_bit_in_range s _ Hdp) as (s1 & E1 & Hlen & Hbits & _).
  rewrite E1 in Hsw. cbn [bind] in Hsw. rewrite <- Hlen in Hok.
  destruct (IH s1 true s' c' Hok HT') as [Hl Hsub]; auto; [|split; [congruence|exact Hsub]].
  intros k Hk. rewrite Hbits by done.
  destruct (Z.eqb_spec k (dep e)) as [->|_]; cbn [orb]; [|now apply Hs].
  intros _. apply HT; [now left|]. apply Hs; [|exact Ef].
  eapply bit_ok_nonneg, Hf.
Qed.

(** A sweep of [disable_depends] stays above every closed set below its
    argument. *)
Lemma disable_sweep_above (T : list Z) edges : forall (s : list Z) c s' c',
  Forall (edge_ok (length s)) edges ->
  (forall d, In d edges ->
     bit_at T d.(feature) = true -> bit_at T d.(dep) = true) ->
  subset T s ->
  disable_sweep s edges c = Ok (s', c') ->
  length s' = length s /\ subset T s'.
Proof.
  induction edges as [|e edges IH]; intros s c s' c' Hok HT Hs Hsw.
  { cbn in Hsw. injection Hsw as <- <-. auto. }
  apply Forall_cons in Hok as [[Hf Hdp] Hok]. cbn [disable_sweep] in Hsw.
  assert (HT' : forall d, In d edges ->
            bit_at T (feature d) = true -> bit_at T (dep d) = true)
    by (intros d Hd; apply HT; now right).
  rewrite (test_nbit_in_range s _ Hf) in Hsw. cbn [bind] in Hsw.
  destruct (bit_at s (feature e)) eqn:Ef; cbn [negb] in Hsw; [|eauto].
  rewrite (test_nbit_in_range s _ Hdp) in Hsw. cbn [bind] in Hsw.
  destruct (bit_at s (dep e)) eqn:Ed; [eauto|].
  destruct (unset_bits_in_range s _ Hf) as (s1 & E1 & Hlen & Hbits & _).
  rewrite E1 in Hsw. cbn [bind] in Hsw. rewrite <- Hlen in Hok.
  destruct (IH s1 true s' c' Hok HT') as [Hl Hsub]; auto; [|split; [congruence|exact Hsub]].
  intros k Hk Hb. rewrite Hbits by done. rewrite (Hs k Hk Hb), andb_true_r.
  destruct (Z.eqb_spec k (feature e)) as [->|_]; [|reflexivity].
  exfalso. pose proof (HT e (or_introl eq_refl) Hb) as Hd.
  apply Hs in Hd; [congruence|]. eapply bit_ok_nonneg, Hdp.
Qed.

Section LoopInvariant.

Variable sweep : list Z -> list FeatureDep -> bool -> result (list Z * bool).
Variable loop : nat -> list Z -> list FeatureDep -> result (list Z).
Variable deps : list FeatureDep.
Variable P : list Z -> Prop.

Hypothesis loop_zero : forall s, loop 0 s deps = Err PassLimit.
Hypothesis loop_step : forall fuel s,
  loop (S fuel) s deps =
    do '(s', changed) <- sweep s (rev deps) false;
    if changed then loop fuel s' deps else Ok s'.
Hypothesis sweep_keeps : forall s c s' c',
  P s -> sweep s (rev deps) c = Ok (s', c') -> P s'.

(** What every sweep keeps holds of the result of the loop. *)
Lemma loop_keeps : forall fuel s s',
  P s -> loop fuel s deps = Ok s' -> P s'.
Proof.
  induction fuel as [|fuel IH]; intros s s' Hs.
  - now rewrite loop_zero.
  - rewrite loop_step.
    destruct (sweep s (rev deps) false) as [[s1 c1]|] eqn:E; [|discriminate].
    cbn [bind]. pose proof (sweep_keeps _ _ _ _ Hs E) as Hs1.
    destruct c1; [now apply IH|]. now intros [= <-].
Qed.

End LoopInvariant.

Lemma closed_rev deps (T : list Z) :
  closed deps T ->
  forall d, In d (rev deps) ->
    bit_at T d.(feature) = true -> bit_at T d.(dep) = true.
Proof. intros H d Hd. apply H. now apply in_rev. Qed.

(** Extra X7.  [enable_depends] returns the least closed set above its
    argument. *)
Theorem enable_depends_least (s : list Z) deps :
  Forall (edge_ok (length s)) deps ->
  exists r,
    enable_depends s deps = Ok r /\
    length r = length s /\
    subset s r /\ closed deps r /\
    (forall T, subset s T -> closed deps T -> subset r T).
Proof.
  intros Hok.
  destruct (enable_depends_spec s deps Hok) as (r & E & Hlen & _ & Hmono & Hfix).
  exists r. repeat apply conj; auto.
  - intros d Hd. apply (enable_sweep_fixed (rev deps) r false r).
    + apply edge_ok_rev. now rewrite Hlen.
    + exact Hfix.
    + now apply in_rev in Hd.
  - intros T HsT HT. unfold enable_depends in E.
    apply (loop_keeps enable_sweep enable_loop deps
             (fun x => length x = length s /\ subset x T)) in E;
      [tauto|reflexivity|reflexivity| |auto].
    intros x c x' c' [Hl Hx] Hsw.
    destruct (enable_sweep_below T (rev deps) x c x' c') as [Hl' Hx']; auto.
    + apply edge_ok_rev. now rewrite Hl.
    + now apply closed_rev.
    + split; [congruence|exact Hx'].
Qed.

(** Extra X8.  [disable_depends] returns the greatest closed set below its
    argument. *)
Theorem disable_depends_greatest (s : list Z) deps :
  Forall (edge_ok (length s)) deps ->
  exists r,
    disable_depends s deps = Ok r /\
    length r = length s /\
    subset r s /\ closed deps r /\
    (forall T, subset T s -> closed deps T -> subset T r).
Proof.
  intros Hok.
  destruct (disable_depends_spec s deps Hok) as (r & E & Hlen & _ & Hmono & Hfix).
  exists r. repeat apply conj; auto.
  - intros k Hk Hb. destruct (bit_at s k) eqn:Es; [reflexivity|].
    rewrite (Hmono k Hk Es) in Hb. discriminate.
  - intros d Hd. apply (disable_sweep_fixed (rev deps) r false r).
    + apply edge_ok_rev. now rewrite Hlen.
    + exact Hfix.
    + now apply in_rev in Hd.
  - intros T HTs HT. unfold disable_depends in E.
    apply (loop_keeps disable_sweep disable_loop deps
             (fun x => length x = length s /\ subset T x)) in E;
      [tauto|reflexivity|reflexivity| |auto].
    intros x c x' c' [Hl Hx] Hsw.
    destruct (disable_sweep_above T (rev deps) x c x' c') as [Hl' Hx']; auto.
    + apply edge_ok_rev. now rewrite Hl.
    + now apply closed_rev.
    + split; [congruence|exact Hx'].
Qed.

(** ** Lookups in the tables *)

Lemma byte_diff_nonzero x y :
  Byte.eqb x y = false -> (byte.unsigned x - byte.unsigned y =? 0) = false.
Proof.
  intros E. apply Z.eqb_neq. intros H.
  assert (x = y) by (apply byte.unsigned_inj; lia). subst.
  rewrite (Byte.byte_dec_lb eq_refl) in E. discriminate.
Qed.

Lemma byte_eqb_sym x y : Byte.eqb x y = Byte.eqb y x.
Proof.
  destruct (Byte.eqb x y) eqn:E.
  - apply Byte.byte_dec_bl in E. subst. symmetry. now apply Byte.byte_dec_lb.
  - destruct (Byte.eqb y x) eqn:E'; [|reflexivity].
    apply Byte.byte_dec_bl in E'. subst.
    now rewrite (Byte.byte_dec_lb eq_refl) in E.
Qed.

(** [strcmp] of two C strings is 0 exactly when their texts are equal,
    whatever follows the terminators. *)
Lemma strcmp_c_str a : forall b ra rb,
  no_nul a -> no_nul b ->
  exists z, strcmp (c_str a ++ ra) (c_str b ++ rb) = Ok z /\
            (z =? 0) = bytes_eqb a b.
Proof.
  unfold c_str. induction a as [|x a IH]; intros [|y b] ra rb Ha Hb.
  - exists 0. split; reflexivity.
  - apply Forall_cons in Hb as [Hy _]. cbn [app strcmp bytes_eqb].
    rewrite byte_eqb_sym, (byte_eqb_x00 _ Hy). cbn [negb].
    eexists; split; [reflexivity|]. apply byte_diff_nonzero.
    now rewrite byte_eqb_sym, byte_eqb_x00.
  - apply Forall_cons in Ha as [Hx _]. cbn [app strcmp bytes_eqb].
    rewrite (byte_eqb_x00 _ Hx). cbn [negb].
    eexists; split; [reflexivity|]. apply byte_diff_nonzero.
    now rewrite byte_eqb_x00.
  - apply Forall_cons in Ha as [Hx Ha]. apply Forall_cons in Hb as [Hy Hb].
    cbn [app strcmp bytes_eqb]. destruct (Byte.eqb x y) eqn:E; cbn [negb andb].
    + rewrite (byte_eqb_x00 _ Hx). apply IH; assumption.
    + eexists; split; [reflexivity|]. now apply byte_diff_nonzero.
Qed.

(** [strncmp(name, str, len)] with [len] bytes of text at [str]: 0 exactly
    when the text begins the name; it reads nothing behind the [len]
    bytes. *)
Lemma strncmp_prefix tok : forall nm rest,
  no_nul tok -> no_nul nm ->
  exists z, strncmp (c_str nm) (tok ++ rest) (length tok) = Ok z /\
            (z =? 0) = bytes_eqb (take (length tok) nm) tok /\
            (z = 0 -> (length tok <= length nm)%nat).
Proof.
  unfold c_str. induction tok as [|y tok IH]; intros nm rest Ht Hn.
  - exists 0. cbn [length]. rewrite take_0.
    split; [now destruct nm|]. split; [reflexivity|]. intros _. apply Nat.le_0_l.
  - apply Forall_cons in Ht as [Hy Ht]. destruct nm as [|x nm].
    + cbn [app strncmp length take bytes_eqb].
      rewrite byte_eqb_sym, (byte_eqb_x00 _ Hy). cbn [negb].
      eexists; split; [reflexivity|].
      assert (E : (byte.unsigned Byte.x00 - byte.unsigned y =? 0) = false)
        by (apply byte_diff_nonzero; now rewrite byte_eqb_sym, byte_eqb_x00).
      split; [exact E|]. intros H0. rewrite H0 in E. discriminate.
    + apply Forall_cons in Hn as [Hx Hn].
      cbn [app strncmp length take bytes_eqb].
      destruct (Byte.eqb x y) eqn:E; cbn [negb andb].
      * rewrite (byte_eqb_x00 _ Hx).
        destruct (IH nm rest Ht Hn) as (z & Ez & Hz & Hl).
        exists z. repeat split; auto. intros H0. specialize (Hl H0). lia.
      * eexists; split; [reflexivity|].
        pose proof (byte_diff_nonzero _ _ E) as E'.
        split; [exact E'|]. intros H0. rewrite H0 in E'. discriminate.
Qed.

Lemma first_match_ext {A} (p q : A -> bool) l :
  Forall (fun x => p x = q x) l -> first_match p l = first_match q l.
Proof.
  induction 1 as [|x l Hx _ IH]; [reflexivity|]. cbn. now rewrite Hx, IH.
Qed.

Lemma first_match_Some {A} (p : A -> bool) l x :
  first_match p l = Some x <->
  exists i, l !! i = Some x /\ p x = true /\
    forall j y, (j < i)%nat -> l !! j = Some y -> p y = false.
Proof.
  induction l as [|a l IH]; cbn [first_match].
  - split; [discriminate|]. intros (i & Hi & _). now rewrite lookup_nil in Hi.
  - destruct (p a) eqn:Ea.
    + split.
      * intros [= <-]. exists 0%nat. repeat split; auto. intros; lia.
      * intros ([|i] & Hi & Hp & Hbefore).
        -- cbn in Hi. congruence.
        -- specialize (Hbefore 0%nat a ltac:(lia) eq_refl). congruence.
    + rewrite IH. split.
      * intros (i & Hi & Hp & Hbefore). exists (S i). repeat split; auto.
        intros [|j] y Hj Hy; [cbn in Hy; congruence|].
        apply (Hbefore j); [lia|exact Hy].
      * intros ([|i] & Hi & Hp & Hbefore).
        -- cbn in Hi. congruence.
        -- exists i. repeat split; auto. intros j y Hj Hy.
           apply (Hbefore (S j)); [lia|exact Hy].
Qed.

Lemma first_match_None {A} (p : A -> bool) l :
  first_match p l = None <-> Forall (fun x => p x = false) l.
Proof.
  induction l as [|a l IH]; cbn [first_match].
  - split; auto.
  - destruct (p a) eqn:Ea.
    + split; [discriminate|]. intros H. apply Forall_cons in H as [H _]. congruence.
    + rewrite IH. split; [now constructor|]. intros H. now apply Forall_cons in H as [_ H].
Qed.

Lemma drop_lookup_cons {A} (l : list A) i x :
  l !! i = Some x -> drop i l = x :: drop (S i) l.
Proof.
  revert i. induction l as [|a l IH]; intros [|i] H; try discriminate.
  - cbn in H. now injection H as ->.
  - cbn. now apply IH.
Qed.

Lemma load_drop {A} (l : list A) i :
  0 <= i ->
  match load l i with
  | Ok x => l !! Z.to_nat i = Some x /\
            drop (Z.to_nat i) l = x :: drop (S (Z.to_nat i)) l
  | Err e => e = OutOfBounds /\ drop (Z.to_nat i) l = []
  end.
Proof.
  intros Hi. unfold load. destruct (Z.ltb_spec i 0); [lia|].
  destruct (l !! Z.to_nat i) eqn:E.
  - split; [reflexivity|]. now apply drop_lookup_cons.
  - split; [reflexivity|]. apply drop_ge. now apply lookup_ge_None.
Qed.

Lemma find_cpu_loop_spec cpu cpus : forall count i,
  0 <= i ->
  find_cpu_loop cpu cpus count i =
    match first_match (fun s => cpu =? to_u32 s.(spec_cpu))
            (take count (drop (Z.to_nat i) cpus)) with
    | Some s => Ok (Some s)
    | None =>
        if (count <=? length (drop (Z.to_nat i) cpus))%nat then Ok None
        else Err OutOfBounds
    end.
Proof.
  induction count as [|count IH]; intros i Hi.
  - now rewrite take_0.
  - cbn [find_cpu_loop]. pose proof (load_drop cpus i Hi) as Hl.
    destruct (load cpus i) as [x|e]; cbn [bind].
    + destruct Hl as [_ Hl]. rewrite Hl. cbn [take first_match length].
      destruct (cpu =? to_u32 (spec_cpu x)); [reflexivity|].
      rewrite IH by lia. replace (Z.to_nat (i + 1)) with (S (Z.to_nat i)) by lia.
      reflexivity.
    + destruct Hl as [-> ->]. reflexivity.
Qed.

Lemma find_cpu_by_name_loop_spec nm rest cpus :
  no_nul nm -> Forall (fun s => no_nul s.(spec_name)) cpus ->
  forall count i, 0 <= i ->
  find_cpu_by_name_loop (c_str nm ++ rest) cpus count i =
    match first_match (fun s => bytes_eqb nm s.(spec_name))
            (take count (drop (Z.to_nat i) cpus)) with
    | Some s => Ok (Some s)
    | None =>
        if (count <=? length (drop (Z.to_nat i) cpus))%nat then Ok None
        else Err OutOfBounds
    end.
Proof.
  intros Hnm Hnames. induction count as [|count IH]; intros i Hi.
  - now rewrite take_0.
  - cbn [find_cpu_by_name_loop]. pose proof (load_drop cpus i Hi) as Hl.
    destruct (load cpus i) as [x|e]; cbn [bind].
    + destruct Hl as [Hx Hl]. rewrite Hl. cbn [take first_match length].
      pose proof (Forall_lookup_1 _ _ _ _ Hnames Hx) as Hxn. cbn beta in Hxn.
      destruct (strcmp_c_str nm (spec_name x) rest [] Hnm Hxn) as (z & Ez & Hz).
      rewrite app_nil_r in Ez. rewrite Ez. cbn [bind]. rewrite Hz.
      destruct (bytes_eqb nm (spec_name x)); [reflexivity|].
      rewrite IH by lia. replace (Z.to_nat (i + 1)) with (S (Z.to_nat i)) by lia.
      reflexivity.
    + destruct Hl as [-> ->]. reflexivity.
Qed.

Lemma bytes_eqb_length a b : bytes_eqb a b = true -> length a = length b.
Proof. intros H. apply bytes_eqb_eq in H. now subst. Qed.

(** The test of one entry of [find_feature_bit]: it holds exactly of the
    entry whose name is the text, and reads inside the name. *)
Lemma feature_hit nm tok rest :
  no_nul tok -> no_nul nm ->
  (do cmp <- strncmp (c_str nm) (tok ++ rest) (length tok);
   if cmp =? 0 then
     do c <- load (c_str nm) (Z.of_nat (length tok));
     Ok (Byte.eqb c Byte.x00)
   else Ok false) = Ok (bytes_eqb nm tok).
Proof.
  intros Ht Hn. destruct (strncmp_prefix tok nm rest Ht Hn) as (z & Ez & Hz & Hl).
  rewrite Ez. cbn [bind]. destruct (Z.eqb_spec z 0) as [H0|H0].
  - specialize (Hl H0). symmetry in Hz.
    destruct (Nat.eq_dec (length tok) (length nm)) as [El|El].
    + rewrite El, firstn_all in Hz. rewrite Hz.
      rewrite (load_some (c_str nm) _ Byte.x00); [reflexivity|lia|].
      rewrite Nat2Z.id. unfold c_str. rewrite El.
      now rewrite lookup_app_r, Nat.sub_diag by lia.
    + assert (Hlt : (length tok < length nm)%nat) by lia.
      destruct (lookup_lt_is_Some_2 nm (length tok) Hlt) as [c Hc].
      rewrite (load_some (c_str nm) _ c); [|lia|].
      * cbn [bind]. f_equal.
        rewrite byte_eqb_x00
          by (apply (Forall_lookup_1 _ _ _ _ Hn Hc)).
        destruct (bytes_eqb nm tok) eqn:E; [|reflexivity].
        apply bytes_eqb_length in E. lia.
      * rewrite Nat2Z.id. unfold c_str. rewrite lookup_app_l by lia. exact Hc.
  - f_equal. destruct (bytes_eqb nm tok) eqn:E; [|reflexivity].
    apply bytes_eqb_eq in E. subst nm.
    rewrite firstn_all, bytes_eqb_refl in Hz. discriminate.
Qed.

Lemma find_feature_bit_loop_spec tok rest features :
  no_nul tok -> Forall (fun f => no_nul f.(fname_name)) features ->
  forall count i, 0 <= i ->
  find_feature_bit_loop features count i (tok ++ rest)
      (Z.of_nat (length tok)) =
    match first_match (fun f => bytes_eqb f.(fname_name) tok)
            (take count (drop (Z.to_nat i) features)) with
    | Some f => Ok f.(fname_bit)
    | None =>
        if (count <=? length (drop (Z.to_nat i) features))%nat
        then Ok 0xFFFFFFFF else Err OutOfBounds
    end.
Proof.
  intros Ht Hnames. induction count as [|count IH]; intros i Hi.
  - now rewrite take_0.
  - cbn [find_feature_bit_loop]. pose proof (load_drop features i Hi) as Hl.
    destruct (load features i) as [x|e]; cbn [bind].
    + destruct Hl as [Hx Hl]. rewrite Hl. cbn [take first_match length].
      pose proof (Forall_lookup_1 _ _ _ _ Hnames Hx) as Hxn. cbn beta in Hxn.
      pose proof (feature_hit (fname_name x) tok rest Ht Hxn) as Hh.
      rewrite Nat2Z.id.
      destruct (strncmp (c_str (fname_name x)) (tok ++ rest) (length tok))
        as [z|]; [|discriminate]. cbn [bind] in Hh |- *. rewrite Hh. cbn [bind].
      destruct (bytes_eqb (fname_name x) tok); [reflexivity|].
      rewrite IH by lia. replace (Z.to_nat (i + 1)) with (S (Z.to_nat i)) by lia.
      reflexivity.
    + destruct Hl as [-> ->]. reflexivity.
Qed.


Lemma first_match_cases {A} (p : A -> bool) l :
  (exists x, first_match p l = Some x /\ first_with p l x) \/
  (first_match p l = None /\ Forall (fun x => p x = false) l).
Proof.
  destruct (first_match p l) as [x|] eqn:E.
  - left. exists x. split; [reflexivity|]. now apply first_match_Some.
  - right. split; [reflexivity|]. now apply first_match_None.
Qed.

Lemma within_table {A} (l : list A) n :
  0 <= n <= Z.of_nat (length l) ->
  (Z.to_nat n <=? length (drop (Z.to_nat 0) l))%nat = true.
Proof.
  intros H. change (Z.to_nat 0) with 0%nat. rewrite drop_0.
  apply Nat.leb_le. lia.
Qed.

(** Extra X9.  [find_cpu] by id returns the first entry of the table with
    that id and the null pointer when there is none; [find_cpu_name] then
    gives the name of that entry, or "generic". *)
Theorem find_cpu_name_first cpu cpus ncpus :
  0 <= ncpus <= Z.of_nat (length cpus) ->
  (exists spec,
     first_with (has_id cpu) (take (Z.to_nat ncpus) cpus) spec /\
     find_cpu cpu cpus ncpus = Ok (Some spec) /\
     find_cpu_name cpu cpus ncpus = Ok spec.(spec_name)) \/
  (Forall (fun s => has_id cpu s = false) (take (Z.to_nat ncpus) cpus) /\
   find_cpu cpu cpus ncpus = Ok None /\
   find_cpu_name cpu cpus ncpus = Ok (cstr "generic")).
Proof.
  intros Hn. unfold find_cpu_name, find_cpu.
  rewrite find_cpu_loop_spec by lia. rewrite (within_table cpus ncpus Hn).
  change (Z.to_nat 0) with 0%nat. rewrite drop_0.
  destruct (first_match_cases (has_id cpu) (take (Z.to_nat ncpus) cpus))
    as [(x & E & Hx)|[E Hnone]]; unfold has_id in E; rewrite E.
  - left. exists x. auto.
  - right. auto.
Qed.

(** Extra X10.  [find_cpu] by name returns the first entry whose name is the
    text of the C string and the null pointer when there is none;
    [find_cpu_id] then gives the id of that entry, or the default. *)
Theorem find_cpu_id_first nm rest cpus ncpus def :
  no_nul nm -> Forall (fun s => no_nul s.(spec_name)) cpus ->
  0 <= ncpus <= Z.of_nat (length cpus) ->
  (exists spec,
     first_with (has_name nm) (take (Z.to_nat ncpus) cpus) spec /\
     find_cpu_by_name (c_str nm ++ rest) cpus ncpus = Ok (Some spec) /\
     find_cpu_id (c_str nm ++ rest) cpus ncpus def = Ok spec.(spec_cpu)) \/
  (Forall (fun s => has_name nm s = false) (take (Z.to_nat ncpus) cpus) /\
   find_cpu_by_name (c_str nm ++ rest) cpus ncpus = Ok None /\
   find_cpu_id (c_str nm ++ rest) cpus ncpus def = Ok def).
Proof.
  intros Hnm Hnames Hn. unfold find_cpu_id, find_cpu_by_name.
  rewrite find_cpu_by_name_loop_spec by (auto; lia).
  rewrite (within_table cpus ncpus Hn).
  change (Z.to_nat 0) with 0%nat. rewrite drop_0.
  destruct (first_match_cases (has_name nm) (take (Z.to_nat ncpus) cpus))
    as [(x & E & Hx)|[E Hnone]]; unfold has_name in E; rewrite E.
  - left. exists x. auto.
  - right. auto.
Qed.

(** Extra X11.  Let none of the [len] bytes at [str] be zero, and let
    the table have [nfeatures] entries, whose names are C strings.  Then
    [find_feature_bit] returns the bit of the first feature whose name is
    exactly those bytes, and [(uint32_t)-1] when no name is; what follows
    the [len] bytes plays no part, and every read of a name stays inside
    the name and its terminator. *)
Theorem find_feature_bit_exact tok rest features nfeatures :
  no_nul tok -> Forall (fun f => no_nul f.(fname_name)) features ->
  0 <= nfeatures <= Z.of_nat (length features) ->
  (exists f,
     first_with (named tok) (take (Z.to_nat nfeatures) features) f /\
     find_feature_bit features nfeatures (tok ++ rest)
       (Z.of_nat (length tok)) = Ok f.(fname_bit)) \/
  (Forall (fun f => named tok f = false) (take (Z.to_nat nfeatures) features) /\
   find_feature_bit features nfeatures (tok ++ rest)
     (Z.of_nat (length tok)) = Ok sentinel).
Proof.
  intros Ht Hnames Hn. unfold find_feature_bit.
  rewrite find_feature_bit_loop_spec by (auto; lia).
  rewrite (within_table features nfeatures Hn).
  change (Z.to_nat 0) with 0%nat. rewrite drop_0.
  destruct (first_match_cases (named tok) (take (Z.to_nat nfeatures) features))
    as [(x & E & Hx)|[E Hnone]]; unfold named in E; rewrite E.
  - left. exists x. auto.
  - right. auto.
Qed.

(** A zero byte among the [len] bytes ends [strncmp] early, and
    [feature.name[len]] is then read behind the terminator of the name:
    for the text [sse], a zero byte and [x], with [len] 5, the name [sse]
    compares equal and its byte 5 is read. *)
Lemma find_feature_bit_zero_byte :
  find_feature_bit sample_features 3
    (cstr "sse" ++ Byte.x00 :: cstr "x") 5 = Err OutOfBounds.
Proof. reflexivity. Qed.

Lemma first_match_unique {A B} (f : A -> B) (eqb : B -> B -> bool) l x :
  (forall a b, eqb a b = true <-> a = b) ->
  NoDup (map f l) -> In x l ->
  first_match (fun y => eqb (f x) (f y)) l = Some x.
Proof.
  intros Heq. induction l as [|a l IH]; intros Hnd Hx; [destruct Hx|].
  cbn [map] in Hnd. apply NoDup_cons in Hnd as [Ha Hnd]. cbn [first_match].
  destruct (eqb (f x) (f a)) eqn:E.
  - apply Heq in E. destruct Hx as [->|Hx]; [reflexivity|].
    exfalso. apply Ha. rewrite <- E. apply list_elem_of_In, in_map, Hx.
  - destruct Hx as [->|Hx]; [|now apply IH].
    assert (eqb (f x) (f x) = true) by now apply Heq. congruence.
Qed.

(** Extra X12.  On a table with distinct names and distinct ids the two
    lookups are inverse to each other: the name of an entry gives its id and
    its id gives its name. *)
Theorem find_cpu_name_id_inverse cpus def spec :
  Forall (fun s => no_nul s.(spec_name)) cpus ->
  NoDup (map spec_name cpus) ->
  NoDup (map (fun s => to_u32 s.(spec_cpu)) cpus) ->
  In spec cpus ->
  find_cpu_name (to_u32 spec.(spec_cpu)) cpus (Z.of_nat (length cpus))
    = Ok spec.(spec_name) /\
  find_cpu_id (c_str spec.(spec_name)) cpus (Z.of_nat (length cpus)) def
    = Ok spec.(spec_cpu).
Proof.
  intros Hnames Hdn Hdi Hin. split.
  - unfold find_cpu_name, find_cpu. rewrite find_cpu_loop_spec by lia.
    change (Z.to_nat 0) with 0%nat. rewrite drop_0, Nat2Z.id, firstn_all.
    rewrite (first_match_unique (fun s => to_u32 (spec_cpu s)) Z.eqb cpus spec);
      auto using Z.eqb_eq.
  - unfold find_cpu_id, find_cpu_by_name.
    rewrite <- (app_nil_r (c_str (spec_name spec))).
    assert (Hnm : no_nul (spec_name spec)).
    { apply (proj1 (Forall_forall _ _) Hnames). now apply list_elem_of_In. }
    rewrite (find_cpu_by_name_loop_spec _ [] cpus Hnm Hnames) by lia.
    change (Z.to_nat 0) with 0%nat. rewrite drop_0, Nat2Z.id, firstn_all.
    rewrite (first_match_unique spec_name bytes_eqb cpus spec);
      auto using bytes_eqb_eq.
Qed.

(** ** Lists of feature strings *)

Lemma join_fold (rest : list bytes) : forall a x,
  fold_left (fun str s => str ++ cstr "," ++ s) rest (a ++ x) =
  a ++ fold_left (fun str s => str ++ cstr "," ++ s) rest x.
Proof.
  induction rest as [|s rest IH]; intros a x; [reflexivity|].
  cbn [fold_left]. rewrite <- app_assoc. apply IH.
Qed.

Lemma join_cons a b (l : list bytes) :
  join_feature_strs (a :: b :: l) = a ++ cstr "," ++ join_feature_strs (b :: l).
Proof.
  cbn [join_feature_strs fold_left].
  rewrite (app_assoc a (cstr ",") b), join_fold. now rewrite <- app_assoc.
Qed.

Lemma join_app (xs ys : list bytes) :
  xs <> [] -> ys <> [] ->
  join_feature_strs (xs ++ ys) =
  join_feature_strs xs ++ cstr "," ++ join_feature_strs ys.
Proof.
  intros Hx Hy. induction xs as [|a xs IH]; [contradiction|].
  destruct xs as [|b xs].
  - destruct ys as [|y ys]; [contradiction|]. apply join_cons.
  - change ((a :: b :: xs) ++ ys) with (a :: b :: (xs ++ ys)).
    rewrite !join_cons. change (b :: xs ++ ys) with ((b :: xs) ++ ys).
    rewrite IH by discriminate. now rewrite <- !app_assoc.
Qed.

Lemma join_nonempty (xs : list bytes) :
  Forall (fun s => s <> []) xs -> xs <> [] -> join_feature_strs xs <> [].
Proof.
  intros Hall Hx. destruct xs as [|a xs]; [contradiction|].
  apply Forall_cons in Hall as [Ha _].
  destruct xs as [|b xs]; [exact Ha|]. rewrite join_cons.
  destruct a; [contradiction|discriminate].
Qed.

Lemma bytes_eqb_nil (s : bytes) : s <> [] -> bytes_eqb s [] = false.
Proof. now destruct s. Qed.

(** Extra X13.  Appending one joined list of features to another with
    [append_ext_features] gives the joined list of both, when no feature is
    the empty string. *)
Theorem append_joined (xs ys : list bytes) :
  Forall (fun s => s <> []) xs -> Forall (fun s => s <> []) ys ->
  append_ext_features (join_feature_strs xs) (join_feature_strs ys) =
  join_feature_strs (xs ++ ys).
Proof.
  intros Hx Hy. unfold append_ext_features.
  destruct ys as [|y ys]; [rewrite (app_nil_r xs); reflexivity|].
  rewrite (bytes_eqb_nil (join_feature_strs (y :: ys)))
    by (now apply join_nonempty).
  destruct xs as [|x xs]; [reflexivity|].
  rewrite (bytes_eqb_nil (join_feature_strs (x :: xs)))
    by (now apply join_nonempty).
  cbn [negb]. rewrite join_app by discriminate. now rewrite <- app_assoc.
Qed.

Lemma append_segments_plain (s : bytes) : forall rest seg features,
  plain s ->
  append_segments (s ++ rest) seg features =
  append_segments rest (seg ++ s) features.
Proof.
  induction s as [|c s IH]; intros rest seg features Hs.
  - now rewrite app_nil_r.
  - apply Forall_cons in Hs as [[Hc Hz] Hs]. cbn [app append_segments].
    rewrite (byte_eqb_x00 _ Hz), Hc. cbn [orb]. rewrite IH by assumption.
    now rewrite <- app_assoc.
Qed.

Lemma append_segments_comma rest seg features :
  append_segments (cstr "," ++ rest) seg features =
  append_segments rest [] (features ++ [seg]).
Proof. reflexivity. Qed.

Lemma append_segments_joined (segs : list bytes) last :
  forall seg features,
  Forall plain segs -> plain last ->
  append_segments (join_feature_strs (segs ++ [last])) seg features =
  features ++ match segs with
              | [] => []
              | s :: rest => (seg ++ s) :: rest
              end.
Proof.
  induction segs as [|s segs IH]; intros seg features Hsegs Hlast.
  - cbn [app join_feature_strs fold_left].
    rewrite <- (app_nil_r last), append_segments_plain by assumption.
    now rewrite app_nil_r.
  - apply Forall_cons in Hsegs as [Hs Hsegs].
    assert (E : exists b l, segs ++ [last] = b :: l)
      by (destruct segs; cbn; eauto).
    destruct E as (b & l & E). cbn [app]. rewrite E, join_cons, <- E.
    rewrite append_segments_plain, append_segments_comma by assumption.
    rewrite IH by assumption. rewrite <- app_assoc. cbn [app].
    now destruct segs.
Qed.

(** Extra X14.  The vector overload of [append_ext_features] appends the
    segments that end in a comma and leaves out the last one: the loop stops
    at the terminator before the test for it. *)
Theorem append_vec_drops_last (features segs : list bytes) last :
  Forall plain segs -> plain last ->
  append_ext_features_vec features (join_feature_strs (segs ++ [last])) =
  features ++ segs.
Proof.
  intros Hsegs Hlast. unfold append_ext_features_vec.
  destruct (bytes_eqb (join_feature_strs (segs ++ [last])) []) eqn:E.
  - apply bytes_eqb_eq in E. destruct segs as [|s segs]; [now rewrite app_nil_r|].
    exfalso. assert (E' : exists b l, segs ++ [last] = b :: l)
      by (destruct segs; cbn; eauto).
    destruct E' as (b & l & E'). cbn [app] in E. rewrite E', join_cons in E.
    destruct s; discriminate.
  - rewrite append_segments_joined by assumption. now destruct segs.
Qed.


(** ** Blobs of several targets *)



(** Extra X16.  A record written for feature lists of another width stops
    [deserialize_target_data] at its assertion. *)
Theorem deserialize_wrong_width n count flags nfeature data :
  is_u32 count -> 0 < count -> is_u32 flags -> is_u32 nfeature ->
  nfeature <> Z.of_nat n ->
  deserialize_target_data n
    (u32_bytes count ++ u32_bytes flags ++ u32_bytes nfeature ++ data)
  = Err AssertFailed.
Proof.
  intros Hc Hpos Hf Hw Hne. unfold deserialize_target_data.
  rewrite load_u32_bytes by assumption. cbn [bind].
  destruct (Z.to_nat count) as [|k] eqn:E; [lia|]. cbn [deserialize_targets].
  rewrite load_u32_bytes by assumption. cbn [bind].
  rewrite load_u32_bytes by assumption. cbn [bind].
  destruct (Z.eqb_spec nfeature (Z.of_nat n)); [contradiction|reflexivity].
Qed.


(** ** What holds of every list of targets the parser returns *)

Lemma land_not32_self w : Z.land w (not32 w) = 0.
Proof.
  apply Z.bits_inj'. intros i Hi.
  rewrite Z.land_spec, testbit_not32, Z.bits_0 by lia.
  destruct (Z.testbit w i), (i <? 32); reflexivity.
Qed.

Section ParserShape.

Variable n : nat.
Variable JL_TARGET_CLONE_ALL : Z.
Variable feature_cb : bytes -> list Z -> bool * list Z.

Abbreviation CA := JL_TARGET_CLONE_ALL.
Abbreviation on_feature' := (on_feature JL_TARGET_CLONE_ALL feature_cb).
Abbreviation on_delimiter' := (on_delimiter n JL_TARGET_CLONE_ALL feature_cb).
Abbreviation parse_loop' := (parse_loop n JL_TARGET_CLONE_ALL feature_cb).
Abbreviation parse' := (parse_cmdline n JL_TARGET_CLONE_ALL feature_cb).

(** What a token after the CPU name does to the name, the flags and the
    base of [arg]. *)
Lemma on_feature_shape disable fname res arg arg1 :
  on_feature' disable fname res arg = Ok arg1 ->
  arg1.(name) = arg.(name) /\
  ((arg1.(en_flags) = Z.lor arg.(en_flags) CA /\
    arg1.(dis_flags) = Z.land arg.(dis_flags) (not32 CA) /\
    arg1.(Target.base) = arg.(Target.base)) \/
   (arg1.(en_flags) = Z.land arg.(en_flags) (not32 CA) /\
    arg1.(dis_flags) = Z.lor arg.(dis_flags) CA /\
    arg1.(Target.base) = arg.(Target.base)) \/
   (arg1.(en_flags) = arg.(en_flags) /\
    arg1.(dis_flags) = arg.(dis_flags) /\
    exists t, load res arg1.(Target.base) = Ok t /\ is_clone_all CA t) \/
   (arg1.(en_flags) = arg.(en_flags) /\
    arg1.(dis_flags) = arg.(dis_flags) /\
    arg1.(Target.base) = arg.(Target.base))).
Proof.
  unfold on_feature. destruct (bytes_eqb fname (cstr "clone_all")).
  { destruct disable; cbn [negb]; intros [= <-]; cbn; auto 10. }
  destruct (get_clone_base fname =? 0); cbn [negb].
  - intros [= <-]. unfold feature_token.
    destruct (feature_cb fname _) as [known l']. cbn. auto 10.
  - destruct disable; [discriminate|].
    destruct (_ >=? _); [discriminate|].
    destruct (load res _) as [t|] eqn:El; [|discriminate]. cbn [bind].
    destruct (Z.eqb_spec (Z.land (dis_flags t) CA) 0) as [Hd|Hd];
      cbn [negb orb]; [|discriminate].
    destruct (Z.eqb_spec (Z.land (en_flags t) CA) 0) as [He|He];
      [discriminate|].
    intros [= <-]. cbn. split; [reflexivity|]. right. right. left.
    repeat split. exists t. repeat split; assumption.
Qed.

(** What a delimiter does: the token updates [arg], which then has a name,
    and [';'] and the terminator push it. *)
Lemma on_delimiter_shape c seg res arg res' arg' done :
  on_delimiter' c seg res arg = Ok (res', arg', done) ->
  done = Byte.eqb c Byte.x00 /\
  exists arg1,
    arg1.(name) <> [] /\
    ((arg.(name) = [] /\ seg <> [] /\ arg1.(name) = seg /\
      arg1.(en_flags) = arg.(en_flags) /\
      arg1.(dis_flags) = arg.(dis_flags) /\
      arg1.(Target.base) = arg.(Target.base)) \/
     (arg.(name) <> [] /\
      exists disable fname, on_feature' disable fname res arg = Ok arg1)) /\
    (res', arg') = if is_char c ";" || Byte.eqb c Byte.x00
                   then reset_arg n res arg1 else (res, arg1).
Proof.
  unfold on_delimiter. destruct (bytes_eqb (name arg) []) eqn:En.
  - apply bytes_eqb_eq in En. destruct (bytes_eqb seg []) eqn:Es; [discriminate|].
    assert (Hs : seg <> []) by (intros ->; discriminate).
    rewrite En. cbn [app].
    destruct (is_char c ";" || Byte.eqb c Byte.x00); cbn [reset_arg];
      intros [= <- <- <-]; (split; [reflexivity|]);
      exists {| name := seg; ext_features := ext_features arg;
                en_features := en_features arg; en_flags := en_flags arg;
                dis_features := dis_features arg; dis_flags := dis_flags arg;
                Target.base := Target.base arg |};
      (split; [exact Hs|split; [left; cbn; auto 10|reflexivity]]).
  - assert (Hn : name arg <> []) by (intros E; rewrite E in En; discriminate).
    destruct (on_feature' _ _ res arg) as [arg1|] eqn:E;
      [|discriminate]. cbn [bind].
    destruct (on_feature_shape _ _ _ _ _ E) as [Hname _].
    destruct (is_char c ";" || Byte.eqb c Byte.x00); cbn [reset_arg];
      intros [= <- <- <-]; (split; [reflexivity|]);
      exists arg1; (split; [congruence|split; [right; eauto|reflexivity]]).
Qed.

Section Invariant.

Variable I : list TargetData -> TargetData -> Prop.
Hypothesis I_step : forall c seg res arg res' arg' done,
  I res arg -> on_delimiter' c seg res arg = Ok (res', arg', done) ->
  I res' arg'.

(** What every delimiter keeps holds at the return of the loop. *)
Lemma parse_loop_keeps s : forall seg res arg r,
  I res arg -> parse_loop' s seg res arg = Ok r -> exists arg', I r arg'.
Proof.
  induction s as [|c s IH]; intros seg res arg r HI; cbn [parse_loop].
  - destruct (on_delimiter' Byte.x00 seg res arg) as [[[res' arg'] done]|] eqn:E;
      [|discriminate]. cbn [bind]. intros [= <-]. eauto.
  - destruct (is_char c "," || is_char c ";" || Byte.eqb c Byte.x00).
    + destruct (on_delimiter' c seg res arg) as [[[res' arg'] done]|] eqn:E;
        [|discriminate]. cbn [bind].
      destruct done; [intros [= <-]; eauto|]. apply IH. eauto.
    + apply IH. exact HI.
Qed.

End Invariant.

Lemma reset_or_keep (b : bool) res (arg1 : TargetData) res' arg' :
  (res', arg') = (if b then reset_arg n res arg1 else (res, arg1)) ->
  (res' = res /\ arg' = arg1) \/
  (res' = res ++ [arg1] /\
   arg' = bare_target n [] arg1.(Target.base)).
Proof. destruct b; cbn [reset_arg]; intros [= -> ->]; auto. Qed.

(** Extra X17.  Every target [parse_cmdline] returns has a name. *)
Theorem parsed_targets_named option res :
  parse_cmdline n JL_TARGET_CLONE_ALL feature_cb option = Ok res ->
  Forall (fun T => T.(name) <> []) res.
Proof.
  destruct option as [s|]; cbn [parse_cmdline]; [|intros [= <-]; constructor].
  intros H.
  destruct (parse_loop_keeps
              (fun res _ => Forall (fun T => T.(name) <> []) res))
    with (s := s) (seg := @nil byte) (res := @nil TargetData)
         (arg := arg_init n) (r := res) as [_ Hr];
    [|constructor|exact H|exact Hr].
  intros c seg r a r' a' done Hr E.
  apply on_delimiter_shape in E as (_ & arg1 & Hname & _ & E).
  apply reset_or_keep in E as [[-> _]|[-> _]]; [exact Hr|].
  apply Forall_app. split; [exact Hr|]. now constructor.
Qed.

(** Extra X18.  In every target [parse_cmdline] returns, the [clone_all] bit
    is set in [en.flags], in [dis.flags] or in neither, never in both, and
    no other bit is set. *)
Theorem parsed_flags option res :
  parse_cmdline n JL_TARGET_CLONE_ALL feature_cb option = Ok res ->
  Forall (flags_ok JL_TARGET_CLONE_ALL) res.
Proof.
  destruct option as [s|]; cbn [parse_cmdline]; [|intros [= <-]; constructor].
  intros H.
  destruct (parse_loop_keeps
              (fun res arg => Forall (flags_ok CA) res /\ flags_ok CA arg))
    with (s := s) (seg := @nil byte) (res := @nil TargetData)
         (arg := arg_init n) (r := res) as [_ [Hr _]];
    [|split|exact H|exact Hr].
  - intros c seg r a r' a' done [Hr Ha] E.
    apply on_delimiter_shape in E as (_ & arg1 & _ & Hstep & E).
    assert (H1 : flags_ok CA arg1).
    { destruct Hstep as [(_ & _ & _ & He & Hd & _)|(_ & d & f & Hf)].
      - unfold flags_ok. rewrite He, Hd. exact Ha.
      - apply on_feature_shape in Hf as [_ Hf]. unfold flags_ok in *.
        destruct Hf as [(He & Hd & _)|[(He & Hd & _)|[(He & Hd & _)|(He & Hd & _)]]];
          rewrite He, Hd;
          destruct Ha as [[-> ->]|[[-> ->]|[-> ->]]];
          rewrite ?Z.lor_0_l, ?Z.land_0_l, ?Z.lor_diag, ?land_not32_self;
          auto. }
    apply reset_or_keep in E as [[-> ->]|[-> ->]]; [auto|].
    split; [|left; split; reflexivity].
    apply Forall_app. split; [exact Hr|]. now constructor.
  - constructor.
  - left. split; reflexivity.
Qed.

Lemma base_ok_mono res ext (l l' : nat) b :
  base_ok CA res l b -> (l <= l')%nat -> base_ok CA (res ++ ext) l' b.
Proof.
  intros [->|(Hb & t & Ht & Hca)] Hl; [now left|]. right. split; [lia|].
  exists t. split; [|exact Hca]. now apply lookup_app_l_Some.
Qed.

(** Extra X19.  The base of a target [parse_cmdline] returns is 0, the
    default, or the index of an earlier target of the list, which has
    [clone_all] enabled and not disabled. *)
Theorem parsed_bases option res i T :
  parse_cmdline n JL_TARGET_CLONE_ALL feature_cb option = Ok res ->
  res !! i = Some T ->
  base_ok JL_TARGET_CLONE_ALL res i T.(Target.base).
Proof.
  destruct option as [s|]; cbn [parse_cmdline];
    [|intros [= <-]; now rewrite lookup_nil].
  intros H.
  destruct (parse_loop_keeps
              (fun res arg =>
                 (forall i T, res !! i = Some T ->
                    base_ok CA res i T.(Target.base)) /\
                 base_ok CA res (length res) arg.(Target.base)))
    with (s := s) (seg := @nil byte) (res := @nil TargetData)
         (arg := arg_init n) (r := res) as [_ [Hr _]];
    [|split|exact H|apply Hr].
  - intros c seg r a r' a' done [Hr Ha] E.
    apply on_delimiter_shape in E as (_ & arg1 & _ & Hstep & E).
    assert (H1 : base_ok CA r (length r) arg1.(Target.base)).
    { destruct Hstep as [(_ & _ & _ & _ & _ & Hb)|(_ & d & f & Hf)].
      - now rewrite Hb.
      - apply on_feature_shape in Hf as [_ Hf].
        destruct Hf as [(_ & _ & Hb)|[(_ & _ & Hb)|[(_ & _ & Hb)|(_ & _ & Hb)]]];
          try (now rewrite Hb).
        destruct Hb as (t & Hl & Hca). right.
        pose proof (load_ok_lookup _ _ _ Hl) as [H0 Hlt]. split; [lia|].
        exists t. split; [|exact Hca]. unfold load in Hl.
        destruct (Target.base arg1 <? 0); [discriminate|].
        destruct (r !! Z.to_nat (Target.base arg1)); congruence. }
    apply reset_or_keep in E as [[-> ->]|[-> ->]]; [auto|]. split.
    + intros j U HU. apply lookup_app_Some in HU as [HU|[Hj HU]].
      * apply (base_ok_mono r [arg1] j j); [now apply Hr|lia].
      * destruct (j - length r)%nat as [|k] eqn:Ek; [|now destruct k].
        injection HU as <-.
        apply (base_ok_mono r [arg1] (length r) j); [exact H1|lia].
    + cbn [bare_target Target.base].
      apply (base_ok_mono r [arg1] (length r)); [exact H1|].
      rewrite length_app. lia.
  - intros j U HU. now rewrite lookup_nil in HU.
  - now left.
Qed.

Lemma semicolons_cons c s :
  semicolons (c :: s) =
  if is_char c ";" then S (semicolons s) else semicolons s.
Proof. unfold semicolons. cbn [List.filter]. now destruct (is_char c ";"). Qed.

Lemma parse_loop_count s : forall seg res arg r,
  no_nul s -> parse_loop' s seg res arg = Ok r ->
  length r = (length res + S (semicolons s))%nat.
Proof.
  induction s as [|c s IH]; intros seg res arg r Hs; cbn [parse_loop].
  - destruct (on_delimiter' Byte.x00 seg res arg) as [[[res' arg'] done]|] eqn:E;
      [|discriminate]. cbn [bind]. intros [= <-].
    apply on_delimiter_shape in E as (_ & arg1 & _ & _ & E).
    cbn in E. injection E as -> _. rewrite length_app. cbn. lia.
  - apply Forall_cons in Hs as [Hc Hs]. rewrite semicolons_cons.
    rewrite (byte_eqb_x00 _ Hc), orb_false_r.
    destruct (is_char c "," || is_char c ";") eqn:Ed.
    + destruct (on_delimiter' c seg res arg) as [[[res' arg'] done]|] eqn:E;
        [|discriminate]. cbn [bind].
      apply on_delimiter_shape in E as (-> & arg1 & _ & _ & E).
      rewrite (byte_eqb_x00 _ Hc), orb_false_r in *. intros H.
      apply IH in H; [|exact Hs]. rewrite H.
      destruct (is_char c ";"); cbn [reset_arg] in E; injection E as -> _;
        rewrite ?length_app; cbn [length]; lia.
    + intros H. apply IH in H; [|exact Hs]. rewrite H.
      apply orb_false_iff in Ed as [_ ->]. reflexivity.
Qed.

(** Extra X20.  [parse_cmdline] returns one target more than the option has
    [';']. *)
Theorem parsed_count s res :
  no_nul s ->
  parse_cmdline n JL_TARGET_CLONE_ALL feature_cb (Some s) = Ok res ->
  length res = S (semicolons s).
Proof.
  intros Hs H. cbn [parse_cmdline] in H.
  now apply parse_loop_count in H.
Qed.

(** The loop on a string with a prefix free of zero bytes: it fails in the
    prefix, or reaches its end in a state that does not depend on what
    follows. *)
Lemma parse_loop_prefix s1 : forall seg res arg,
  no_nul s1 ->
  (exists e, forall rest, parse_loop' (s1 ++ rest) seg res arg = Err e) \/
  (exists seg' res' arg', forall rest,
     parse_loop' (s1 ++ rest) seg res arg = parse_loop' rest seg' res' arg').
Proof.
  induction s1 as [|c s1 IH]; intros seg res arg Hs.
  - right. exists seg, res, arg. reflexivity.
  - apply Forall_cons in Hs as [Hc Hs]. cbn [app parse_loop].
    rewrite (byte_eqb_x00 _ Hc), orb_false_r.
    destruct (is_char c "," || is_char c ";"); [|now apply IH].
    destruct (on_delimiter' c seg res arg) as [[[res' arg'] done]|e] eqn:E.
    + pose proof (on_delimiter_shape _ _ _ _ _ _ _ E) as [-> _].
      rewrite (byte_eqb_x00 _ Hc). cbn [bind]. now apply IH.
    + left. exists e. reflexivity.
Qed.

(** The terminator and [';'] close a target in the same way. *)
Lemma on_delimiter_semicolon seg res arg res' arg' done :
  on_delimiter' Byte.x00 seg res arg = Ok (res', arg', done) ->
  on_delimiter' Byte.x3b seg res arg = Ok (res', arg', false) /\
  exists arg1, arg1.(name) <> [] /\ res' = res ++ [arg1] /\
               arg' = bare_target n [] arg1.(Target.base).
Proof.
  intros H. split.
  - revert H. unfold on_delimiter.
    change (is_char Byte.x3b ";" || Byte.eqb Byte.x3b Byte.x00) with true.
    change (is_char Byte.x00 ";" || Byte.eqb Byte.x00 Byte.x00) with true.
    change (Byte.eqb Byte.x3b Byte.x00) with false.
    destruct (bytes_eqb (name arg) []).
    + destruct (bytes_eqb seg []); [discriminate|]. now intros [= <- <- <-].
    + assert (Hsign : forall s, is_char (hd Byte.x3b seg) s
                                = is_char (hd Byte.x00 seg) s \/ seg = []).
      { intros s0. destruct seg; auto. }
      destruct seg as [|b seg].
      * cbn [hd tl].
        change (is_char Byte.x3b "-") with false.
        change (is_char Byte.x00 "-") with false.
        change (is_char Byte.x3b "+") with false.
        change (is_char Byte.x00 "+") with false. cbn [orb].
        destruct (on_feature' false [] res arg); [|discriminate].
        now intros [= <- <- <-].
      * cbn [hd tl]. destruct (on_feature' _ _ res arg); [|discriminate].
        now intros [= <- <- <-].
  - apply on_delimiter_shape in H as (_ & arg1 & Hn & _ & E).
    change (is_char Byte.x00 ";" || Byte.eqb Byte.x00 Byte.x00) with true in E.
    cbn [reset_arg] in E. injection E as -> ->. exists arg1. auto.
Qed.

(** Extra X21.  [parse_cmdline] reads the option up to its first zero byte. *)
Theorem parse_stops_at_terminator s junk :
  no_nul s ->
  parse_cmdline n JL_TARGET_CLONE_ALL feature_cb
    (Some (s ++ Byte.x00 :: junk)) =
  parse_cmdline n JL_TARGET_CLONE_ALL feature_cb (Some s).
Proof.
  intros Hs. cbn [parse_cmdline].
  destruct (parse_loop_prefix s [] [] (arg_init n) Hs)
    as [[e He]|(seg & res & arg & H)].
  - rewrite He. rewrite <- (app_nil_r s) at 1. now rewrite He.
  - rewrite H. rewrite <- (app_nil_r s), H.
    cbn [parse_loop]. change (is_char Byte.x00 "," || _ || _) with true.
    destruct (on_delimiter' Byte.x00 seg res arg) as [[[res' arg'] done]|] eqn:E;
      [|reflexivity].
    apply on_delimiter_shape in E as [-> _]. reflexivity.
Qed.

(** Extra X22.  An option that is empty, begins with [';'] or, being valid
    without it, ends in [';'] stops with the error for an empty CPU name. *)
Theorem empty_target_rejected :
  parse_cmdline n JL_TARGET_CLONE_ALL feature_cb (Some [])
  = Err (Fatal "Invalid target option: empty CPU name") /\
  (forall s,
     parse_cmdline n JL_TARGET_CLONE_ALL feature_cb (Some (cstr ";" ++ s))
     = Err (Fatal "Invalid target option: empty CPU name")) /\
  (forall s res,
     no_nul s ->
     parse_cmdline n JL_TARGET_CLONE_ALL feature_cb (Some s) = Ok res ->
     parse_cmdline n JL_TARGET_CLONE_ALL feature_cb (Some (s ++ cstr ";"))
     = Err (Fatal "Invalid target option: empty CPU name")).
Proof.
  split; [reflexivity|]. split; [reflexivity|]. intros s res Hs H.
  cbn [parse_cmdline] in *.
  destruct (parse_loop_prefix s [] [] (arg_init n) Hs)
    as [[e He]|(seg & r & arg & Hp)].
  - rewrite <- (app_nil_r s), He in H. discriminate.
  - rewrite Hp. rewrite <- (app_nil_r s), Hp in H. cbn [parse_loop] in H.
    destruct (on_delimiter' Byte.x00 seg r arg) as [[[res' arg'] done]|] eqn:E;
      [|discriminate].
    apply on_delimiter_semicolon in E as (E & arg1 & _ & -> & ->).
    change (cstr ";") with [Byte.x3b]. cbn [parse_loop].
    change (is_char Byte.x3b "," || _ || _) with true.
    rewrite E. reflexivity.
Qed.

(** Extra X23.  A CPU name appended behind [';'] to a valid option adds one
    target to the list: it has that name, no feature and no flag, and the
    base of the target before it, which [reset_arg] does not clear. *)
Theorem next_target_keeps_base s nm res :
  no_nul s -> nm <> [] ->
  forallb (fun b => negb (is_delimiter b)) nm = true ->
  parse_cmdline n JL_TARGET_CLONE_ALL feature_cb (Some s) = Ok res ->
  exists prev,
    last res = Some prev /\
    parse_cmdline n JL_TARGET_CLONE_ALL feature_cb
      (Some (s ++ cstr ";" ++ nm))
    = Ok (res ++ [bare_target n nm prev.(Target.base)]).
Proof.
  intros Hs Hnm Hplain H. cbn [parse_cmdline] in *.
  destruct (parse_loop_prefix s [] [] (arg_init n) Hs)
    as [[e He]|(seg & r & arg & Hp)].
  - rewrite <- (app_nil_r s), He in H. discriminate.
  - rewrite Hp. rewrite <- (app_nil_r s), Hp in H. cbn [parse_loop] in H.
    destruct (on_delimiter' Byte.x00 seg r arg) as [[[res' arg'] done]|] eqn:E;
      [|discriminate].
    cbn [bind] in H. injection H as <-.
    apply on_delimiter_semicolon in E as (E & arg1 & _ & -> & ->).
    exists arg1. split; [apply last_snoc|].
    change (cstr ";") with [Byte.x3b]. cbn [app parse_loop].
    change (is_char Byte.x3b "," || _ || _) with true.
    rewrite E. cbn [bind]. rewrite parse_loop_last by exact Hplain.
    cbn [app]. unfold on_delimiter. cbn [bare_target name bytes_eqb].
    rewrite bytes_eqb_nil by exact Hnm. reflexivity.
Qed.

End ParserShape.

(** ** What the loader leaves alone and what it returns *)

Lemma load_In {A} (arr : list A) i x : load arr i = Ok x -> In x arr.
Proof.
  unfold load. destruct (i <? 0); [discriminate|].
  destruct (arr !! Z.to_nat i) eqn:E; [|discriminate]. intros [= <-].
  eapply list_elem_of_In, list_elem_of_lookup_2, E.
Qed.

Section Frame.

Variable img : image.
Variable off : Z.
Hypothesis off_free :
  forall slot, In slot img.(jl_dispatch_reloc_slots) ->
    ~ (slot <= off < slot + Z.of_nat ptr_size).

Lemma scan_slots_frame count : forall idx target reloc_i found data r f data',
  scan_slots img count idx target reloc_i found data = Ok (r, f, data') ->
  data' off = data off.
Proof.
  induction count as [|count IH]; intros idx target reloc_i found data r f data';
    cbn [scan_slots].
  - now intros [= _ _ <-].
  - destruct (load _ (1 + to_u32 (reloc_i * 2))) as [reloc_idx|];
      [|discriminate]. cbn [bind].
    destruct (reloc_idx =? idx).
    + destruct (load _ (1 + to_u32 (reloc_i * 2 + 1))) as [slot|] eqn:Es;
        [|discriminate]. cbn [bind]. intros H. apply IH in H. rewrite H.
      apply write_slot_frame, off_free. eapply load_In, Es.
    + destruct (reloc_idx >? idx); [now intros [= _ _ <-]|]. apply IH.
Qed.

Lemma relocate_frame nreloc clone_all res clone_idxs clone_offsets count :
  forall i reloc_i data data',
  relocate img nreloc clone_all res clone_idxs clone_offsets count i reloc_i data
    = Ok data' ->
  data' off = data off.
Proof.
  induction count as [|count IH]; intros i reloc_i data data'; cbn [relocate].
  - now intros [= <-].
  - destruct (override img clone_all res clone_idxs clone_offsets i)
      as [[[idx offset]|]|]; cbn [bind]; [|apply IH|discriminate].
    destruct (scan_slots img _ idx _ reloc_i false data)
      as [[[r f] d]|] eqn:Es; [|discriminate]. cbn [bind].
    destruct f; cbn [negb]; [|discriminate]. intros H. apply IH in H.
    rewrite H. eapply scan_slots_frame, Es.
Qed.

End Frame.

(** Extra X24.  [parse_sysimg] writes to the data section only where a
    pointer lies whose offset is a word of [jl_dispatch_reloc_slots]: a
    byte that is none of the [ptr_size] bytes from such an offset on keeps
    its value. *)
Theorem parse_sysimg_frame img target_idx data res data' off :
  parse_sysimg img target_idx data = Ok (res, data') ->
  (forall slot, In slot img.(jl_dispatch_reloc_slots) ->
     ~ (slot <= off < slot + Z.of_nat ptr_size)) ->
  data' off = data off.
Proof.
  unfold parse_sysimg. intros H Hoff.
  destruct (load _ 0) as [nreloc|]; [|discriminate]. cbn [bind] in H.
  destruct (walk_to_target img target_idx) as [st|]; [|discriminate].
  cbn [bind] in H.
  destruct (fill_result img target_idx st) as [[r ci]|]; [|discriminate].
  cbn [bind] in H.
  destruct (relocate img _ _ _ _ _ _ _ _ _) as [d|] eqn:Er; [|discriminate].
  cbn [bind] in H. injection H as _ <-.
  eapply relocate_frame; eauto.
Qed.

(** Extra X25.  The struct [parse_sysimg] returns for target [k] of an
    image that holds the targets [targets]: [base] is the text anchor and
    the second member stays 0.  For a [clone_all] target, [offsets] is the
    table of the target itself (the default table for target 0), it reads
    the offsets of that target, and the three clone members stay empty.
    For a sparse target with the base index [b], [b] is the index of an
    earlier target that is [clone_all], [offsets] is the table of target
    [b] and reads its offsets, [nclones] is the length of the list of the
    target, [clone_offsets] points at its offsets and [clone_idxs] at its
    list, behind the base index. *)
Theorem parse_sysimg_result img nfunc targets (k : nat) t data res data' :
  laid_out img nfunc targets ->
  targets !! k = Some t ->
  parse_sysimg img (Z.of_nat k) data = Ok (res, data') ->
  res.(Sysimg.base) = img.(jl_sysimg_fvars_base) /\
  res.(noffsets) = 0 /\
  match t with
  | CloneAll _ offs =>
      res.(offsets) = table_of targets k /\
      (forall (j : nat) w, offs !! j = Some w ->
         load_offset img res.(offsets) (Z.of_nat j) = Ok w) /\
      res.(nclones) = 0 /\
      res.(clone_offsets) = Null /\
      res.(clone_idxs) = None
  | Sparse b idxs offs =>
      0 <= b < Z.of_nat k /\
      (exists bidxs boffs,
         targets !! Z.to_nat b = Some (CloneAll bidxs boffs) /\
         forall (j : nat) w, boffs !! j = Some w ->
           load_offset img res.(offsets) (Z.of_nat j) = Ok w) /\
      res.(offsets) = table_of targets (Z.to_nat b) /\
      res.(nclones) = Z.of_nat (length idxs) /\
      res.(clone_offsets) = InClones (offs_pos targets k) /\
      (forall (i : nat) w, offs !! i = Some w ->
         load_offset img res.(clone_offsets) (Z.of_nat i) = Ok w) /\
      res.(clone_idxs) = Some (idxs_pos targets k + 1) /\
      (forall (i : nat) w, idxs !! i = Some w ->
         load img.(jl_dispatch_fvars_idxs) (idxs_pos targets k + 1 + Z.of_nat i)
         = Ok w)
  end.
Proof.
  intros Hlaid Hk Hparse.
  destruct (parse_sysimg_at img nfunc targets Hlaid k t data res data' Hk Hparse)
    as (nreloc & ci & _ & Hfill & _).
  destruct (fill_result_at img nfunc targets Hlaid k t res ci Hk Hfill)
    as (Hbase & Hno & Hres).
  split; [exact Hbase|]. split; [exact Hno|].
  destruct t as [idxs offs|b idxs offs].
  - destruct Hres as (_ & Hoffs & Hn & Hco & Hci).
    repeat apply conj; auto.
    intros j w Hj. rewrite Hoffs. eapply table_reads; eauto.
  - destruct Hres as (_ & Hb & (bidxs & boffs & Hbase_t) & Hoffs & Hn & Hco & Hci).
    repeat apply conj; auto; try lia.
    + exists bidxs, boffs. split; [exact Hbase_t|].
      intros j w Hj. rewrite Hoffs. eapply table_reads; eauto.
    + intros i w Hi. rewrite Hco. cbn [load_offset].
      now apply (load_offset_word img nfunc targets Hlaid k _ i w Hk).
    + intros i w Hi.
      replace (idxs_pos targets k + 1 + Z.of_nat i)
        with (idxs_pos targets k - 1 + Z.of_nat (S (S i))) by lia.
      now apply (load_idx_word img nfunc targets Hlaid k _ (S (S i)) w Hk).
Qed.

(** Extra X26.  An image whose first word of [jl_dispatch_fvars_idxs] has no
    tag bit stops [parse_sysimg] at its first assertion, before any slot is
    written. *)
Theorem untagged_default_rejected img target_idx data nreloc nfunc tag_len :
  load img.(jl_dispatch_reloc_slots) 0 = Ok nreloc ->
  load img.(jl_sysimg_fvars_offsets) 0 = Ok nfunc ->
  load img.(jl_dispatch_fvars_idxs) 0 = Ok tag_len ->
  Z.land tag_len tag_mask = 0 ->
  parse_sysimg img target_idx data = Err AssertFailed.
Proof.
  intros Hr Hf Ht H0. unfold parse_sysimg, walk_to_target.
  rewrite Hr, Hf, Ht. cbn [bind]. now rewrite H0.
Qed.

(** ** The base token and the mask test *)

(** Extra X27.  For a token [base(k)], [k] one decimal digit or more,
    [get_clone_base] returns [k + 1] as long as [k + 1] is an [int], and 0,
    its answer for no match, once [strtol] saturates at [LONG_MAX]. *)
Theorem get_clone_base_one_based ds :
  ds <> [] -> forallb is_digit ds = true ->
  (decimal ds <= 2 ^ 31 - 2 ->
   get_clone_base (cstr "base(" ++ ds ++ cstr ")") = decimal ds + 1) /\
  (LONG_MAX <= decimal ds ->
   get_clone_base (cstr "base(" ++ ds ++ cstr ")") = 0).
Proof.
  intros Hne Hds. rewrite get_clone_base_shape by assumption.
  pose proof (decimal_from_nonneg ds 0 ltac:(lia) Hds) as H0.
  fold (decimal ds) in H0. split; intros Hk.
  - assert (LONG_MAX = 2 ^ 63 - 1) by reflexivity.
    rewrite Z.min_l by lia. rewrite (to_int_id (decimal ds)) by lia.
    apply to_int_id. lia.
  - rewrite Z.min_r by lia. reflexivity.
Qed.

(** Extra X28.  [test_bits(v, mask)] holds exactly when every bit of [mask]
    is set in [v]. *)
Theorem test_bits_all v mask :
  is_u32 mask ->
  test_bits v mask = true <->
  (forall i, 0 <= i -> Z.testbit mask i = true -> Z.testbit v i = true).
Proof.
  intros Hm. unfold test_bits, test_bits3.
  assert (Hl : to_u32 (Z.land v mask) = Z.land v mask).
  { apply to_u32_id. apply is_u32_bits. intros i Hi.
    rewrite Z.land_spec, (proj1 (is_u32_bits mask) Hm i Hi).
    apply andb_false_r. }
  rewrite Hl, Z.eqb_eq. split.
  - intros E i Hi Hb. rewrite <- E, Z.land_spec in Hb.
    now apply andb_true_iff in Hb as [Hv _].
  - intros H. apply Z.bits_inj'. intros i Hi. rewrite Z.land_spec.
    destruct (Z.testbit mask i) eqn:E; [|apply andb_false_r].
    now rewrite (H i Hi E).
Qed.

(** ** The count of set bits *)

Lemma below_pow2_bits k z :
  0 <= k ->
  0 <= z < 2 ^ k <-> (forall i, k <= i -> Z.testbit z i = false).
Proof.
  intros Hk. split.
  - intros Hz i Hi. rewrite <- (Z.mod_small z (2 ^ k)) by lia.
    apply Z.mod_pow2_bits_high. lia.
  - intros Hb. replace z with (z mod 2 ^ k); [apply Z.mod_pos_bound; lia|].
    apply Z.bits_inj'. intros i Hi. rewrite Z.testbit_mod_pow2 by lia.
    destruct (Z.ltb_spec i k); [reflexivity|]. symmetry. now apply Hb.
Qed.

(** The bits of a number given by its low [k] bits and the rest. *)
Lemma testbit_split k a x i :
  0 <= k -> 0 <= a < 2 ^ k -> 0 <= i ->
  Z.testbit (a + 2 ^ k * x) i =
    if i <? k then Z.testbit a i else Z.testbit x (i - k).
Proof.
  intros Hk Ha Hi. destruct (Z.ltb_spec i k).
  - rewrite <- (Z.mod_pow2_bits_low (a + 2 ^ k * x) k i) by lia.
    rewrite (Z.mul_comm (2 ^ k) x), Z.mod_add by lia.
    now rewrite Z.mod_small by lia.
  - replace i with ((i - k) + k) at 1 by lia.
    rewrite <- Z.div_pow2_bits by lia.
    rewrite (Z.mul_comm (2 ^ k) x), Z.div_add by lia.
    now rewrite Z.div_small by lia.
Qed.

Lemma land_split k a m x y :
  0 <= k -> 0 <= a < 2 ^ k -> 0 <= m < 2 ^ k ->
  Z.land (a + 2 ^ k * x) (m + 2 ^ k * y) = Z.land a m + 2 ^ k * Z.land x y.
Proof.
  intros Hk Ha Hm. apply Z.bits_inj'. intros i Hi.
  assert (Hl : 0 <= Z.land a m < 2 ^ k).
  { apply below_pow2_bits; [exact Hk|]. intros j Hj. rewrite Z.land_spec.
    now rewrite (proj1 (below_pow2_bits k a Hk) Ha j Hj). }
  rewrite Z.land_spec, !testbit_split by assumption.
  destruct (i <? k); now rewrite Z.land_spec.
Qed.

Lemma land_word4 a0 a1 a2 a3 m0 m1 m2 m3 :
  is_byte a0 -> is_byte a1 -> is_byte a2 ->
  is_byte m0 -> is_byte m1 -> is_byte m2 ->
  Z.land (word4 a0 a1 a2 a3) (word4 m0 m1 m2 m3) =
  word4 (Z.land a0 m0) (Z.land a1 m1) (Z.land a2 m2) (Z.land a3 m3).
Proof. intros. now rewrite !land_split by lia. Qed.

Lemma word4_u32 b0 b1 b2 b3 :
  is_byte b0 -> is_byte b1 -> is_byte b2 -> is_byte b3 ->
  to_u32 (word4 b0 b1 b2 b3) = word4 b0 b1 b2 b3.
Proof. intros. apply to_u32_id. unfold is_u32. lia. Qed.

Lemma word4_of_u32 v :
  is_u32 v ->
  exists b0 b1 b2 b3,
    v = word4 b0 b1 b2 b3 /\
    is_byte b0 /\ is_byte b1 /\ is_byte b2 /\ is_byte b3.
Proof.
  unfold is_u32. intros Hv.
  exists (v mod 256), (v / 256 mod 256), (v / 65536 mod 256), (v / 16777216).
  change (2 ^ 8) with 256. change (2 ^ 32) with 4294967296 in Hv.
  repeat apply conj; Z.div_mod_to_equations; lia.
Qed.

Lemma shiftr_word4 s b0 b1 b2 b3 :
  0 <= s <= 8 ->
  is_byte b0 -> is_byte b1 -> is_byte b2 -> is_byte b3 ->
  Z.shiftr (word4 b0 b1 b2 b3) s =
  word4 (b0 / 2 ^ s + 2 ^ (8 - s) * (b1 mod 2 ^ s))
        (b1 / 2 ^ s + 2 ^ (8 - s) * (b2 mod 2 ^ s))
        (b2 / 2 ^ s + 2 ^ (8 - s) * (b3 mod 2 ^ s))
        (b3 / 2 ^ s).
Proof.
  intros Hs H0 H1 H2 H3. rewrite Z.shiftr_div_pow2 by lia.
  assert (Hp : 2 ^ 8 = 2 ^ s * 2 ^ (8 - s))
    by (rewrite <- Z.pow_add_r by lia; f_equal; lia).
  assert (0 < 2 ^ s) by (apply Z.pow_pos_nonneg; lia).
  assert (0 < 2 ^ (8 - s)) by (apply Z.pow_pos_nonneg; lia).
  pose proof (Z.div_mod b0 (2 ^ s) ltac:(lia)).
  pose proof (Z.div_mod b1 (2 ^ s) ltac:(lia)).
  pose proof (Z.div_mod b2 (2 ^ s) ltac:(lia)).
  pose proof (Z.div_mod b3 (2 ^ s) ltac:(lia)).
  pose proof (Z.mod_pos_bound b0 (2 ^ s) ltac:(lia)).
  set (q0 := b0 / 2 ^ s) in *. set (r0 := b0 mod 2 ^ s) in *.
  set (q1 := b1 / 2 ^ s) in *. set (r1 := b1 mod 2 ^ s) in *.
  set (q2 := b2 / 2 ^ s) in *. set (r2 := b2 mod 2 ^ s) in *.
  set (q3 := b3 / 2 ^ s) in *. set (r3 := b3 mod 2 ^ s) in *.
  rewrite Hp. set (S := 2 ^ s) in *. set (T := 2 ^ (8 - s)) in *.
  clearbody q0 r0 q1 r1 q2 r2 q3 r3 S T.
  symmetry. apply Z.div_unique with (r := r0); [lia|]. subst b0 b1 b2 b3.
  ring.
Qed.

(** Exhaustive checks over the bytes. *)
Lemma byte_cases (P : Z -> bool) :
  forallb P (map Z.of_nat (seq 0 256)) = true ->
  forall b, is_byte b -> P b = true.
Proof.
  intros H b Hb. rewrite forallb_forall in H. apply H.
  apply in_map_iff. exists (Z.to_nat b). split; [lia|].
  apply in_seq. change (2 ^ 8) with 256 in Hb. lia.
Qed.

Lemma nibble_cases (P : Z -> bool) :
  forallb P (map Z.of_nat (seq 0 16)) = true ->
  forall e, 0 <= e < 16 -> P e = true.
Proof.
  intros H e He. rewrite forallb_forall in H. apply H.
  apply in_map_iff. exists (Z.to_nat e). split; [lia|].
  apply in_seq. lia.
Qed.

(** The first line on one byte: the bit that the shift brings in from the
    next byte is masked, and the difference is a byte. *)
Lemma pairs_byte b e :
  is_byte b -> 0 <= e < 2 ->
  Z.land (b / 2 + 128 * e) 0x55 = Z.land (b / 2) 0x55 /\ is_byte (pairs b).
Proof.
  intros Hb He.
  pose proof (byte_cases
    (fun b => forallb (fun e =>
       (Z.land (b / 2 + 128 * e) 0x55 =? Z.land (b / 2) 0x55)
       && (0 <=? pairs b) && (pairs b <? 256))
       (map Z.of_nat (seq 0 16)))
    ltac:(vm_compute; reflexivity) b Hb) as H.
  cbn beta in H.
  pose proof (nibble_cases _ H e ltac:(lia)) as H'. cbn beta in H'.
  apply andb_true_iff in H' as [H' H3]. apply andb_true_iff in H' as [H1 H2].
  change (2 ^ 8) with 256. lia.
Qed.

(** The second line on one byte. *)
Lemma quads_byte c e :
  is_byte c -> 0 <= e < 4 ->
  Z.land (c / 4 + 64 * e) 0x33 = Z.land (c / 4) 0x33 /\ is_byte (quads c).
Proof.
  intros Hc He.
  pose proof (byte_cases
    (fun c => forallb (fun e =>
       (Z.land (c / 4 + 64 * e) 0x33 =? Z.land (c / 4) 0x33)
       && (0 <=? quads c) && (quads c <? 256))
       (map Z.of_nat (seq 0 16)))
    ltac:(vm_compute; reflexivity) c Hc) as H.
  cbn beta in H.
  pose proof (nibble_cases _ H e ltac:(lia)) as H'. cbn beta in H'.
  apply andb_true_iff in H' as [H' H3]. apply andb_true_iff in H' as [H1 H2].
  change (2 ^ 8) with 256. lia.
Qed.

(** The third line on one byte that went through the first two: its two
    nibbles are counts up to 4, and their sum, which the mask keeps, is the
    count of the bits of the byte. *)
Lemma nibbles_byte b e :
  is_byte b -> 0 <= e <= 4 ->
  let d := quads (pairs b) in
  d mod 16 <= 4 /\ 0 <= d <= 68 /\
  Z.land (d + (d / 16 + 16 * e)) 0xF = builtin_popcount b /\
  0 <= builtin_popcount b <= 8.
Proof.
  intros Hb He.
  pose proof (byte_cases
    (fun b => forallb (fun e =>
       let d := quads (pairs b) in
       (d mod 16 <=? 4) && (0 <=? d) && (d <=? 68)
       && ((4 <? e) || (Z.land (d + (d / 16 + 16 * e)) 0xF
                        =? builtin_popcount b))
       && (0 <=? builtin_popcount b) && (builtin_popcount b <=? 8))
       (map Z.of_nat (seq 0 16)))
    ltac:(vm_compute; reflexivity) b Hb) as H.
  cbn beta in H.
  pose proof (nibble_cases _ H e ltac:(lia)) as H'. cbn beta zeta in H'.
  repeat (apply andb_true_iff in H' as [H' ?]).
  destruct (Z.ltb_spec 4 e); [lia|]. cbn [orb] in *.
  cbn zeta. lia.
Qed.

Lemma shifted_byte s b b' :
  0 < s < 8 -> is_byte b -> is_byte b' ->
  is_byte (b / 2 ^ s + 2 ^ (8 - s) * (b' mod 2 ^ s)).
Proof.
  intros Hs Hb Hb'.
  assert (Hp : 2 ^ 8 = 2 ^ s * 2 ^ (8 - s))
    by (rewrite <- Z.pow_add_r by lia; f_equal; lia).
  assert (0 < 2 ^ s) by (apply Z.pow_pos_nonneg; lia).
  assert (0 < 2 ^ (8 - s)) by (apply Z.pow_pos_nonneg; lia).
  pose proof (Z.mod_pos_bound b' (2 ^ s) ltac:(lia)).
  assert (0 <= b / 2 ^ s < 2 ^ (8 - s)).
  { split; [apply Z.div_pos; lia|]. apply Z.div_lt_upper_bound; lia. }
  rewrite Hp. nia.
Qed.

Lemma swar_line1 b0 b1 b2 b3 :
  is_byte b0 -> is_byte b1 -> is_byte b2 -> is_byte b3 ->
  to_u32 (word4 b0 b1 b2 b3
          - Z.land (Z.shiftr (word4 b0 b1 b2 b3) 1) 0x55555555) =
  word4 (pairs b0) (pairs b1) (pairs b2) (pairs b3).
Proof.
  intros H0 H1 H2 H3. rewrite shiftr_word4 by (assumption || lia).
  assert (M : 0x55555555 = word4 0x55 0x55 0x55 0x55) by reflexivity.
  rewrite M; clear M.
  rewrite land_word4 by (try (apply shifted_byte; (assumption || lia)); lia).
  assert (P1 : 2 ^ 1 = 2) by reflexivity.
  assert (P7 : 2 ^ (8 - 1) = 128) by reflexivity.
  rewrite P1, P7; clear P1 P7.
  assert (He : forall b, 0 <= b mod 2 < 2)
    by (intros; apply Z.mod_pos_bound; lia).
  rewrite (proj1 (pairs_byte b0 _ H0 (He b1))).
  rewrite (proj1 (pairs_byte b1 _ H1 (He b2))).
  rewrite (proj1 (pairs_byte b2 _ H2 (He b3))).
  pose proof (proj2 (pairs_byte b0 0 H0 ltac:(lia))).
  pose proof (proj2 (pairs_byte b1 0 H1 ltac:(lia))).
  pose proof (proj2 (pairs_byte b2 0 H2 ltac:(lia))).
  pose proof (proj2 (pairs_byte b3 0 H3 ltac:(lia))).
  rewrite <- (word4_u32 (pairs b0) (pairs b1) (pairs b2) (pairs b3))
    by assumption.
  f_equal. ring.
Qed.

Lemma swar_line2 c0 c1 c2 c3 :
  is_byte c0 -> is_byte c1 -> is_byte c2 -> is_byte c3 ->
  to_u32 (Z.land (word4 c0 c1 c2 c3) 0x33333333
          + Z.land (Z.shiftr (word4 c0 c1 c2 c3) 2) 0x33333333) =
  word4 (quads c0) (quads c1) (quads c2) (quads c3).
Proof.
  intros H0 H1 H2 H3. rewrite shiftr_word4 by (assumption || lia).
  assert (M : 0x33333333 = word4 0x33 0x33 0x33 0x33) by reflexivity.
  rewrite M; clear M.
  rewrite (land_word4 c0 c1 c2 c3) by lia.
  rewrite land_word4 by (try (apply shifted_byte; (assumption || lia)); lia).
  assert (P2 : 2 ^ 2 = 4) by reflexivity.
  assert (P6 : 2 ^ (8 - 2) = 64) by reflexivity.
  rewrite P2, P6; clear P2 P6.
  assert (He : forall b, 0 <= b mod 4 < 4)
    by (intros; apply Z.mod_pos_bound; lia).
  rewrite (proj1 (quads_byte c0 _ H0 (He c1))).
  rewrite (proj1 (quads_byte c1 _ H1 (He c2))).
  rewrite (proj1 (quads_byte c2 _ H2 (He c3))).
  pose proof (proj2 (quads_byte c0 0 H0 ltac:(lia))).
  pose proof (proj2 (quads_byte c1 0 H1 ltac:(lia))).
  pose proof (proj2 (quads_byte c2 0 H2 ltac:(lia))).
  pose proof (proj2 (quads_byte c3 0 H3 ltac:(lia))).
  rewrite <- (word4_u32 (quads c0) (quads c1) (quads c2) (quads c3))
    by assumption.
  f_equal. ring.
Qed.

Lemma swar_line3 b0 b1 b2 b3 :
  is_byte b0 -> is_byte b1 -> is_byte b2 -> is_byte b3 ->
  let d0 := quads (pairs b0) in let d1 := quads (pairs b1) in
  let d2 := quads (pairs b2) in let d3 := quads (pairs b3) in
  Z.land (to_u32 (word4 d0 d1 d2 d3 + Z.shiftr (word4 d0 d1 d2 d3) 4))
    0xF0F0F0F =
  word4 (builtin_popcount b0) (builtin_popcount b1)
        (builtin_popcount b2) (builtin_popcount b3).
Proof.
  intros H0 H1 H2 H3 d0 d1 d2 d3.
  destruct (nibbles_byte b0 0 H0 ltac:(lia)) as (L0 & R0 & _ & _).
  destruct (nibbles_byte b1 0 H1 ltac:(lia)) as (L1 & R1 & _ & _).
  destruct (nibbles_byte b2 0 H2 ltac:(lia)) as (L2 & R2 & _ & _).
  destruct (nibbles_byte b3 0 H3 ltac:(lia)) as (L3 & R3 & E3 & _).
  fold d0 in L0, R0. fold d1 in L1, R1. fold d2 in L2, R2.
  fold d3 in L3, R3, E3.
  assert (Hm : forall d, 0 <= d mod 16) by (intros; apply Z.mod_pos_bound; lia).
  pose proof (proj1 (proj2 (proj2 (nibbles_byte b0 (d1 mod 16) H0
                                     (conj (Hm d1) L1))))) as E0.
  pose proof (proj1 (proj2 (proj2 (nibbles_byte b1 (d2 mod 16) H1
                                     (conj (Hm d2) L2))))) as E1.
  pose proof (proj1 (proj2 (proj2 (nibbles_byte b2 (d3 mod 16) H2
                                     (conj (Hm d3) L3))))) as E2.
  cbn zeta in E0, E1, E2. fold d0 in E0. fold d1 in E1. fold d2 in E2.
  clearbody d0 d1 d2 d3.
  assert (P8 : 2 ^ 8 = 256) by reflexivity.
  rewrite shiftr_word4 by (rewrite ?P8; lia).
  assert (P4 : 2 ^ 4 = 16) by reflexivity.
  assert (P4' : 2 ^ (8 - 4) = 16) by reflexivity.
  rewrite P4, P4'; clear P4 P4'.
  assert (Hq : forall d, 0 <= d <= 68 -> 0 <= d / 16 <= 4).
  { intros d Hd. split; [apply Z.div_pos; lia|].
    assert (d / 16 < 5) by (apply Z.div_lt_upper_bound; lia). lia. }
  pose proof (Hq d0 R0). pose proof (Hq d1 R1).
  pose proof (Hq d2 R2). pose proof (Hq d3 R3).
  pose proof (Hm d1). pose proof (Hm d2). pose proof (Hm d3).
  replace (word4 d0 d1 d2 d3
           + word4 (d0 / 16 + 16 * (d1 mod 16)) (d1 / 16 + 16 * (d2 mod 16))
                   (d2 / 16 + 16 * (d3 mod 16)) (d3 / 16))
    with (word4 (d0 + (d0 / 16 + 16 * (d1 mod 16)))
                (d1 + (d1 / 16 + 16 * (d2 mod 16)))
                (d2 + (d2 / 16 + 16 * (d3 mod 16)))
                (d3 + (d3 / 16 + 16 * 0))) by ring.
  rewrite word4_u32 by (rewrite ?P8; lia).
  assert (M : 0xF0F0F0F = word4 0xF 0xF 0xF 0xF) by reflexivity.
  rewrite M; clear M.
  rewrite land_word4 by (rewrite ?P8; lia).
  now rewrite E0, E1, E2, E3.
Qed.

Lemma swar_line4 h0 h1 h2 h3 :
  0 <= h0 <= 8 -> 0 <= h1 <= 8 -> 0 <= h2 <= 8 -> 0 <= h3 <= 8 ->
  Z.shiftr (to_u32 (word4 h0 h1 h2 h3 * 0x1010101)) 24 = h0 + h1 + h2 + h3.
Proof.
  intros H0 H1 H2 H3.
  assert (E : word4 h0 h1 h2 h3 * 0x1010101 =
              (h0 + 256 * (h0 + h1) + 65536 * (h0 + h1 + h2))
              + (h0 + h1 + h2 + h3) * 16777216
              + (h1 + h2 + h3 + 256 * (h2 + h3) + 65536 * h3) * 4294967296).
  { assert (P8 : 2 ^ 8 = 256) by reflexivity. rewrite P8. lia. }
  unfold to_u32. rewrite E.
  assert (P32 : 2 ^ 32 = 4294967296) by reflexivity. rewrite P32.
  rewrite Z.mod_add by lia. rewrite Z.mod_small by lia.
  rewrite Z.shiftr_div_pow2 by lia.
  assert (P24 : 2 ^ 24 = 16777216) by reflexivity. rewrite P24.
  rewrite Z.div_add by lia. rewrite Z.div_small by lia. lia.
Qed.

Lemma count_map {A B} (f : B -> bool) (g : A -> B) l :
  length (List.filter f (map g l)) = length (List.filter (fun x => f (g x)) l).
Proof.
  induction l as [|x l IH]; [reflexivity|]. cbn.
  destruct (f (g x)); cbn; now rewrite IH.
Qed.

Lemma count_shift (f : nat -> bool) k n : forall s,
  length (List.filter f (seq (k + s) n)) =
  length (List.filter (fun i => f (k + i)%nat) (seq s n)).
Proof.
  induction n as [|n IH]; intros s; [reflexivity|]. cbn [seq List.filter].
  rewrite <- Nat.add_succ_r.
  destruct (f (k + s)%nat); cbn [length]; now rewrite IH.
Qed.

Lemma count_none {A} (f : A -> bool) l :
  (forall x, In x l -> f x = false) -> length (List.filter f l) = 0%nat.
Proof.
  induction l as [|x l IH]; intros H; [reflexivity|]. cbn.
  rewrite (H x) by now left. apply IH. intros y Hy. apply H. now right.
Qed.

Lemma count_ext {A} (f g : A -> bool) l :
  (forall x, In x l -> f x = g x) ->
  length (List.filter f l) = length (List.filter g l).
Proof. intros H. now rewrite (List.filter_ext_in f g l H). Qed.

Lemma builtin_popcount_low v m :
  (m <= 32)%nat -> 0 <= v < 2 ^ Z.of_nat m ->
  builtin_popcount v = Z.of_nat (bits_in v 0 m).
Proof.
  intros Hm Hv. unfold builtin_popcount. rewrite count_map. f_equal.
  replace 32%nat with (m + (32 - m))%nat at 1 by lia.
  rewrite seq_app, List.filter_app, length_app.
  rewrite (count_none _ (seq (0 + m) (32 - m))); [lia|].
  intros k Hk. apply in_seq in Hk.
  apply (proj1 (below_pow2_bits (Z.of_nat m) v ltac:(lia)) Hv). lia.
Qed.

Lemma popcount_split a x :
  is_byte a -> 0 <= x < 2 ^ 24 ->
  builtin_popcount (a + 2 ^ 8 * x) = builtin_popcount a + builtin_popcount x.
Proof.
  intros Ha Hx.
  rewrite (builtin_popcount_low a 8), (builtin_popcount_low x 24)
    by (assumption || lia).
  unfold builtin_popcount. rewrite count_map.
  change 32%nat with (8 + 24)%nat.
  rewrite seq_app, List.filter_app, length_app, Nat2Z.inj_add. f_equal.
  - f_equal. apply count_ext. intros k Hk. apply in_seq in Hk.
    rewrite (testbit_split 8) by lia.
    destruct (Z.ltb_spec (Z.of_nat k) 8); [reflexivity|lia].
  - f_equal. change (0 + 8)%nat with (8 + 0)%nat. rewrite count_shift.
    apply count_ext. intros k Hk. apply in_seq in Hk.
    rewrite (testbit_split 8) by lia.
    destruct (Z.ltb_spec (Z.of_nat (8 + k)) 8); [lia|]. f_equal. lia.
Qed.

Lemma popcount_word4 b0 b1 b2 b3 :
  is_byte b0 -> is_byte b1 -> is_byte b2 -> is_byte b3 ->
  builtin_popcount (word4 b0 b1 b2 b3) =
  builtin_popcount b0 + builtin_popcount b1
  + builtin_popcount b2 + builtin_popcount b3.
Proof.
  intros H0 H1 H2 H3.
  assert (P8 : 2 ^ 8 = 256) by reflexivity.
  assert (P24 : 2 ^ 24 = 16777216) by reflexivity.
  rewrite !popcount_split by (rewrite ?P8, ?P24 in *; lia). lia.
Qed.

(** The three lines of the branch without the builtin count the bits of a
    word. *)
Lemma swar_count v : is_u32 v -> swar_popcount v = builtin_popcount v.
Proof.
  intros Hv.
  destruct (word4_of_u32 v Hv) as (b0 & b1 & b2 & b3 & -> & H0 & H1 & H2 & H3).
  unfold swar_popcount. cbn zeta.
  rewrite swar_line1 by assumption.
  rewrite swar_line2 by (apply pairs_byte with (e := 0); (assumption || lia)).
  rewrite (swar_line3 b0 b1 b2 b3) by assumption.
  rewrite swar_line4 by (apply (nibbles_byte _ 0); (assumption || lia)).
  now rewrite popcount_word4 by assumption.
Qed.

Lemma nbits_loop_ext pop pop' (eles : list Z) :
  Forall (fun w => pop w = pop' w) eles ->
  forall cnt, nbits_loop pop eles cnt = nbits_loop pop' eles cnt.
Proof.
  induction 1 as [|w eles Hw _ IH]; intros cnt; [reflexivity|].
  cbn [nbits_loop]. now rewrite Hw, IH.
Qed.

(** Extra X29.  The branch of [nbits] for compilers without
    [__builtin_popcount] computes the same count: on every word of a list
    of [uint32_t] its three lines give the number of bits set, and
    [nbits] returns the same [int] with either branch. *)
Theorem swar_popcount_correct (eles : list Z) :
  Forall is_u32 eles ->
  Forall (fun w => swar_popcount w = builtin_popcount w) eles /\
  nbits swar_popcount eles = nbits builtin_popcount eles.
Proof.
  intros Hall.
  assert (H : Forall (fun w => swar_popcount w = builtin_popcount w) eles).
  { eapply Forall_impl; [exact Hall|]. intros w Hw. now apply swar_count. }
  split; [exact H|]. unfold nbits. now apply nbits_loop_ext.
Qed.

Lemma builtin_popcount_range v : 0 <= builtin_popcount v <= 32.
Proof.
  unfold builtin_popcount. split; [lia|].
  pose proof (List.filter_length_le (Z.testbit v) (map Z.of_nat (seq 0 32))) as H.
  rewrite length_map, length_seq in H. lia.
Qed.

Lemma count_zero {A} (f : A -> bool) l :
  length (List.filter f l) = 0%nat -> forall x, In x l -> f x = false.
Proof.
  induction l as [|a l IH]; intros H x Hx; [destruct Hx|]. cbn in H.
  destruct (f a) eqn:Ea; [discriminate|].
  destruct Hx as [<-|Hx]; [exact Ea|now apply IH].
Qed.

Lemma popcount_zero w : is_u32 w -> builtin_popcount w = 0 <-> w = 0.
Proof.
  intros Hw. split; [|now intros ->]. unfold builtin_popcount. intros H.
  apply Z.bits_inj'. intros i Hi. rewrite Z.bits_0.
  destruct (Z.ltb_spec i 32); [|now apply (proj1 (is_u32_bits w) Hw)].
  assert (H' : length (List.filter (Z.testbit w) (map Z.of_nat (seq 0 32)))
               = 0%nat) by lia.
  apply (count_zero _ _ H' i). apply in_map_iff.
  exists (Z.to_nat i). split; [lia|]. apply in_seq. lia.
Qed.

Lemma nbits_loop_sum pop (eles : list Z) :
  Forall (fun w => 0 <= pop w <= 32) eles ->
  forall cnt, 0 <= cnt -> cnt + 32 * Z.of_nat (length eles) < 2 ^ 31 ->
  nbits_loop pop eles cnt = cnt + popcounts pop eles /\
  0 <= popcounts pop eles <= 32 * Z.of_nat (length eles).
Proof.
  induction 1 as [|w eles Hw _ IH]; intros cnt Hc Hlim.
  - cbn. lia.
  - assert (Hl : Z.of_nat (length (w :: eles)) = Z.of_nat (length eles) + 1)
      by (cbn [length]; lia).
    rewrite Hl in *. cbn [nbits_loop map fold_right].
    assert (P31 : 2 ^ 31 = 2147483648) by reflexivity.
    rewrite to_int_id by lia.
    destruct (IH (cnt + pop w)) as [E Hs]; [lia|lia|]. rewrite E. lia.
Qed.

Lemma eqb_true_r b : Bool.eqb b true = b.
Proof. now destruct b. Qed.

Lemma count_bits_cons w (rest : list Z) :
  Z.of_nat (count_bits true (w :: rest)) =
  builtin_popcount w + Z.of_nat (count_bits true rest).
Proof.
  unfold count_bits, bit_indices, builtin_popcount. cbn [length].
  replace (32 * S (length rest))%nat with (32 + 32 * length rest)%nat by lia.
  rewrite seq_app, map_app, List.filter_app, length_app, Nat2Z.inj_add.
  f_equal; f_equal.
  - apply count_ext. intros i Hi. apply in_map_iff in Hi as (k & <- & Hk).
    apply in_seq in Hk. rewrite eqb_true_r, bit_at_cons by lia.
    destruct (Z.ltb_spec (Z.of_nat k) 32); [reflexivity|lia].
  - rewrite !count_map. change (0 + 32)%nat with (32 + 0)%nat.
    rewrite count_shift. apply count_ext. intros k Hk.
    rewrite bit_at_cons by lia.
    destruct (Z.ltb_spec (Z.of_nat (32 + k)) 32); [lia|].
    do 2 f_equal. lia.
Qed.

Lemma popcounts_count (eles : list Z) :
  popcounts builtin_popcount eles = Z.of_nat (count_bits true eles).
Proof.
  induction eles as [|w eles IH]; [reflexivity|].
  cbn [map fold_right]. now rewrite IH, count_bits_cons.
Qed.

Lemma popcounts_empty (eles : list Z) :
  Forall is_u32 eles ->
  empty eles = true <-> popcounts builtin_popcount eles = 0.
Proof.
  induction 1 as [|w eles Hw Hall IH]; [now split|].
  cbn [empty map fold_right].
  pose proof (builtin_popcount_range w).
  assert (0 <= popcounts builtin_popcount eles).
  { clear. induction eles as [|x l IHl]; cbn; [lia|].
    pose proof (builtin_popcount_range x). lia. }
  pose proof (popcount_zero w Hw) as Hz.
  destruct (Z.eqb_spec w 0) as [->|Hne]; cbn [negb].
  - rewrite IH. change (builtin_popcount 0) with 0. lia.
  - split; [discriminate|]. intros E. exfalso. apply Hne, Hz. lia.
Qed.

(** Extra X30.  For a list of fewer than 2^26 words of 32 bits, where
    the [int] counter cannot overflow, [nbits] is the number of bit
    indices at which [test_nbit] holds, whichever branch counts the bits
    of a word, and [empty] holds exactly when [nbits] is 0. *)
Theorem nbits_counts pop (eles : list Z) :
  pop = builtin_popcount \/ pop = swar_popcount ->
  Z.of_nat (length eles) < 2 ^ 26 -> Forall is_u32 eles ->
  nbits pop eles = Z.of_nat (count_bits true eles) /\
  (empty eles = true <-> nbits pop eles = 0).
Proof.
  intros Hpop Hn Hall.
  assert (P26 : 2 ^ 26 = 67108864) by reflexivity.
  assert (P31 : 2 ^ 31 = 2147483648) by reflexivity.
  assert (Hb : nbits pop eles = nbits builtin_popcount eles).
  { destruct Hpop as [->| ->]; [reflexivity|]. unfold nbits.
    apply nbits_loop_ext. eapply Forall_impl; [exact Hall|].
    intros w Hw. now apply swar_count. }
  assert (E : nbits builtin_popcount eles = popcounts builtin_popcount eles).
  { unfold nbits.
    destruct (nbits_loop_sum builtin_popcount eles) with (cnt := 0) as [E _];
      [|lia|lia|rewrite E; lia].
    apply Forall_forall. intros w _. apply builtin_popcount_range. }
  rewrite Hb, E. split.
  - apply popcounts_count.
  - now apply popcounts_empty.
Qed.

(** ** The further statements at concrete inputs *)

Lemma set_bit_then_test_witness :
  exists bits',
    set_bit [5; 0] 33 true = Ok bits' /\ test_nbit bits' 33 = Ok true /\
    test_nbit bits' 2 = Ok true.
Proof.
  assert (H33 : bit_ok (length [5; 0]) 33)
    by (split; [unfold is_u32; lia|reflexivity]).
  assert (H2 : bit_ok (length [5; 0]) 2)
    by (split; [unfold is_u32; lia|reflexivity]).
  destruct (set_bit_then_test [5; 0] 33 true H33) as (b & E & _ & _ & Ht & Ho).
  exists b. split; [exact E|]. split; [exact Ht|].
  rewrite (Ho 2 H2) by lia. reflexivity.
Defined.

Lemma unset_bits_clears_witness :
  exists bits',
    unset_bits [7] [0; 2] = Ok bits' /\
    test_nbit bits' 1 = Ok true /\ test_nbit bits' 2 = Ok false.
Proof.
  assert (Hok : forall i, 0 <= i < 32 -> bit_ok (length [7]) i).
  { intros i Hi. split; [unfold is_u32; lia|].
    rewrite Z.div_small by lia. reflexivity. }
  destruct (unset_bits_clears [0; 2] [7]) as (b & E & _ & Hj).
  { repeat constructor; apply Hok; lia. }
  exists b. split; [exact E|].
  split; [rewrite (Hj 1)|rewrite (Hj 2)]; try reflexivity; apply Hok; lia.
Defined.

Lemma get_feature_masks_bits_witness :
  test_nbit (get_feature_masks 2 [3; 40; 0xFFFFFFFF]) 40 = Ok true /\
  test_nbit (get_feature_masks 2 [3; 40; 0xFFFFFFFF]) 31 = Ok false.
Proof.
  destruct (get_feature_masks_bits 2 [3; 40; 0xFFFFFFFF]) as [_ H];
    [cbn; lia|].
  split; rewrite H; try reflexivity;
    (split; [unfold is_u32; lia|reflexivity]).
Defined.

Lemma feature_mask_ops_bits_witness :
  test_nbit (feature_mask_or [5] [3]) 1 = Ok true /\
  test_nbit (feature_mask_and [5] [3]) 1 = Ok false /\
  test_nbit (feature_mask_not [5]) 1 = Ok true.
Proof.
  destruct (feature_mask_ops_bits [5] [3] 1 eq_refl) as (Ho & Ha & Hn & _).
  { split; [unfold is_u32; lia|reflexivity]. }
  repeat apply conj; assumption.
Defined.

Lemma features_le_order_witness : features_le [1] [7] = true.
Proof.
  assert (Hwf : forall w, is_u32 w -> wf_features 1 [w]).
  { intros w Hw. split; [reflexivity|]. constructor; [exact Hw|constructor]. }
  destruct (features_le_order 1 [1] [3] [7]) as (_ & Htrans & _);
    try (apply Hwf; unfold is_u32; lia).
  apply Htrans; reflexivity.
Defined.

Lemma enable_depends_least_witness :
  exists r,
    enable_depends [1] [{| feature := 1; dep := 2 |}; {| feature := 0; dep := 1 |}]
      = Ok r /\
    subset [1] r /\
    closed [{| feature := 1; dep := 2 |}; {| feature := 0; dep := 1 |}] r.
Proof.
  destruct (enable_depends_least [1]
              [{| feature := 1; dep := 2 |}; {| feature := 0; dep := 1 |}])
    as (r & E & _ & Hs & Hc & _).
  { repeat constructor; unfold is_u32; cbn; lia. }
  exists r. repeat apply conj; assumption.
Defined.

Lemma disable_depends_greatest_witness :
  exists r,
    disable_depends [6] [{| feature := 1; dep := 0 |}; {| feature := 2; dep := 1 |}]
      = Ok r /\
    subset r [6] /\
    closed [{| feature := 1; dep := 0 |}; {| feature := 2; dep := 1 |}] r.
Proof.
  destruct (disable_depends_greatest [6]
              [{| feature := 1; dep := 0 |}; {| feature := 2; dep := 1 |}])
    as (r & E & _ & Hs & Hc & _).
  { repeat constructor; unfold is_u32; cbn; lia. }
  exists r. repeat apply conj; assumption.
Defined.

Lemma find_cpu_name_first_witness :
  exists nm, find_cpu_name 12 sample_cpus 2 = Ok nm.
Proof.
  destruct (find_cpu_name_first 12 sample_cpus 2)
    as [(spec & _ & _ & E)|(_ & _ & E)]; [cbn; lia| |];
    eexists; exact E.
Defined.

Lemma find_cpu_id_first_witness :
  exists id, find_cpu_id (c_str (cstr "haswell")) sample_cpus 2 7 = Ok id.
Proof.
  destruct (find_cpu_id_first (cstr "haswell") [] sample_cpus 2 7)
    as [(spec & _ & _ & E)|(_ & _ & E)].
  - repeat constructor; discriminate.
  - repeat constructor; cbn; discriminate.
  - cbn; lia.
  - eexists. rewrite app_nil_r in E. exact E.
  - eexists. rewrite app_nil_r in E. exact E.
Defined.

Lemma find_feature_bit_exact_witness :
  exists bit, find_feature_bit sample_features 3 (cstr "sse3,avx") 3 = Ok bit.
Proof.
  destruct (find_feature_bit_exact (cstr "sse") (cstr "3,avx") sample_features 3)
    as [(f & _ & E)|(_ & E)].
  - repeat constructor; discriminate.
  - repeat constructor; cbn; discriminate.
  - cbn; lia.
  - eexists. exact E.
  - eexists. exact E.
Defined.

Lemma find_cpu_name_id_inverse_witness :
  find_cpu_name 12 sample_cpus 2 = Ok (cstr "haswell") /\
  find_cpu_id (c_str (cstr "haswell")) sample_cpus 2 7 = Ok 12.
Proof.
  apply (find_cpu_name_id_inverse sample_cpus 7
           {| spec_name := cstr "haswell"; spec_cpu := 12; spec_fallback := 0;
              spec_llvmver := 0; spec_features := [0x81; 0x20] |}).
  - repeat constructor; cbn; discriminate.
  - repeat (constructor;
              [intros H; apply list_elem_of_In in H; vm_compute in H;
               intuition discriminate|]).
    constructor.
  - repeat (constructor;
              [intros H; apply list_elem_of_In in H; vm_compute in H;
               intuition discriminate|]).
    constructor.
  - right. left. reflexivity.
Defined.

Lemma append_joined_witness :
  append_ext_features (cstr "+a") (cstr "-b,+c") = cstr "+a,-b,+c".
Proof.
  apply (append_joined [cstr "+a"] [cstr "-b"; cstr "+c"]);
    repeat constructor; discriminate.
Defined.

Lemma append_vec_drops_last_witness :
  append_ext_features_vec [cstr "+z"] (cstr "+a,-b,+c")
  = [cstr "+z"; cstr "+a"; cstr "-b"].
Proof.
  apply (append_vec_drops_last [cstr "+z"] [cstr "+a"; cstr "-b"] (cstr "+c"));
    repeat constructor; discriminate.
Defined.


Lemma deserialize_wrong_width_witness :
  deserialize_target_data 2
    (u32_bytes 1 ++ u32_bytes 0 ++ u32_bytes 3 ++ []) = Err AssertFailed.
Proof.
  apply deserialize_wrong_width; unfold is_u32; cbn; lia.
Defined.

Lemma parsed_targets_named_witness :
  Forall (fun T => T.(name) <> []) sample_targets.
Proof.
  apply (parsed_targets_named 1 1 unknown_cb (Some sample_option)).
  vm_compute. reflexivity.
Defined.

Lemma parsed_flags_witness : Forall (flags_ok 1) sample_targets.
Proof.
  apply (parsed_flags 1 1 unknown_cb (Some sample_option)).
  vm_compute. reflexivity.
Defined.

Lemma parsed_bases_witness :
  base_ok 1 sample_targets 3 1.
Proof.
  apply (parsed_bases 1 1 unknown_cb (Some sample_option) sample_targets 3
           {| name := cstr "core2"; ext_features := [];
              en_features := [0]; en_flags := 0;
              dis_features := [0]; dis_flags := 0; Target.base := 1 |}).
  - vm_compute. reflexivity.
  - reflexivity.
Defined.

Lemma parsed_count_witness : length sample_targets = 4%nat.
Proof.
  apply (parsed_count 1 1 unknown_cb sample_option sample_targets).
  - repeat constructor; discriminate.
  - vm_compute. reflexivity.
Defined.

Lemma parse_stops_at_terminator_witness :
  parse_cmdline 1 1 unknown_cb
    (Some (sample_option ++ Byte.x00 :: cstr ";;"))
  = parse_cmdline 1 1 unknown_cb (Some sample_option).
Proof.
  apply parse_stops_at_terminator. repeat constructor; discriminate.
Defined.

Lemma empty_target_rejected_witness :
  parse_cmdline 1 1 unknown_cb (Some (sample_option ++ cstr ";"))
  = Err (Fatal "Invalid target option: empty CPU name").
Proof.
  destruct (empty_target_rejected 1 1 unknown_cb) as (_ & _ & H).
  apply (H sample_option sample_targets).
  - repeat constructor; discriminate.
  - vm_compute. reflexivity.
Defined.

Lemma next_target_keeps_base_witness :
  exists prev,
    last sample_targets = Some prev /\
    parse_cmdline 1 1 unknown_cb
      (Some (sample_option ++ cstr ";" ++ cstr "nehalem"))
    = Ok (sample_targets ++ [bare_target 1 (cstr "nehalem") prev.(Target.base)]).
Proof.
  apply next_target_keeps_base.
  - repeat constructor; discriminate.
  - intros H. vm_compute in H. discriminate H.
  - reflexivity.
  - vm_compute. reflexivity.
Defined.

Lemma parse_sysimg_frame_witness : sample_relocated 40 = sample_data 40.
Proof.
  apply (parse_sysimg_frame sample_image 2 sample_data sample_result
           sample_relocated 40 eq_refl).
  intros slot Hin. cbn in Hin.
  change (Z.of_nat ptr_size) with 8.
  destruct Hin as [<-|[<-|[<-|[<-|[<-|[<-|[<-|[]]]]]]]]; lia.
Defined.

Lemma parse_sysimg_result_witness :
  sample_result.(offsets) = InClones 0 /\
  load_offset sample_image sample_result.(offsets) 5 = Ok 205 /\
  sample_result.(nclones) = 3.
Proof.
  destruct (parse_sysimg_result sample_image 8 sample_lists 2 _ sample_data
              sample_result sample_relocated sample_laid_out eq_refl eq_refl)
    as (_ & _ & _ & (bidxs & boffs & Hb & Hread) & Hoffs & Hn & _).
  injection Hb as <- <-.
  split; [exact Hoffs|]. split; [|exact Hn].
  apply (Hread 5%nat 205 eq_refl).
Defined.

Lemma untagged_default_rejected_witness :
  parse_sysimg untagged_image 0 sample_data = Err AssertFailed.
Proof.
  apply (untagged_default_rejected untagged_image 0 sample_data 0 1 1);
    reflexivity.
Defined.

Lemma get_clone_base_one_based_witness :
  get_clone_base (cstr "base(007)") = 8.
Proof.
  destruct (get_clone_base_one_based (cstr "007")) as [H _];
    [discriminate|reflexivity|].
  apply H. vm_compute. discriminate.
Defined.

Lemma test_bits_all_witness :
  test_bits 7 5 = true /\ Z.testbit 7 2 = true.
Proof.
  split; [reflexivity|].
  apply (proj1 (test_bits_all 7 5 ltac:(unfold is_u32; lia)) eq_refl 2);
    [lia|reflexivity].
Defined.

Lemma swar_popcount_correct_witness :
  swar_popcount 0xF0F00001 = builtin_popcount 0xF0F00001 /\
  nbits swar_popcount [0xF0F00001; 5] = nbits builtin_popcount [0xF0F00001; 5].
Proof.
  destruct (swar_popcount_correct [0xF0F00001; 5]) as [Hw Hn].
  - repeat constructor; unfold is_u32; lia.
  - split; [|exact Hn]. apply Forall_cons in Hw as [Hw _]. exact Hw.
Defined.

Lemma nbits_counts_witness :
  nbits swar_popcount [5; 0xFFFFFFFF]
  = Z.of_nat (count_bits true [5; 0xFFFFFFFF]) /\
  (empty [5; 0xFFFFFFFF] = true <-> nbits swar_popcount [5; 0xFFFFFFFF] = 0).
Proof.
  apply nbits_counts.
  - right. reflexivity.
  - cbn. lia.
  - repeat constructor; unfold is_u32; lia.
Defined.
